(** * Stella emulation core: a shallow embedding and its verified properties

    The development follows the C++ sources of the emulation core:
    - [AudioQueue]   (src/common/AudioQueue.cxx)
    - [DPCPlus]      (src/emucore/CartDPCPlus.cxx)
    - [MNetwork]     (src/emucore/CartMNetwork.cxx)
    - [E3Plus]       (src/emucore/Cart3EPlus.cxx)
    - [M6502]        (src/emucore/M6502.cxx)

    Machine integers are modelled as [Z] with the wrap-around of the C++
    type written out where the source converts or assigns. *)

From Stdlib Require Import ZArith List Lia Bool String.
From stdpp Require Import base list relations gmap.

Local Open Scope Z_scope.

(** ** Fixed-width unsigned integers *)

Definition u8 (x : Z) : Z := x mod 256.
Definition u16 (x : Z) : Z := x mod 65536.
Definition u32 (x : Z) : Z := x mod 4294967296.

(** [nz x] is the C++ truth value of the integer [x]. *)
Definition nz (x : Z) : bool := negb (x =? 0).

Module LFSR.

(** *** The DPC+ 32-bit linear-feedback shift register
    (CartridgeDPCPlus::clockRandomNumberGenerator and
     CartridgeDPCPlus::priorClockRandomNumberGenerator).
    [myRandomNumber] is a [uInt32]; the shifts to the left wrap. *)

Definition clockRandomNumberGenerator (myRandomNumber : Z) : Z :=
  Z.lxor (if nz (Z.land myRandomNumber (Z.shiftl 1 10)) then 0x10adab1e else 0x00)
         (Z.lor (Z.shiftr myRandomNumber 11) (u32 (Z.shiftl myRandomNumber 21))).

Definition priorClockRandomNumberGenerator (myRandomNumber : Z) : Z :=
  if nz (Z.land myRandomNumber (Z.shiftl 1 31)) then
    Z.lor (u32 (Z.shiftl (Z.lxor 0x10adab1e myRandomNumber) 11))
          (Z.shiftr (Z.lxor 0x10adab1e myRandomNumber) 21)
  else
    Z.lor (u32 (Z.shiftl myRandomNumber 11)) (Z.shiftr myRandomNumber 21).

(** A register value is a 32-bit unsigned quantity. *)
Definition is_u32 (x : Z) : Prop := 0 <= x < 4294967296.

(** Rotations, used only to state the bit-level lemmas. *)
Definition rotr11 (x : Z) : Z := Z.lor (Z.shiftr x 11) (u32 (Z.shiftl x 21)).
Definition rotl11 (x : Z) : Z := Z.lor (u32 (Z.shiftl x 11)) (Z.shiftr x 21).

Lemma is_u32_testbit_high x i : is_u32 x -> 32 <= i -> Z.testbit x i = false.
Proof.
  intros Hx Hi. rewrite <- (Z.mod_small x (2 ^ 32)) by (change (2 ^ 32) with 4294967296; exact Hx).
  apply Z.mod_pow2_bits_high. lia.
Qed.

Lemma is_u32_of_bits x :
  0 <= x -> (forall i, 32 <= i -> Z.testbit x i = false) -> is_u32 x.
Proof.
  intros H0 Hb. split; [exact H0|].
  destruct (Z.eq_dec x 0) as [->|Hne]; [lia|].
  assert (Hpos : 0 < x) by lia.
  destruct (Z.lt_ge_cases x 4294967296) as [|Hge]; [assumption|exfalso].
  pose proof (Z.bit_log2 x Hpos) as Hlog.
  assert (32 <= Z.log2 x).
  { change 32 with (Z.log2 4294967296). apply Z.log2_le_mono. lia. }
  rewrite Hb in Hlog by assumption. discriminate.
Qed.

Lemma rotr11_bits x i :
  is_u32 x -> 0 <= i ->
  Z.testbit (rotr11 x) i =
  if i <? 21 then Z.testbit x (i + 11)
  else if i <? 32 then Z.testbit x (i - 21) else false.
Proof.
  intros Hx Hi. unfold rotr11, u32.
  change 4294967296 with (2 ^ 32).
  rewrite Z.lor_spec, Z.shiftr_spec, Z.testbit_mod_pow2 by lia.
  destruct (Z.ltb_spec i 21); destruct (Z.ltb_spec i 32); try lia; simpl.
  - rewrite Z.shiftl_spec by lia. rewrite (Z.testbit_neg_r x (i - 21)) by lia.
    apply orb_false_r.
  - rewrite Z.shiftl_spec by lia.
    rewrite (is_u32_testbit_high x (i + 11)) by (assumption || lia). reflexivity.
  - rewrite (is_u32_testbit_high x (i + 11)) by (assumption || lia). reflexivity.
Qed.

Lemma rotl11_bits x i :
  is_u32 x -> 0 <= i ->
  Z.testbit (rotl11 x) i =
  if i <? 11 then Z.testbit x (i + 21)
  else if i <? 32 then Z.testbit x (i - 11) else false.
Proof.
  intros Hx Hi. unfold rotl11, u32.
  change 4294967296 with (2 ^ 32).
  rewrite Z.lor_spec, Z.shiftr_spec, Z.testbit_mod_pow2 by lia.
  destruct (Z.ltb_spec i 11); destruct (Z.ltb_spec i 32); try lia; simpl.
  - rewrite Z.shiftl_spec by lia. rewrite (Z.testbit_neg_r x (i - 11)) by lia.
    reflexivity.
  - rewrite Z.shiftl_spec by lia.
    rewrite (is_u32_testbit_high x (i + 21)) by (assumption || lia).
    apply orb_false_r.
  - rewrite (is_u32_testbit_high x (i + 21)) by (assumption || lia). reflexivity.
Qed.

Lemma rotr11_range x : is_u32 x -> is_u32 (rotr11 x).
Proof.
  intros Hx. apply is_u32_of_bits.
  - unfold rotr11, u32. apply Z.lor_nonneg. split.
    + apply Z.shiftr_nonneg. apply Hx.
    + apply Z.mod_pos_bound. lia.
  - intros i Hi. rewrite rotr11_bits by (assumption || lia).
    destruct (Z.ltb_spec i 21); [lia|]. destruct (Z.ltb_spec i 32); [lia|]. reflexivity.
Qed.

Lemma rotl11_range x : is_u32 x -> is_u32 (rotl11 x).
Proof.
  intros Hx. apply is_u32_of_bits.
  - unfold rotl11, u32. apply Z.lor_nonneg. split.
    + apply Z.mod_pos_bound. lia.
    + apply Z.shiftr_nonneg. apply Hx.
  - intros i Hi. rewrite rotl11_bits by (assumption || lia).
    destruct (Z.ltb_spec i 11); [lia|]. destruct (Z.ltb_spec i 32); [lia|]. reflexivity.
Qed.

Lemma rotl11_rotr11 x : is_u32 x -> rotl11 (rotr11 x) = x.
Proof.
  intros Hx. apply Z.bits_inj'. intros i Hi.
  rewrite rotl11_bits by (auto using rotr11_range).
  destruct (Z.ltb_spec i 11).
  - rewrite rotr11_bits by (assumption || lia).
    destruct (Z.ltb_spec (i + 21) 21); [lia|].
    destruct (Z.ltb_spec (i + 21) 32); [|lia]. f_equal. lia.
  - destruct (Z.ltb_spec i 32).
    + rewrite rotr11_bits by (assumption || lia).
      destruct (Z.ltb_spec (i - 11) 21); [|lia]. f_equal. lia.
    + symmetry. apply is_u32_testbit_high; assumption.
Qed.

Lemma rotr11_rotl11 x : is_u32 x -> rotr11 (rotl11 x) = x.
Proof.
  intros Hx. apply Z.bits_inj'. intros i Hi.
  rewrite rotr11_bits by (auto using rotl11_range).
  destruct (Z.ltb_spec i 21).
  - rewrite rotl11_bits by (assumption || lia).
    destruct (Z.ltb_spec (i + 11) 11); [lia|].
    destruct (Z.ltb_spec (i + 11) 32); [|lia]. f_equal. lia.
  - destruct (Z.ltb_spec i 32).
    + rewrite rotl11_bits by (assumption || lia).
      destruct (Z.ltb_spec (i - 21) 11); [|lia]. f_equal. lia.
    + symmetry. apply is_u32_testbit_high; assumption.
Qed.

Lemma land_bit x k :
  0 <= k -> nz (Z.land x (Z.shiftl 1 k)) = Z.testbit x k.
Proof.
  intros Hk. rewrite Z.shiftl_1_l. unfold nz.
  destruct (Z.testbit x k) eqn:Hb.
  - destruct (Z.eqb_spec (Z.land x (2 ^ k)) 0) as [E|]; [|reflexivity].
    assert (Z.testbit (Z.land x (2 ^ k)) k = false) as Hc by (rewrite E; apply Z.bits_0).
    rewrite Z.land_spec, Hb, Z.pow2_bits_true in Hc by lia. discriminate.
  - destruct (Z.eqb_spec (Z.land x (2 ^ k)) 0) as [|N]; [reflexivity|].
    exfalso. apply N. apply Z.bits_inj'. intros i Hi.
    rewrite Z.land_spec, Z.bits_0, Z.pow2_bits_eqb by lia.
    destruct (Z.eqb_spec k i) as [->|]; [rewrite Hb|]; [reflexivity|apply andb_false_r].
Qed.

Lemma lxor_range a b : is_u32 a -> is_u32 b -> is_u32 (Z.lxor a b).
Proof.
  intros Ha Hb. apply is_u32_of_bits.
  - apply Z.lxor_nonneg. unfold is_u32 in *. lia.
  - intros i Hi. rewrite Z.lxor_spec.
    rewrite (is_u32_testbit_high a), (is_u32_testbit_high b) by assumption. reflexivity.
Qed.

Lemma poly_range : is_u32 0x10adab1e.
Proof. unfold is_u32. lia. Qed.

Lemma clock_unfold r :
  clockRandomNumberGenerator r =
  Z.lxor (if Z.testbit r 10 then 0x10adab1e else 0) (rotr11 r).
Proof. unfold clockRandomNumberGenerator. rewrite land_bit by lia. reflexivity. Qed.

Lemma prior_unfold r :
  priorClockRandomNumberGenerator r =
  if Z.testbit r 31 then rotl11 (Z.lxor 0x10adab1e r) else rotl11 r.
Proof. unfold priorClockRandomNumberGenerator. rewrite land_bit by lia. reflexivity. Qed.

Lemma clock_range r : is_u32 r -> is_u32 (clockRandomNumberGenerator r).
Proof.
  intros Hr. rewrite clock_unfold. apply lxor_range; [|apply rotr11_range, Hr].
  destruct (Z.testbit r 10); [apply poly_range | unfold is_u32; lia].
Qed.

Lemma prior_range r : is_u32 r -> is_u32 (priorClockRandomNumberGenerator r).
Proof.
  intros Hr. rewrite prior_unfold.
  destruct (Z.testbit r 31); apply rotl11_range; auto using lxor_range, poly_range.
Qed.

(** The feedback tap (bit 10) is rotated into bit 31, where the polynomial
    0x10adab1e has a zero: the top bit of the new value tells whether the
    polynomial was applied. *)
Lemma clock_top_bit r :
  is_u32 r -> Z.testbit (clockRandomNumberGenerator r) 31 = Z.testbit r 10.
Proof.
  intros Hr. rewrite clock_unfold, Z.lxor_spec, rotr11_bits by (assumption || lia).
  change (31 <? 21) with false. change (31 <? 32) with true. change (31 - 21) with 10.
  cbv iota. destruct (Z.testbit r 10); reflexivity.
Qed.

Lemma prior_tap_bit r :
  is_u32 r -> Z.testbit (priorClockRandomNumberGenerator r) 10 = Z.testbit r 31.
Proof.
  intros Hr. rewrite prior_unfold.
  destruct (Z.testbit r 31) eqn:Hb.
  - rewrite rotl11_bits by (auto using lxor_range, poly_range || lia).
    change (10 <? 11) with true. change (10 + 21) with 31. cbv iota.
    rewrite Z.lxor_spec, Hb. reflexivity.
  - rewrite rotl11_bits by (assumption || lia).
    change (10 <? 11) with true. change (10 + 21) with 31. cbv iota. exact Hb.
Qed.

Lemma prior_clock r :
  is_u32 r -> priorClockRandomNumberGenerator (clockRandomNumberGenerator r) = r.
Proof.
  intros Hr. rewrite prior_unfold, clock_top_bit by assumption.
  rewrite clock_unfold. destruct (Z.testbit r 10).
  - rewrite <- Z.lxor_assoc, Z.lxor_nilpotent, Z.lxor_0_l. apply rotl11_rotr11, Hr.
  - rewrite Z.lxor_0_l. apply rotl11_rotr11, Hr.
Qed.

Lemma clock_prior r :
  is_u32 r -> clockRandomNumberGenerator (priorClockRandomNumberGenerator r) = r.
Proof.
  intros Hr. rewrite clock_unfold, prior_tap_bit by assumption.
  rewrite prior_unfold. destruct (Z.testbit r 31).
  - rewrite rotr11_rotl11 by auto using lxor_range, poly_range.
    rewrite <- Z.lxor_assoc, Z.lxor_nilpotent. apply Z.lxor_0_l.
  - rewrite rotr11_rotl11 by assumption. apply Z.lxor_0_l.
Qed.

Lemma iter_clock_range n r :
  is_u32 r -> is_u32 (Nat.iter n clockRandomNumberGenerator r).
Proof. intros Hr. induction n; simpl; auto using clock_range. Qed.

Lemma iter_prior_clock n r :
  is_u32 r ->
  Nat.iter n priorClockRandomNumberGenerator (Nat.iter n clockRandomNumberGenerator r) = r.
Proof.
  intros Hr. induction n as [|n IH]; [reflexivity|].
  rewrite Nat.iter_succ_r. simpl.
  rewrite prior_clock by (apply iter_clock_range, Hr). exact IH.
Qed.

(** C4: on every non-zero 32-bit register value, clocking the DPC+ LFSR
    forward n times and then backward n times restores the register, for
    every n; the backward clock is the two-sided inverse of the forward
    clock, and both keep the register non-zero and within 32 bits. *)
Theorem lfsr_backward_inverts_forward (r : Z) (n : nat) :
  is_u32 r -> r <> 0 ->
  Nat.iter n priorClockRandomNumberGenerator
           (Nat.iter n clockRandomNumberGenerator r) = r
  /\ priorClockRandomNumberGenerator (clockRandomNumberGenerator r) = r
  /\ clockRandomNumberGenerator (priorClockRandomNumberGenerator r) = r
  /\ is_u32 (clockRandomNumberGenerator r) /\ clockRandomNumberGenerator r <> 0
  /\ is_u32 (priorClockRandomNumberGenerator r) /\ priorClockRandomNumberGenerator r <> 0.
Proof.
  intros Hr Hnz.
  split; [apply iter_prior_clock, Hr|].
  split; [apply prior_clock, Hr|].
  split; [apply clock_prior, Hr|].
  split; [apply clock_range, Hr|].
  split.
  { intros E. apply Hnz. rewrite <- (prior_clock r Hr), E. reflexivity. }
  split; [apply prior_range, Hr|].
  intros E. apply Hnz. rewrite <- (clock_prior r Hr), E. reflexivity.
Qed.

Lemma lfsr_backward_inverts_forward_witness :
  Nat.iter 3 priorClockRandomNumberGenerator
           (Nat.iter 3 clockRandomNumberGenerator 0x2B435044) = 0x2B435044
  /\ priorClockRandomNumberGenerator (clockRandomNumberGenerator 0x2B435044) = 0x2B435044.
Proof.
  pose proof (lfsr_backward_inverts_forward 0x2B435044 3) as H.
  assert (H1 : is_u32 0x2B435044) by (unfold is_u32; lia).
  assert (H2 : 0x2B435044 <> 0) by lia.
  destruct (H H1 H2) as (Ha & Hb & _). split; assumption.
Defined.

End LFSR.

(** ** Results of fallible operations

    [Ret a] is normal completion, [Throw msg] a C++ exception carrying
    [msg], and [Undefined] marks an execution whose behaviour the C++
    language leaves undefined (integer division by zero). *)
Inductive outcome (A : Type) : Type :=
| Ret (a : A)
| Throw (msg : string)
| Undefined.
Arguments Ret {A} a.
Arguments Throw {A} msg.
Arguments Undefined {A}.

#[global] Instance outcome_ret : MRet outcome := fun A a => Ret a.
#[global] Instance outcome_bind : MBind outcome := fun A B k m =>
  match m with
  | Ret a => k a
  | Throw msg => Throw msg
  | Undefined => Undefined
  end.

(** [std::vector::at]: bounds-checked access, throwing when out of range. *)
Definition vec_at {A : Type} (v : list A) (i : Z) : outcome A :=
  if i <? 0 then Throw "vector::at"
  else match v !! Z.to_nat i with
       | Some x => Ret x
       | None => Throw "vector::at"
       end.

Definition vec_at_put {A : Type} (v : list A) (i : Z) (x : A) : outcome (list A) :=
  _ ← vec_at v i; Ret (<[Z.to_nat i := x]> v).

Module AudioQueue.

(** *** src/common/AudioQueue.cxx

    A fragment pointer [Int16*] is either the null pointer ([None]) or the
    address [myFragmentBuffer + k] ([Some k], counted in samples).  The
    mutex taken by every operation is not modelled: each operation runs to
    completion under the lock. The member [mySampleRate] is never assigned
    by the constructor and is left out. *)

Abbreviation Fragment := (option Z).

Record t : Type := mk {
  myFragmentSize : Z;                      (* uInt32 *)
  myIsStereo : bool;
  myFragmentQueue : list Fragment;         (* vector<Int16*> *)
  myAllFragments : list Fragment;          (* vector<Int16*> *)
  mySize : Z;                              (* uInt8 *)
  myNextFragment : Z;                      (* uInt8 *)
  myFirstFragmentForEnqueue : Fragment;
  myFirstFragmentForDequeue : Fragment
}.

Definition sampleSize (isStereo : bool) : Z := if isStereo then 2 else 1.

(** [myFragmentBuffer + i * sampleSize * myFragmentSize]: the product is
    evaluated in [uInt32]. *)
Definition fragmentAt (fragmentSize : Z) (isStereo : bool) (i : Z) : Fragment :=
  Some (u32 (i * sampleSize isStereo * fragmentSize)).

(** AudioQueue::AudioQueue(fragmentSize, capacity, isStereo, sampleRate) *)
Definition AudioQueue (fragmentSize capacity : Z) (isStereo : bool) : t :=
  let ring := map (fun i => fragmentAt fragmentSize isStereo (Z.of_nat i))
                  (seq 0 (Z.to_nat capacity)) in
  {| myFragmentSize := fragmentSize;
     myIsStereo := isStereo;
     myFragmentQueue := ring;
     myAllFragments :=
       ring ++ [fragmentAt fragmentSize isStereo capacity;
                fragmentAt fragmentSize isStereo (capacity + 1)];
     mySize := 0;
     myNextFragment := 0;
     myFirstFragmentForEnqueue := fragmentAt fragmentSize isStereo capacity;
     myFirstFragmentForDequeue := fragmentAt fragmentSize isStereo (capacity + 1) |}.

(** AudioQueue::capacity *)
Definition capacity (q : t) : Z := u8 (Z.of_nat (length (myFragmentQueue q))).

(** AudioQueue::size *)
Definition size (q : t) : Z := mySize q.

Definition set_queue (q : t) (v : list Fragment) (sz next : Z) : t :=
  {| myFragmentSize := myFragmentSize q;
     myIsStereo := myIsStereo q;
     myFragmentQueue := v;
     myAllFragments := myAllFragments q;
     mySize := sz;
     myNextFragment := next;
     myFirstFragmentForEnqueue := myFirstFragmentForEnqueue q;
     myFirstFragmentForDequeue := myFirstFragmentForDequeue q |}.

Definition spend_enqueue (q : t) : t :=
  {| myFragmentSize := myFragmentSize q;
     myIsStereo := myIsStereo q;
     myFragmentQueue := myFragmentQueue q;
     myAllFragments := myAllFragments q;
     mySize := mySize q;
     myNextFragment := myNextFragment q;
     myFirstFragmentForEnqueue := None;
     myFirstFragmentForDequeue := myFirstFragmentForDequeue q |}.

Definition spend_dequeue (q : t) : t :=
  {| myFragmentSize := myFragmentSize q;
     myIsStereo := myIsStereo q;
     myFragmentQueue := myFragmentQueue q;
     myAllFragments := myAllFragments q;
     mySize := mySize q;
     myNextFragment := myNextFragment q;
     myFirstFragmentForEnqueue := myFirstFragmentForEnqueue q;
     myFirstFragmentForDequeue := None |}.

(** AudioQueue::enqueue *)
Definition enqueue (fragment : Fragment) (q : t) : outcome (Fragment * t) :=
  match fragment with
  | None =>
      match myFirstFragmentForEnqueue q with
      | None => Throw "enqueue called empty"
      | Some newFragment => Ret (Some newFragment, spend_enqueue q)
      end
  | Some _ =>
      let capacity := u8 (Z.of_nat (length (myFragmentQueue q))) in
      if capacity =? 0 then Undefined      (* "% capacity" with capacity == 0 *)
      else
        let fragmentIndex := u8 ((myNextFragment q + mySize q) mod capacity) in
        newFragment ← vec_at (myFragmentQueue q) fragmentIndex;
        v ← vec_at_put (myFragmentQueue q) fragmentIndex fragment;
        if mySize q <? capacity
        then Ret (newFragment, set_queue q v (u8 (mySize q + 1)) (myNextFragment q))
        else Ret (newFragment,
                  set_queue q v (mySize q) (u8 ((myNextFragment q + 1) mod capacity)))
  end.

(** AudioQueue::dequeue *)
Definition dequeue (fragment : Fragment) (q : t) : outcome (Fragment * t) :=
  if mySize q =? 0 then Ret (None, q)
  else
    '(fragment, q) ←
      match fragment with
      | None =>
          match myFirstFragmentForDequeue q with
          | None => Throw "dequeue called empty"
          | Some f => Ret (Some f, spend_dequeue q)
          end
      | Some _ => Ret (fragment, q)
      end;
    nextFragment ← vec_at (myFragmentQueue q) (myNextFragment q);
    v ← vec_at_put (myFragmentQueue q) (myNextFragment q) fragment;
    let n := Z.of_nat (length (myFragmentQueue q)) in
    if n =? 0 then Undefined
    else Ret (nextFragment,
              set_queue q v (u8 (mySize q - 1)) (u8 ((myNextFragment q + 1) mod n))).

(** Enqueue a sequence of filled fragments, collecting the buffers handed
    back; dequeue with a sequence of caller-supplied buffers, collecting
    the fragments handed out. *)
Fixpoint enqueue_all (fs : list Z) (q : t) : outcome (list Fragment * t) :=
  match fs with
  | [] => Ret ([], q)
  | f :: fs' =>
      '(r, q1) ← enqueue (Some f) q;
      '(rs, q2) ← enqueue_all fs' q1;
      Ret (r :: rs, q2)
  end.

Fixpoint dequeue_all (ds : list Z) (q : t) : outcome (list Fragment * t) :=
  match ds with
  | [] => Ret ([], q)
  | d :: ds' =>
      '(r, q1) ← dequeue (Some d) q;
      '(rs, q2) ← dequeue_all ds' q1;
      Ret (r :: rs, q2)
  end.

Example enqueue_dequeue_capacity_2 :
  ('(_, q) ← enqueue_all [100; 200; 300] (AudioQueue 64 2 false);
   '(rs, q') ← dequeue_all [400; 500; 600] q;
   Ret (rs, mySize q'))
  = Ret ([Some 200; Some 300; None], 0).
Proof. reflexivity. Qed.

(** **** The ring seen as a FIFO *)

Definition ring_length (q : t) : Z := Z.of_nat (length (myFragmentQueue q)).

(** A queue is well formed when its cursors lie inside a non-empty ring of
    at most 255 slots (the constructor takes the capacity as a [uInt8]). *)
Definition wf (q : t) : Prop :=
  0 < ring_length q <= 255 /\
  0 <= mySize q <= ring_length q /\
  0 <= myNextFragment q < ring_length q.

Definition slot (v : list Fragment) (next i : Z) : Fragment :=
  default None (v !! Z.to_nat ((next + i) mod Z.of_nat (length v))).

(** The queued fragments, oldest first. *)
Definition contents (q : t) : list Fragment :=
  map (fun i => slot (myFragmentQueue q) (myNextFragment q) (Z.of_nat i))
      (seq 0 (Z.to_nat (mySize q))).

Definition keep_last (c : Z) (l : list Fragment) : list Fragment :=
  drop (length l - Z.to_nat c) l.

Lemma contents_length q : length (contents q) = Z.to_nat (mySize q).
Proof. unfold contents. rewrite length_map, length_seq. reflexivity. Qed.

Lemma ring_index_inj c n i j :
  0 < c -> 0 <= i < c -> 0 <= j < c ->
  (n + i) mod c = (n + j) mod c -> i = j.
Proof.
  intros Hc Hi Hj E.
  assert (H : ((n + i) - (n + j)) mod c = 0).
  { rewrite Zminus_mod, E, Z.sub_diag. apply Z.mod_0_l. lia. }
  replace (n + i - (n + j)) with (i - j) in H by lia.
  destruct (Z.lt_ge_cases i j).
  - assert ((j - i) mod c = 0).
    { replace (j - i) with (- (i - j)) by lia. apply Z.mod_opp_l_z; [lia|assumption]. }
    rewrite Z.mod_small in * by lia. lia.
  - rewrite Z.mod_small in H by lia. lia.
Qed.

Lemma slot_insert_eq v next i k x :
  0 < Z.of_nat (length v) ->
  (next + i) mod Z.of_nat (length v) = k ->
  slot (<[Z.to_nat k := x]> v) next i = x.
Proof.
  intros Hc <-. unfold slot. rewrite length_insert.
  rewrite list_lookup_insert_eq; [reflexivity|].
  pose proof (Z.mod_pos_bound (next + i) _ Hc). lia.
Qed.

Lemma slot_insert_ne v next i k x :
  0 < Z.of_nat (length v) -> 0 <= k ->
  (next + i) mod Z.of_nat (length v) <> k ->
  slot (<[Z.to_nat k := x]> v) next i = slot v next i.
Proof.
  intros Hc Hk E. unfold slot. rewrite length_insert.
  rewrite list_lookup_insert_ne; [reflexivity|].
  pose proof (Z.mod_pos_bound (next + i) _ Hc). lia.
Qed.

Lemma vec_at_ok {A} (v : list A) (i : Z) :
  0 <= i < Z.of_nat (length v) -> exists x, vec_at v i = Ret x /\ v !! Z.to_nat i = Some x.
Proof.
  intros Hi. unfold vec_at. destruct (Z.ltb_spec i 0); [lia|].
  destruct (v !! Z.to_nat i) as [x|] eqn:E; [eauto|].
  apply lookup_ge_None in E. lia.
Qed.

Lemma vec_at_put_ok {A} (v : list A) (i : Z) (x : A) :
  0 <= i < Z.of_nat (length v) -> vec_at_put v i x = Ret (<[Z.to_nat i := x]> v).
Proof.
  intros Hi. unfold vec_at_put. destruct (vec_at_ok v i Hi) as (y & -> & _). reflexivity.
Qed.

Lemma u8_small x : 0 <= x < 256 -> u8 x = x.
Proof. intros. unfold u8. apply Z.mod_small. assumption. Qed.

(** Effect of one enqueue of a filled fragment on a well-formed queue. *)
Lemma enqueue_contents q f :
  wf q ->
  exists r q',
    enqueue (Some f) q = Ret (r, q') /\ wf q' /\
    ring_length q' = ring_length q /\
    contents q' = keep_last (ring_length q) (contents q ++ [Some f]).
Proof.
  intros (Hc & Hs & Hn). unfold ring_length in *. unfold enqueue.
  set (c := Z.of_nat (length (myFragmentQueue q))) in *.
  rewrite (u8_small c) by lia.
  destruct (Z.eqb_spec c 0); [lia|].
  pose proof (Z.mod_pos_bound (myNextFragment q + mySize q) c ltac:(lia)) as Hidx.
  rewrite (u8_small ((myNextFragment q + mySize q) mod c)) by lia.
  set (idx := (myNextFragment q + mySize q) mod c) in *.
  destruct (vec_at_ok (myFragmentQueue q) idx ltac:(lia)) as (r & -> & _).
  rewrite vec_at_put_ok by lia. cbn [mbind outcome_bind].
  destruct (Z.ltb_spec (mySize q) c) as [Hlt|Hge].
  - (* room left: append *)
    eexists _, _. split; [reflexivity|].
    rewrite (u8_small (mySize q + 1)) by lia.
    unfold wf, ring_length, contents, keep_last; cbn [myFragmentQueue mySize myNextFragment set_queue].
    rewrite length_insert. fold c.
    split; [lia|]. split; [reflexivity|].
    rewrite length_app, length_map, length_seq. cbn [length].
    replace (Z.to_nat (mySize q) + 1 - Z.to_nat c)%nat with 0%nat by lia.
    rewrite drop_0.
    replace (Z.to_nat (mySize q + 1)) with (S (Z.to_nat (mySize q))) by lia.
    rewrite seq_S, map_app. cbn [map Nat.add]. f_equal.
    + apply map_ext_in. intros i Hi%in_seq.
      apply slot_insert_ne; [lia|lia|]. fold c. unfold idx. intros E.
      apply ring_index_inj in E; lia.
    + f_equal. apply slot_insert_eq; [lia|]. fold c. unfold idx. f_equal. lia.
  - (* full: overwrite the oldest slot and advance *)
    assert (Hfull : mySize q = c) by lia.
    assert (Hidx' : idx = myNextFragment q).
    { unfold idx. rewrite Hfull. rewrite <- Z.add_mod_idemp_r, Z.mod_same, Z.add_0_r by lia.
      apply Z.mod_small. lia. }
    pose proof (Z.mod_pos_bound (myNextFragment q + 1) c ltac:(lia)) as Hnext.
    eexists _, _. split; [reflexivity|].
    rewrite (u8_small (_ mod c)) by lia.
    unfold wf, ring_length, contents, keep_last; cbn [myFragmentQueue mySize myNextFragment set_queue].
    rewrite length_insert. fold c.
    split; [lia|]. split; [reflexivity|].
    rewrite length_app, length_map, length_seq. cbn [length].
    rewrite Hfull.
    replace (Z.to_nat c + 1 - Z.to_nat c)%nat with 1%nat by lia.
    destruct (Z.to_nat c) as [|k] eqn:Ek; [lia|].
    change (seq 0 (S k)) with (0%nat :: seq 1 k) at 2.
    rewrite seq_S, map_app. cbn [map Nat.add app skipn].
    rewrite <- seq_shift, map_map, drop_0. f_equal.
    + apply map_ext_in. intros i Hi%in_seq.
      unfold slot at 1. rewrite length_insert. fold c.
      rewrite Z.add_mod_idemp_l by lia.
      rewrite Hidx', list_lookup_insert_ne.
      * unfold slot. fold c.
        replace (myNextFragment q + Z.of_nat (S i))
          with (myNextFragment q + 1 + Z.of_nat i) by lia.
        reflexivity.
      * intros E. apply Z2Nat.inj in E; [|lia|apply Z.mod_pos_bound; lia].
        rewrite <- (Z.mod_small (myNextFragment q) c) in E at 1 by lia.
        replace (myNextFragment q) with (myNextFragment q + 0) in E at 1 by lia.
        replace (myNextFragment q + 1 + Z.of_nat i)
          with (myNextFragment q + (1 + Z.of_nat i)) in E by lia.
        apply ring_index_inj in E; lia.
    + f_equal. unfold slot. rewrite length_insert. fold c.
      rewrite Z.add_mod_idemp_l by lia.
      replace (myNextFragment q + 1 + Z.of_nat k) with (myNextFragment q + c) by lia.
      rewrite <- Z.add_mod_idemp_r, Z.mod_same, Z.add_0_r, Z.mod_small by lia.
      rewrite Hidx', list_lookup_insert_eq by lia. reflexivity.
Qed.

(** The part of [dequeue] that follows the choice of the buffer swapped
    into the ring. *)
Definition dequeued (fragment : Fragment) (q : t) : t :=
  set_queue q (<[Z.to_nat (myNextFragment q) := fragment]> (myFragmentQueue q))
            (mySize q - 1) ((myNextFragment q + 1) mod ring_length q).

Definition oldest (q : t) : Fragment :=
  default None (myFragmentQueue q !! Z.to_nat (myNextFragment q)).

Lemma dequeue_supplied q d :
  wf q -> mySize q <> 0 ->
  dequeue (Some d) q = Ret (oldest q, dequeued (Some d) q).
Proof.
  intros (Hc & Hs & Hn) Hne. unfold dequeue, dequeued, oldest, ring_length in *.
  destruct (Z.eqb_spec (mySize q) 0); [contradiction|].
  cbn [mbind outcome_bind].
  destruct (vec_at_ok (myFragmentQueue q) (myNextFragment q) Hn) as (x & -> & ->).
  rewrite vec_at_put_ok by assumption. cbn [mbind outcome_bind default].
  destruct (Z.eqb_spec (Z.of_nat (length (myFragmentQueue q))) 0); [lia|].
  pose proof (Z.mod_pos_bound (myNextFragment q + 1) _ (proj1 Hc)).
  rewrite (u8_small (mySize q - 1)), (u8_small (_ mod _)) by lia. reflexivity.
Qed.

Lemma dequeue_reserved q d :
  wf q -> mySize q <> 0 -> myFirstFragmentForDequeue q = Some d ->
  dequeue None q = Ret (oldest q, dequeued (Some d) (spend_dequeue q)).
Proof.
  intros (Hc & Hs & Hn) Hne Hd. unfold dequeue, dequeued, oldest, ring_length in *.
  destruct (Z.eqb_spec (mySize q) 0); [contradiction|].
  rewrite Hd. cbn [mbind outcome_bind spend_dequeue myFragmentQueue myNextFragment mySize].
  destruct (vec_at_ok (myFragmentQueue q) (myNextFragment q) Hn) as (x & -> & ->).
  rewrite vec_at_put_ok by assumption. cbn [mbind outcome_bind default].
  destruct (Z.eqb_spec (Z.of_nat (length (myFragmentQueue q))) 0); [lia|].
  pose proof (Z.mod_pos_bound (myNextFragment q + 1) _ (proj1 Hc)).
  rewrite (u8_small (mySize q - 1)), (u8_small (_ mod _)) by lia. reflexivity.
Qed.

Lemma dequeued_contents q q0 fragment :
  wf q -> mySize q <> 0 ->
  myFragmentQueue q0 = myFragmentQueue q -> mySize q0 = mySize q ->
  myNextFragment q0 = myNextFragment q ->
  wf (dequeued fragment q0) /\
  ring_length (dequeued fragment q0) = ring_length q /\
  contents q = oldest q :: contents (dequeued fragment q0).
Proof.
  intros (Hc & Hs & Hn) Hne Eq Es En.
  unfold wf, contents, dequeued, oldest, ring_length in *.
  cbn [myFragmentQueue mySize myNextFragment set_queue]. rewrite Eq, Es, En.
  rewrite length_insert.
  set (c := Z.of_nat (length (myFragmentQueue q))) in *.
  pose proof (Z.mod_pos_bound (myNextFragment q + 1) c ltac:(lia)).
  split; [lia|]. split; [reflexivity|].
  replace (Z.to_nat (mySize q)) with (S (Z.to_nat (mySize q - 1))) by lia.
  cbn [seq map]. f_equal.
  - unfold slot. fold c. rewrite Z.add_0_r, Z.mod_small by lia. reflexivity.
  - rewrite <- seq_shift, map_map. apply map_ext_in. intros i Hi%in_seq.
    unfold slot at 2. rewrite length_insert. fold c.
    rewrite Z.add_mod_idemp_l by lia.
    rewrite list_lookup_insert_ne.
    + unfold slot. fold c.
      replace (myNextFragment q + Z.of_nat (S i))
        with (myNextFragment q + 1 + Z.of_nat i) by lia.
      reflexivity.
    + intros E. apply Z2Nat.inj in E; [|lia|apply Z.mod_pos_bound; lia].
      rewrite <- (Z.mod_small (myNextFragment q) c) in E at 1 by lia.
      replace (myNextFragment q) with (myNextFragment q + 0) in E at 1 by lia.
      replace (myNextFragment q + 1 + Z.of_nat i)
        with (myNextFragment q + (1 + Z.of_nat i)) in E by lia.
      apply ring_index_inj in E; lia.
Qed.

Lemma dequeue_empty fragment q :
  mySize q = 0 -> dequeue fragment q = Ret (None, q).
Proof. intros E. unfold dequeue. rewrite E. reflexivity. Qed.

Lemma keep_last_all c l : (length l <= Z.to_nat c)%nat -> keep_last c l = l.
Proof.
  intros H. unfold keep_last.
  replace (length l - Z.to_nat c)%nat with 0%nat by lia. apply drop_0.
Qed.

Lemma keep_last_app c l l' :
  keep_last c (keep_last c l ++ l') = keep_last c (l ++ l').
Proof.
  unfold keep_last.
  destruct (Nat.le_gt_cases (length l) (Z.to_nat c)) as [Hle|Hgt].
  - replace (length l - Z.to_nat c)%nat with 0%nat by lia. rewrite drop_0. reflexivity.
  - rewrite !length_app, length_drop.
    rewrite <- (drop_app_le l l' (length l - Z.to_nat c)) by lia.
    rewrite drop_drop. f_equal. lia.
Qed.

Lemma enqueue_all_contents fs : forall q,
  wf q ->
  exists rs q',
    enqueue_all fs q = Ret (rs, q') /\ wf q' /\
    ring_length q' = ring_length q /\
    contents q' = keep_last (ring_length q) (contents q ++ map Some fs).
Proof.
  induction fs as [|f fs IH]; intros q Hwf.
  - exists [], q. split; [reflexivity|]. split; [assumption|]. split; [reflexivity|].
    cbn [map]. rewrite app_nil_r, keep_last_all; [reflexivity|].
    rewrite contents_length. destruct Hwf as (_ & ? & _). lia.
  - destruct (enqueue_contents q f Hwf) as (r & q1 & E1 & Hwf1 & Hl1 & Hc1).
    destruct (IH q1 Hwf1) as (rs & q2 & E2 & Hwf2 & Hl2 & Hc2).
    exists (r :: rs), q2. cbn [enqueue_all]. rewrite E1. cbn [mbind outcome_bind].
    rewrite E2. cbn [mbind outcome_bind].
    split; [reflexivity|]. split; [assumption|]. split; [congruence|].
    rewrite Hc2, Hc1, Hl1, keep_last_app. cbn [map].
    rewrite <- app_assoc. reflexivity.
Qed.

Lemma dequeue_all_contents ds : forall q,
  wf q -> length ds = length (contents q) ->
  exists q',
    dequeue_all ds q = Ret (contents q, q') /\ wf q' /\ mySize q' = 0.
Proof.
  induction ds as [|d ds IH]; intros q Hwf Hlen.
  - exists q. rewrite contents_length in Hlen. cbn [length] in Hlen.
    destruct (contents q) eqn:E.
    + split; [reflexivity|]. split; [assumption|]. destruct Hwf as (_ & ? & _). lia.
    + apply (f_equal length) in E. rewrite contents_length in E. cbn [length] in E. lia.
  - assert (Hne : mySize q <> 0).
    { rewrite contents_length in Hlen. cbn [length] in Hlen. lia. }
    destruct (dequeued_contents q q (Some d) Hwf Hne eq_refl eq_refl eq_refl)
      as (Hwf1 & _ & Hc).
    rewrite Hc in Hlen. cbn [length] in Hlen.
    destruct (IH _ Hwf1 ltac:(lia)) as (q' & E & Hwf' & Hs').
    exists q'. cbn [dequeue_all]. rewrite dequeue_supplied by assumption.
    cbn [mbind outcome_bind]. rewrite E. cbn [mbind outcome_bind].
    rewrite Hc at 1. auto.
Qed.

Lemma AudioQueue_wf fragmentSize c isStereo :
  0 < c <= 255 -> wf (AudioQueue fragmentSize c isStereo).
Proof.
  intros Hc. unfold wf, ring_length, AudioQueue.
  cbn [myFragmentQueue mySize myNextFragment].
  rewrite length_map, length_seq. lia.
Qed.

(** C3 (amended): on a queue whose ring has capacity c >= 1, enqueueing
    c+1 filled fragments and then dequeuing c times, handing in a buffer
    each time, yields exactly the last c of them in insertion order (the
    first one is dropped); the queue is then empty, and dequeuing from an
    empty queue returns null and leaves the queue unchanged. *)
Theorem enqueue_overflow_drops_oldest (q : t) (f0 : Z) (fs ds : list Z) :
  wf q ->
  Z.of_nat (length fs) = ring_length q ->
  length ds = length fs ->
  exists rs q1 q2,
    enqueue_all (f0 :: fs) q = Ret (rs, q1) /\
    dequeue_all ds q1 = Ret (map Some fs, q2) /\
    size q2 = 0 /\
    forall d, dequeue d q2 = Ret (None, q2).
Proof.
  intros Hwf Hfs Hds.
  destruct (enqueue_all_contents (f0 :: fs) q Hwf) as (rs & q1 & E1 & Hwf1 & Hl1 & Hc1).
  assert (Hc : contents q1 = map Some fs).
  { rewrite Hc1. unfold keep_last. cbn [map].
    rewrite length_app. cbn [length]. rewrite length_map.
    replace (length (contents q) + S (length fs) - Z.to_nat (ring_length q))%nat
      with (length (contents q ++ [Some f0])) by (rewrite length_app; cbn [length]; lia).
    replace (contents q ++ Some f0 :: map Some fs)
      with ((contents q ++ [Some f0]) ++ map Some fs) by (rewrite <- app_assoc; reflexivity).
    apply drop_app_length. }
  destruct (dequeue_all_contents ds q1 Hwf1) as (q2 & E2 & Hwf2 & Hs2).
  { rewrite Hc, length_map. assumption. }
  exists rs, q1, q2. rewrite <- Hc. split; [assumption|]. split; [assumption|].
  split; [assumption|]. intros d. apply dequeue_empty, Hs2.
Qed.

Lemma enqueue_overflow_drops_oldest_witness :
  exists rs q1 q2,
    enqueue_all [10; 20; 30] (AudioQueue 64 2 false) = Ret (rs, q1) /\
    dequeue_all [40; 50] q1 = Ret ([Some 20; Some 30], q2) /\
    size q2 = 0 /\
    forall d, dequeue d q2 = Ret (None, q2).
Proof.
  apply (enqueue_overflow_drops_oldest (AudioQueue 64 2 false) 10 [20; 30] [40; 50]).
  - apply AudioQueue_wf. lia.
  - reflexivity.
  - reflexivity.
Defined.

(** C3 as stated fails for capacity 0: the first enqueue of a filled
    fragment evaluates [(myNextFragment + mySize) % capacity] with
    [capacity == 0]. *)
Lemma enqueue_capacity_zero_undefined :
  enqueue_all [100] (AudioQueue 64 0 false) = Undefined.
Proof. reflexivity. Qed.

(** **** The two reserved bootstrap fragments *)

(** One successful call of [enqueue] or [dequeue], with any argument. *)
Inductive step : t -> t -> Prop :=
| step_enqueue fragment q r q' : enqueue fragment q = Ret (r, q') -> step q q'
| step_dequeue fragment q r q' : dequeue fragment q = Ret (r, q') -> step q q'.

Ltac outcome_cases H :=
  repeat match type of H with
  | context [match ?x with _ => _ end] => destruct x eqn:?; cbn [mbind outcome_bind] in H
  | context [mbind _ ?x] => destruct x eqn:?; cbn [mbind outcome_bind] in H
  | context [if ?b then _ else _] => destruct b eqn:?
  end; try discriminate.

Lemma enqueue_fields fragment q r q' :
  enqueue fragment q = Ret (r, q') ->
  (myFirstFragmentForEnqueue q' = myFirstFragmentForEnqueue q \/
   myFirstFragmentForEnqueue q' = None) /\
  myFirstFragmentForDequeue q' = myFirstFragmentForDequeue q.
Proof.
  intros H. unfold enqueue in H. outcome_cases H;
    injection H as _ <-; cbn; auto.
Qed.

Lemma dequeue_fields fragment q r q' :
  dequeue fragment q = Ret (r, q') ->
  myFirstFragmentForEnqueue q' = myFirstFragmentForEnqueue q /\
  (myFirstFragmentForDequeue q' = myFirstFragmentForDequeue q \/
   myFirstFragmentForDequeue q' = None).
Proof.
  intros H. unfold dequeue in H. outcome_cases H;
    injection H as _ <-; cbn; auto;
    match goal with
    | E : Ret _ = Ret _ |- _ => injection E as _ <-; cbn; auto
    end.
Qed.

Lemma step_fields q q' :
  step q q' ->
  (myFirstFragmentForEnqueue q' = myFirstFragmentForEnqueue q \/
   myFirstFragmentForEnqueue q' = None) /\
  (myFirstFragmentForDequeue q' = myFirstFragmentForDequeue q \/
   myFirstFragmentForDequeue q' = None).
Proof.
  intros [f q0 r q0' H | f q0 r q0' H].
  - destruct (enqueue_fields _ _ _ _ H) as [? ->]. auto.
  - destruct (dequeue_fields _ _ _ _ H) as [-> ?]. auto.
Qed.

(** A reserved fragment, once spent, is never restored. *)
Lemma steps_spent q q' :
  rtc step q q' ->
  (myFirstFragmentForEnqueue q = None -> myFirstFragmentForEnqueue q' = None) /\
  (myFirstFragmentForDequeue q = None -> myFirstFragmentForDequeue q' = None).
Proof.
  induction 1 as [|q q1 q' Hs _ [IHe IHd]]; [auto|].
  destruct (step_fields _ _ Hs) as [[He|He] [Hd|Hd]];
    split; intros; (apply IHe || apply IHd); congruence.
Qed.

Lemma steps_fields q q' :
  rtc step q q' ->
  (myFirstFragmentForEnqueue q' = myFirstFragmentForEnqueue q \/
   myFirstFragmentForEnqueue q' = None) /\
  (myFirstFragmentForDequeue q' = myFirstFragmentForDequeue q \/
   myFirstFragmentForDequeue q' = None).
Proof.
  induction 1 as [|q q1 q' Hs Hr [IHe IHd]]; [auto|].
  destruct (steps_spent _ _ Hr) as [Se Sd].
  destruct (step_fields _ _ Hs) as [[He|He] [Hd|Hd]]; split;
    try (right; auto; fail); try (rewrite <- He; assumption);
    try (rewrite <- Hd; assumption).
Qed.

(** Cursors stay inside the ring; a ring without slots stays empty. *)
Definition cursors_ok (q : t) : Prop :=
  wf q \/ (ring_length q = 0 /\ mySize q = 0).

Lemma step_cursors_ok q q' : step q q' -> cursors_ok q -> cursors_ok q'.
Proof.
  intros [f q0 r q0' H | f q0 r q0' H] Hok.
  - destruct f as [f|].
    + destruct Hok as [Hwf|[Hz _]].
      * destruct (enqueue_contents q0 f Hwf) as (r1 & q1 & E & Hwf1 & _).
        rewrite E in H. injection H as _ <-. left. assumption.
      * unfold enqueue, ring_length in H, Hz. rewrite Hz in H. discriminate.
    + unfold enqueue in H. destruct (myFirstFragmentForEnqueue q0); [|discriminate].
      injection H as _ <-. exact Hok.
  - destruct (Z.eq_dec (mySize q0) 0) as [Hz|Hne].
    + rewrite dequeue_empty in H by assumption. injection H as _ <-. exact Hok.
    + destruct Hok as [Hwf|[_ ?]]; [|contradiction]. left.
      destruct f as [d|].
      * rewrite dequeue_supplied in H by assumption. injection H as _ <-.
        apply (dequeued_contents q0 q0); auto.
      * destruct (myFirstFragmentForDequeue q0) as [d|] eqn:Ed.
        -- rewrite (dequeue_reserved q0 d) in H by assumption. injection H as _ <-.
           apply (dequeued_contents q0 (spend_dequeue q0)); auto.
        -- unfold dequeue in H. destruct (Z.eqb_spec (mySize q0) 0); [contradiction|].
           rewrite Ed in H. discriminate.
Qed.

Lemma steps_cursors_ok q q' : rtc step q q' -> cursors_ok q -> cursors_ok q'.
Proof. induction 1; eauto using step_cursors_ok. Qed.

Lemma AudioQueue_cursors_ok fragmentSize c isStereo :
  0 <= c < 256 -> cursors_ok (AudioQueue fragmentSize c isStereo).
Proof.
  intros Hc. destruct (Z.eq_dec c 0) as [->|].
  - right. split; reflexivity.
  - left. apply AudioQueue_wf. lia.
Qed.

Lemma fragmentAt_distinct fragmentSize isStereo c :
  u32 (sampleSize isStereo * fragmentSize) <> 0 ->
  fragmentAt fragmentSize isStereo c <> fragmentAt fragmentSize isStereo (c + 1).
Proof.
  unfold fragmentAt, u32. intros Hx E. injection E as E. apply Hx.
  set (x := sampleSize isStereo * fragmentSize) in *.
  replace ((c + 1) * sampleSize isStereo * fragmentSize) with (c * x + x) in E by (unfold x; ring).
  replace (c * sampleSize isStereo * fragmentSize) with (c * x) in E by (unfold x; ring).
  replace x with ((c * x + x) - c * x) at 1 by ring.
  rewrite Zminus_mod, <- E, Z.sub_diag. reflexivity.
Qed.

(** C9 (amended): for a freshly constructed queue whose fragments have a
    non-zero size, the two reserved fragments are distinct buffers.  In
    every state reached by successful calls, [enqueue] without a fragment
    returns the enqueue-side reserved fragment while it is unspent and
    throws once it is spent; [dequeue] without a fragment on a non-empty
    queue returns the oldest queued fragment (never the reserved one) and
    parks the dequeue-side reserved fragment in the vacated ring slot while
    it is unspent, and throws once it is spent; on an empty queue it
    returns null whether or not the reserved fragment is spent.  A spent
    reserved fragment stays spent. *)
Theorem bootstrap_fragments_once (fragmentSize capacity : Z) (isStereo : bool) :
  0 <= capacity < 256 ->
  u32 (sampleSize isStereo * fragmentSize) <> 0 ->
  let q0 := AudioQueue fragmentSize capacity isStereo in
  let E := fragmentAt fragmentSize isStereo capacity in
  let D := fragmentAt fragmentSize isStereo (capacity + 1) in
  E <> D /\
  enqueue None q0 = Ret (E, spend_enqueue q0) /\
  forall q, rtc step q0 q ->
    (myFirstFragmentForEnqueue q = E \/ myFirstFragmentForEnqueue q = None) /\
    (myFirstFragmentForDequeue q = D \/ myFirstFragmentForDequeue q = None) /\
    (myFirstFragmentForEnqueue q = E ->
       enqueue None q = Ret (E, spend_enqueue q)) /\
    (myFirstFragmentForEnqueue q = None ->
       enqueue None q = Throw "enqueue called empty") /\
    (mySize q <> 0 -> myFirstFragmentForDequeue q = D ->
       exists x q',
         dequeue None q = Ret (x, q') /\
         myFragmentQueue q !! Z.to_nat (myNextFragment q) = Some x /\
         myFragmentQueue q' !! Z.to_nat (myNextFragment q) = Some D /\
         myFirstFragmentForDequeue q' = None) /\
    (mySize q <> 0 -> myFirstFragmentForDequeue q = None ->
       dequeue None q = Throw "dequeue called empty") /\
    (mySize q = 0 -> dequeue None q = Ret (None, q)) /\
    (forall q', rtc step q q' ->
       (myFirstFragmentForEnqueue q = None -> myFirstFragmentForEnqueue q' = None) /\
       (myFirstFragmentForDequeue q = None -> myFirstFragmentForDequeue q' = None)).
Proof.
  intros Hc Hx q0 E D.
  split; [apply fragmentAt_distinct, Hx|].
  split; [reflexivity|].
  intros q Hq.
  pose proof (steps_fields _ _ Hq) as [He Hd].
  pose proof (steps_cursors_ok _ _ Hq (AudioQueue_cursors_ok _ _ _ Hc)) as Hok.
  split; [exact He|]. split; [exact Hd|].
  split. { intros HE. unfold enqueue. rewrite HE. reflexivity. }
  split. { intros HE. unfold enqueue. rewrite HE. reflexivity. }
  split.
  { intros Hne HD. destruct Hok as [Hwf|[_ ?]]; [|contradiction].
    exists (oldest q), (dequeued D (spend_dequeue q)).
    split; [apply dequeue_reserved; assumption|].
    destruct Hwf as (Hl & Hs & Hn). unfold ring_length in *.
    destruct (myFragmentQueue q !! Z.to_nat (myNextFragment q)) as [x|] eqn:Ex.
    - unfold oldest. rewrite Ex. split; [reflexivity|].
      split; [|reflexivity].
      cbn [dequeued spend_dequeue set_queue myFragmentQueue myNextFragment].
      apply list_lookup_insert_eq. lia.
    - apply lookup_ge_None in Ex. lia. }
  split.
  { intros Hne HD. unfold dequeue.
    destruct (Z.eqb_spec (mySize q) 0); [contradiction|]. rewrite HD. reflexivity. }
  split; [apply dequeue_empty|].
  apply steps_spent.
Qed.

Lemma bootstrap_fragments_once_witness :
  let q0 := AudioQueue 64 2 false in
  Some 128 <> Some 192 /\
  enqueue None q0 = Ret (Some 128, spend_enqueue q0).
Proof.
  intros q0.
  assert (H1 : 0 <= 2 < 256) by lia.
  assert (H2 : u32 (sampleSize false * 64) <> 0) by (vm_compute; discriminate).
  destruct (bootstrap_fragments_once 64 2 false H1 H2) as (Hd & He & _).
  split; [exact Hd | exact He].
Defined.

(** C9 as stated fails: after one filled fragment has been queued,
    [dequeue] without a fragment does not return the reserved dequeue-side
    fragment; it returns the queued fragment and keeps the reserved one
    inside the ring. *)
Lemma dequeue_bootstrap_returns_queued_fragment :
  let q0 := AudioQueue 64 2 false in
  exists q1 q2 r,
    enqueue_all [1000] q0 = Ret ([Some 0], q1) /\
    myFirstFragmentForDequeue q1 = Some 192 /\
    dequeue None q1 = Ret (r, q2) /\
    r = Some 1000 /\
    r <> myFirstFragmentForDequeue q1.
Proof.
  eexists _, _, _. split; [reflexivity|]. split; [reflexivity|].
  split; [reflexivity|]. split; [reflexivity|]. discriminate.
Qed.

(** **** Beyond the overflow case *)

Lemma step_ring_length q q' :
  step q q' -> cursors_ok q -> ring_length q' = ring_length q.
Proof.
  intros [f q0 r q0' H | f q0 r q0' H] Hok.
  - destruct f as [f|].
    + destruct Hok as [Hwf|[Hz _]].
      * destruct (enqueue_contents q0 f Hwf) as (r1 & q1 & E & _ & Hl & _).
        rewrite E in H. injection H as _ <-. exact Hl.
      * unfold enqueue, ring_length in H, Hz. rewrite Hz in H. discriminate.
    + unfold enqueue in H. destruct (myFirstFragmentForEnqueue q0); [|discriminate].
      injection H as _ <-. reflexivity.
  - destruct (Z.eq_dec (mySize q0) 0) as [Hz|Hne].
    + rewrite dequeue_empty in H by assumption. injection H as _ <-. reflexivity.
    + destruct Hok as [Hwf|[_ ?]]; [|contradiction].
      destruct f as [d|].
      * rewrite dequeue_supplied in H by assumption. injection H as _ <-.
        apply (dequeued_contents q0 q0); auto.
      * destruct (myFirstFragmentForDequeue q0) as [d|] eqn:Ed.
        -- rewrite (dequeue_reserved q0 d) in H by assumption. injection H as _ <-.
           apply (dequeued_contents q0 (spend_dequeue q0)); auto.
        -- unfold dequeue in H. destruct (Z.eqb_spec (mySize q0) 0); [contradiction|].
           rewrite Ed in H. discriminate.
Qed.

Lemma steps_ring_length q q' :
  rtc step q q' -> cursors_ok q -> ring_length q' = ring_length q.
Proof.
  induction 1 as [|q1 q2 q3 H12 _ IH]; intros Hok; [reflexivity|].
  rewrite IH by (eapply step_cursors_ok; eassumption).
  apply step_ring_length; assumption.
Qed.

Lemma swap_slot {T} (l : list T) (i : nat) (x y : T) :
  l !! i = Some x -> Permutation (x :: <[i := y]> l) (y :: l).
Proof.
  intros Hx. pose proof (lookup_lt_Some _ _ _ Hx) as Hi.
  rewrite <- (take_drop_middle l i x Hx) at 2.
  rewrite (insert_take_drop l i y Hi).
  rewrite <- !Permutation_middle. apply perm_swap.
Qed.

(** X8.  Below capacity the queue is a plain FIFO.  When the fragments
    already queued and the new ones fit into the ring, enqueueing the new
    ones drops nothing, and dequeuing as many times as fragments are
    queued (handing in a buffer each time) yields the old fragments
    followed by the new ones, in order, and leaves the queue empty. *)
Theorem fifo_without_overflow (q : t) (fs ds : list Z) :
  wf q ->
  mySize q + Z.of_nat (length fs) <= ring_length q ->
  Z.of_nat (length ds) = mySize q + Z.of_nat (length fs) ->
  exists rs q1 q2,
    enqueue_all fs q = Ret (rs, q1) /\
    size q1 = size q + Z.of_nat (length fs) /\ capacity q1 = capacity q /\
    dequeue_all ds q1 = Ret (contents q ++ map Some fs, q2) /\
    size q2 = 0.
Proof.
  intros Hwf Hfit Hds.
  pose proof Hwf as (Hc & Hs & Hn).
  destruct (enqueue_all_contents fs q Hwf) as (rs & q1 & E1 & Hwf1 & Hl1 & Hc1).
  rewrite keep_last_all in Hc1
    by (rewrite length_app, contents_length, length_map; lia).
  assert (Hsz : mySize q1 = mySize q + Z.of_nat (length fs)).
  { pose proof (f_equal length Hc1) as Hlen.
    rewrite length_app, !contents_length, length_map in Hlen.
    destruct Hwf1 as (_ & ? & _). lia. }
  destruct (dequeue_all_contents ds q1 Hwf1) as (q2 & E2 & _ & Hs2).
  { rewrite contents_length. lia. }
  exists rs, q1, q2. rewrite Hc1 in E2.
  split; [exact E1|]. split; [exact Hsz|]. split; [|split; [exact E2|exact Hs2]].
  unfold capacity. unfold ring_length in Hl1. rewrite Hl1. reflexivity.
Qed.

Lemma fifo_without_overflow_witness :
  exists rs q1 q2,
    enqueue_all [100; 200] (AudioQueue 64 3 false) = Ret (rs, q1) /\
    size q1 = 2 /\
    dequeue_all [300; 400] q1 = Ret ([Some 100; Some 200], q2) /\
    size q2 = 0.
Proof.
  assert (Hwf : wf (AudioQueue 64 3 false)) by (apply AudioQueue_wf; lia).
  destruct (fifo_without_overflow (AudioQueue 64 3 false) [100; 200] [300; 400] Hwf)
    as (rs & q1 & q2 & E1 & Hs & _ & E2 & Hs2);
    [vm_compute; discriminate|reflexivity|].
  exists rs, q1, q2. auto.
Defined.

(** X9.  The hand-off conserves buffers.  An enqueue of a filled fragment
    and a dequeue with a buffer handed in each swap the caller's buffer
    with the one in a slot of the ring: the buffer returned together with
    the slots afterwards are the buffer handed in together with the slots
    before, so no buffer is lost and none appears twice. *)
Theorem handoff_conserves_buffers (q : t) (f : Z) :
  wf q ->
  (exists r q',
     enqueue (Some f) q = Ret (r, q') /\
     Permutation (r :: myFragmentQueue q') (Some f :: myFragmentQueue q)) /\
  (size q <> 0 ->
   exists r q',
     dequeue (Some f) q = Ret (r, q') /\
     Permutation (r :: myFragmentQueue q') (Some f :: myFragmentQueue q)).
Proof.
  intros Hwf. pose proof Hwf as (Hc & Hs & Hn). unfold ring_length in *. split.
  - unfold enqueue.
    set (c := Z.of_nat (length (myFragmentQueue q))) in *.
    rewrite (u8_small c) by lia.
    destruct (Z.eqb_spec c 0); [lia|].
    pose proof (Z.mod_pos_bound (myNextFragment q + mySize q) c ltac:(lia)) as Hidx.
    rewrite (u8_small ((myNextFragment q + mySize q) mod c)) by lia.
    set (idx := (myNextFragment q + mySize q) mod c) in *.
    destruct (myFragmentQueue q !! Z.to_nat idx) as [x|] eqn:Ex;
      [|apply lookup_ge_None in Ex; lia].
    unfold vec_at_put, vec_at. destruct (Z.ltb_spec idx 0); [lia|].
    rewrite Ex. cbn [mbind outcome_bind].
    destruct (mySize q <? c); eexists _, _; (split; [reflexivity|]);
      cbn [myFragmentQueue set_queue]; apply swap_slot, Ex.
  - intros Hne. unfold size in Hne.
    rewrite dequeue_supplied by assumption.
    eexists _, _. split; [reflexivity|].
    unfold oldest, dequeued. cbn [myFragmentQueue set_queue].
    destruct (myFragmentQueue q !! Z.to_nat (myNextFragment q)) as [x|] eqn:Ex;
      [|apply lookup_ge_None in Ex; lia].
    cbn [default]. apply swap_slot, Ex.
Qed.

Lemma handoff_conserves_buffers_witness :
  exists r q',
    enqueue (Some 100) (AudioQueue 64 3 false) = Ret (r, q') /\
    Permutation (r :: myFragmentQueue q')
                (Some 100 :: myFragmentQueue (AudioQueue 64 3 false)).
Proof.
  assert (Hwf : wf (AudioQueue 64 3 false)) by (apply AudioQueue_wf; lia).
  exact (proj1 (handoff_conserves_buffers (AudioQueue 64 3 false) 100 Hwf)).
Defined.

(** X10.  Whatever sequence of enqueue and dequeue calls a queue built
    with capacity [c] has gone through (with or without a fragment
    handed in, calls that throw apart), its capacity is still [c] and its
    size lies between 0 and the capacity. *)
Theorem size_within_capacity (fragmentSize c : Z) (isStereo : bool) (q : t) :
  0 <= c < 256 ->
  rtc step (AudioQueue fragmentSize c isStereo) q ->
  capacity q = c /\ 0 <= size q <= capacity q.
Proof.
  intros Hc Hsteps.
  pose proof (AudioQueue_cursors_ok fragmentSize c isStereo Hc) as Hok0.
  pose proof (steps_cursors_ok _ _ Hsteps Hok0) as Hok.
  pose proof (steps_ring_length _ _ Hsteps Hok0) as Hlen.
  assert (Hring : ring_length q = c).
  { rewrite Hlen. unfold ring_length, AudioQueue. cbn [myFragmentQueue].
    rewrite length_map, length_seq. lia. }
  assert (Hcap : capacity q = c).
  { unfold capacity. unfold ring_length in Hring. rewrite Hring. apply u8_small. lia. }
  split; [exact Hcap|]. rewrite Hcap. unfold size.
  destruct Hok as [(_ & Hs & _)|[_ Hs]]; lia.
Qed.

Lemma size_within_capacity_witness :
  exists r q,
    enqueue (Some 100) (AudioQueue 64 3 false) = Ret (r, q) /\
    capacity q = 3 /\ 0 <= size q <= capacity q.
Proof.
  assert (Hwf : wf (AudioQueue 64 3 false)) by (apply AudioQueue_wf; lia).
  destruct (enqueue_contents (AudioQueue 64 3 false) 100 Hwf) as (r & q & E & _).
  exists r, q. split; [exact E|].
  apply (size_within_capacity 64 3 false); [lia|].
  eapply rtc_once, step_enqueue. exact E.
Defined.

End AudioQueue.

(** ** Arrays

    C arrays are lists read and written by index.  An access outside the
    array is undefined in the source; the model reads 0 and drops the
    write. *)
Definition rd (a : list Z) (i : Z) : Z :=
  if i <? 0 then 0 else default 0 (a !! Z.to_nat i).

Definition wr (a : list Z) (i : Z) (v : Z) : list Z :=
  if i <? 0 then a else <[Z.to_nat i := v]> a.

Lemma length_wr a i v : length (wr a i v) = length a.
Proof. unfold wr. destruct (i <? 0); [reflexivity|apply length_insert]. Qed.

Lemma rd_wr_eq a i v : 0 <= i < Z.of_nat (length a) -> rd (wr a i v) i = v.
Proof.
  intros Hi. unfold rd, wr. destruct (Z.ltb_spec i 0); [lia|].
  rewrite list_lookup_insert_eq by lia. reflexivity.
Qed.

Lemma wr_same a i :
  0 <= i < Z.of_nat (length a) -> wr a i (rd a i) = a.
Proof.
  intros Hi. unfold wr, rd. destruct (Z.ltb_spec i 0); [lia|].
  destruct (a !! Z.to_nat i) as [x|] eqn:E.
  - cbn. apply list_insert_id, E.
  - apply lookup_ge_None in E. lia.
Qed.

Module System.

(** *** The address bus as the cartridges use it

    Modelled from the spec: the System class (System.hxx, System.cxx) is
    not among the sources.  Following section 3 of the specification, the
    16-bit address space is partitioned into fixed-size pages, and each
    page holds an access mode, an optional direct pointer into ROM or RAM
    backing storage and an optional pointer into the code/data
    classification array.  Pointers are modelled as a backing array and an
    offset into it.  The page size of 64 bytes is the one the hot-spot
    arithmetic of the cartridges relies on ([0x1FE0 & ~PAGE_MASK] is the
    page of the hot spots, and 0x1080 is a page boundary). *)

Definition PAGE_SHIFT : Z := 6.
Definition PAGE_SIZE : Z := 64.
Definition PAGE_MASK : Z := 63.

Inductive PageAccessType : Type := READ | WRITE | READWRITE.

(** The arrays of a cartridge a direct pointer can point into. *)
Inductive Backing : Type := ImageData | RamData.

Record PageAccess : Type := mkPageAccess {
  directPeekBase : option (Backing * Z);
  directPokeBase : option (Backing * Z);
  codeAccessBase : option Z;
  type : PageAccessType
}.

(** [System::PageAccess access(this, type)] *)
Definition newPageAccess (ty : PageAccessType) : PageAccess :=
  {| directPeekBase := None; directPokeBase := None;
     codeAccessBase := None; type := ty |}.

Definition set_directPeekBase (b : option (Backing * Z)) (a : PageAccess) : PageAccess :=
  {| directPeekBase := b; directPokeBase := directPokeBase a;
     codeAccessBase := codeAccessBase a; type := type a |}.

Definition set_directPokeBase (b : option (Backing * Z)) (a : PageAccess) : PageAccess :=
  {| directPeekBase := directPeekBase a; directPokeBase := b;
     codeAccessBase := codeAccessBase a; type := type a |}.

Definition set_codeAccessBase (b : option Z) (a : PageAccess) : PageAccess :=
  {| directPeekBase := directPeekBase a; directPokeBase := directPokeBase a;
     codeAccessBase := b; type := type a |}.

Definition set_type (ty : PageAccessType) (a : PageAccess) : PageAccess :=
  {| directPeekBase := directPeekBase a; directPokeBase := directPokeBase a;
     codeAccessBase := codeAccessBase a; type := ty |}.

(** The page table, indexed by page number. *)
Abbreviation PageTable := (gmap Z PageAccess).

Definition page_of (addr : Z) : Z := Z.shiftr (Z.land addr 0xFFFF) PAGE_SHIFT.

(** [mySystem->setPageAccess(addr, access)] *)
Definition setPageAccess (addr : Z) (access : PageAccess) (pt : PageTable) : PageTable :=
  <[page_of addr := access]> pt.

(** The addresses visited by
    [for(uInt16 addr = from; addr < to; addr += System::PAGE_SIZE)]. *)
Definition for_pages (from to : Z) : list Z :=
  map (fun k => from + PAGE_SIZE * Z.of_nat k)
      (seq 0 (Z.to_nat ((to - from + PAGE_MASK) / PAGE_SIZE))).

(** A loop that installs [access addr] at every visited address. *)
Definition set_pages (access : Z -> PageAccess) (from to : Z) (pt : PageTable) : PageTable :=
  foldl (fun pt addr => setPageAccess addr (access addr) pt) pt (for_pages from to).

Lemma page_of_aligned p : 0 <= p < 1024 -> page_of (PAGE_SIZE * p) = p.
Proof.
  intros Hp. unfold page_of, PAGE_SIZE, PAGE_SHIFT.
  change 0xFFFF with (Z.ones 16). rewrite Z.land_ones by lia.
  rewrite Z.mod_small by lia. rewrite Z.shiftr_div_pow2 by lia.
  change (2 ^ 6) with 64. rewrite Z.mul_comm. apply Z.div_mul. lia.
Qed.

Lemma page_of_range addr : 0 <= addr < 65536 -> page_of addr = addr / 64.
Proof.
  intros H. unfold page_of, PAGE_SHIFT.
  change 0xFFFF with (Z.ones 16). rewrite Z.land_ones by lia.
  rewrite Z.mod_small by lia. rewrite Z.shiftr_div_pow2 by lia. reflexivity.
Qed.

Lemma lookup_set_pages_count access pa n pt :
  0 <= pa -> pa + Z.of_nat n <= 1024 ->
  forall p,
  foldl (fun pt addr => setPageAccess addr (access addr) pt) pt
        (map (fun k => PAGE_SIZE * pa + PAGE_SIZE * Z.of_nat k) (seq 0 n)) !! p
  = if decide (pa <= p < pa + Z.of_nat n) then Some (access (PAGE_SIZE * p)) else pt !! p.
Proof.
  intros Hpa. induction n as [|n IH]; intros Hn p.
  - cbn. case_decide; [lia|reflexivity].
  - rewrite seq_S, map_app, foldl_app. cbn [map foldl Nat.add].
    unfold setPageAccess at 1.
    replace (PAGE_SIZE * pa + PAGE_SIZE * Z.of_nat n) with (PAGE_SIZE * (pa + Z.of_nat n))
      by (unfold PAGE_SIZE; lia).
    rewrite page_of_aligned by lia.
    destruct (Z.eq_dec (pa + Z.of_nat n) p) as [E|Hne].
    + rewrite E, lookup_insert_eq. case_decide; [reflexivity|lia].
    + rewrite lookup_insert_ne by assumption. rewrite IH by lia.
      repeat case_decide; try lia; reflexivity.
Qed.

(** Pages written by a loop over a page-aligned range. *)
Lemma lookup_set_pages access pa pb pt p :
  0 <= pa <= pb -> pb <= 1024 ->
  set_pages access (PAGE_SIZE * pa) (PAGE_SIZE * pb) pt !! p
  = if decide (pa <= p < pb) then Some (access (PAGE_SIZE * p)) else pt !! p.
Proof.
  intros Hab Hb. unfold set_pages, for_pages.
  replace ((PAGE_SIZE * pb - PAGE_SIZE * pa + PAGE_MASK) / PAGE_SIZE) with (pb - pa).
  2:{ unfold PAGE_SIZE, PAGE_MASK.
      replace (64 * pb - 64 * pa + 63) with (63 + (pb - pa) * 64) by lia.
      rewrite Z.div_add by lia. reflexivity. }
  rewrite lookup_set_pages_count by lia.
  repeat case_decide; try lia; reflexivity.
Qed.

End System.

Module Serializer.

(** *** Persisted emulation state

    Modelled from the spec: the Serializer class is not among the sources.
    Following section 6 of the specification, the persisted state is an
    ordered stream of typed primitives (bytes, shorts, ints, longs,
    doubles, booleans and fixed-length arrays of them).  A [get] throws
    when the stream is exhausted or the next item has another type or
    length.  A double is carried as its 64-bit pattern. *)

Inductive item : Type :=
| Byte (v : Z)
| Short (v : Z)
| Int (v : Z)
| Long (v : Z)
| Bool (b : bool)
| Double (bits : Z)
| ByteArray (a : list Z)
| ShortArray (a : list Z)
| IntArray (a : list Z).

Abbreviation stream := (list item).

Definition getShort (st : stream) : outcome (Z * stream) :=
  match st with Short v :: st' => Ret (v, st') | _ => Throw "Serializer::getShort" end.

Definition getInt (st : stream) : outcome (Z * stream) :=
  match st with Int v :: st' => Ret (v, st') | _ => Throw "Serializer::getInt" end.

Definition getLong (st : stream) : outcome (Z * stream) :=
  match st with Long v :: st' => Ret (v, st') | _ => Throw "Serializer::getLong" end.

Definition getBool (st : stream) : outcome (bool * stream) :=
  match st with Bool b :: st' => Ret (b, st') | _ => Throw "Serializer::getBool" end.

Definition getDouble (st : stream) : outcome (Z * stream) :=
  match st with Double d :: st' => Ret (d, st') | _ => Throw "Serializer::getDouble" end.

Definition getByteArray (n : Z) (st : stream) : outcome (list Z * stream) :=
  match st with
  | ByteArray a :: st' =>
      if Z.of_nat (length a) =? n then Ret (a, st') else Throw "Serializer::getByteArray"
  | _ => Throw "Serializer::getByteArray"
  end.

Definition getShortArray (n : Z) (st : stream) : outcome (list Z * stream) :=
  match st with
  | ShortArray a :: st' =>
      if Z.of_nat (length a) =? n then Ret (a, st') else Throw "Serializer::getShortArray"
  | _ => Throw "Serializer::getShortArray"
  end.

Definition getIntArray (n : Z) (st : stream) : outcome (list Z * stream) :=
  match st with
  | IntArray a :: st' =>
      if Z.of_nat (length a) =? n then Ret (a, st') else Throw "Serializer::getIntArray"
  | _ => Throw "Serializer::getIntArray"
  end.

End Serializer.

Module MNetwork.
Import System.

(** *** src/emucore/CartMNetwork.cxx, CartMNetwork.hxx

    The members inherited from the Cartridge base class that this file
    uses ([myBankLocked] behind [bankLocked()], [myBankChanged],
    [myStartBank] behind [startBank()]) are fields of the state record,
    and so is the page table of the System the cartridge is installed in.
    The debugger-only bookkeeping of RAM accesses is not modelled. *)

Definition BANK_SIZE : Z := 0x800.
Definition RAM_SIZE : Z := 0x800.
Definition NUM_SEGMENTS : Z := 2.

Record t : Type := mk {
  mySize : Z;                   (* uInt32 *)
  myImage : list Z;             (* ByteBuffer *)
  myRAM : list Z;               (* uInt8[RAM_SIZE] *)
  myCurrentSlice : list Z;      (* uInt16[NUM_SEGMENTS] *)
  myCurrentRAM : Z;             (* uInt16 *)
  myRAMSlice : Z;               (* uInt32 *)
  myStartBank : Z;
  myBankLocked : bool;
  myBankChanged : bool;
  pages : PageTable
}.

Definition set_myImage (v : list Z) (s : t) : t :=
  mk (mySize s) v (myRAM s) (myCurrentSlice s) (myCurrentRAM s) (myRAMSlice s)
     (myStartBank s) (myBankLocked s) (myBankChanged s) (pages s).
Definition set_myRAM (v : list Z) (s : t) : t :=
  mk (mySize s) (myImage s) v (myCurrentSlice s) (myCurrentRAM s) (myRAMSlice s)
     (myStartBank s) (myBankLocked s) (myBankChanged s) (pages s).
Definition set_myCurrentSlice (v : list Z) (s : t) : t :=
  mk (mySize s) (myImage s) (myRAM s) v (myCurrentRAM s) (myRAMSlice s)
     (myStartBank s) (myBankLocked s) (myBankChanged s) (pages s).
Definition set_myCurrentRAM (v : Z) (s : t) : t :=
  mk (mySize s) (myImage s) (myRAM s) (myCurrentSlice s) v (myRAMSlice s)
     (myStartBank s) (myBankLocked s) (myBankChanged s) (pages s).
Definition set_myRAMSlice (v : Z) (s : t) : t :=
  mk (mySize s) (myImage s) (myRAM s) (myCurrentSlice s) (myCurrentRAM s) v
     (myStartBank s) (myBankLocked s) (myBankChanged s) (pages s).
Definition set_myStartBank (v : Z) (s : t) : t :=
  mk (mySize s) (myImage s) (myRAM s) (myCurrentSlice s) (myCurrentRAM s) (myRAMSlice s)
     v (myBankLocked s) (myBankChanged s) (pages s).
Definition set_myBankLocked (v : bool) (s : t) : t :=
  mk (mySize s) (myImage s) (myRAM s) (myCurrentSlice s) (myCurrentRAM s) (myRAMSlice s)
     (myStartBank s) v (myBankChanged s) (pages s).
Definition set_myBankChanged (v : bool) (s : t) : t :=
  mk (mySize s) (myImage s) (myRAM s) (myCurrentSlice s) (myCurrentRAM s) (myRAMSlice s)
     (myStartBank s) (myBankLocked s) v (pages s).
Definition set_pages_of (v : PageTable) (s : t) : t :=
  mk (mySize s) (myImage s) (myRAM s) (myCurrentSlice s) (myCurrentRAM s) (myRAMSlice s)
     (myStartBank s) (myBankLocked s) (myBankChanged s) v.

(** A request issued by the hot-spot decoder of a concrete scheme. *)
Inductive request : Type :=
| SwitchBank (slice : Z)        (* bank(slice) *)
| SwitchRAM (bank : Z).         (* bankRAM(bank) *)

Section Scheme.

(** [checkSwitchBank] is pure virtual in this class; the concrete schemes
    (E7 and E78K, not among the sources) decode the hot spots and call
    [bank] or [bankRAM].  The decoding is a parameter. *)
Variable hotspot : Z -> option request.

(** [Cartridge::peekRAM(dest, address)] of the absent base class: from
    [bankLocked()], the byte stored at [dest] and the address it yields
    the byte returned and the byte left at [dest] (a read from a write
    port triggers an unwanted write). *)
Variable peekRAM : bool -> Z -> Z -> Z * Z.

(** CartridgeMNetwork::bankCount *)
Definition bankCount (s : t) : Z := u16 (Z.shiftr (mySize s) 11).

(** CartridgeMNetwork::romSize *)
Definition romSize (s : t) : Z := u32 (bankCount s * BANK_SIZE).

(** CartridgeMNetwork::CartridgeMNetwork; the arrays are not initialized
    by the constructor and start out zeroed in the model. *)
Definition CartridgeMNetwork (size : Z) : t :=
  {| mySize := u32 size; myImage := []; myRAM := replicate (Z.to_nat RAM_SIZE) 0;
     myCurrentSlice := [0; 0]; myCurrentRAM := 0; myRAMSlice := 0;
     myStartBank := 0; myBankLocked := false; myBankChanged := true;
     pages := ∅ |}.

(** CartridgeMNetwork::initialize: a zeroed buffer of [size] bytes
    receives the first [min(romSize(), size)] bytes of the image. *)
Definition initialize (image : list Z) (size : Z) (s : t) : t :=
  let n := Z.to_nat (Z.min (romSize s) (u32 size)) in
  let buffer := take n image ++ replicate (Z.to_nat (u32 size) - n) 0 in
  set_myRAMSlice (u32 (bankCount s - 1)) (set_myImage buffer s).

(** The page descriptor CartridgeMNetwork::setAccess installs at [addr];
    the loop-carried [access] is rebuilt for every page in each field the
    loop assigns. *)
Definition accessFor (directOffset : Z) (directData : Backing)
    (codeOffset : Z) (ty : PageAccessType) (addrMask : Z) (addr : Z) : PageAccess :=
  let access := newPageAccess ty in
  let access :=
    match ty with
    | READ => set_directPeekBase
                (Some (directData, directOffset + Z.land addr addrMask)) access
    | WRITE => set_directPokeBase None access
    | READWRITE => access
    end in
  set_codeAccessBase (Some (codeOffset + Z.land addr addrMask)) access.

(** CartridgeMNetwork::setAccess *)
Definition setAccess (addrFrom size directOffset : Z) (directData : Backing)
    (codeOffset : Z) (ty : PageAccessType) (addrMask : Z) (pt : PageTable) : PageTable :=
  let addrFrom := u16 addrFrom in
  let size := u16 size in
  let addrMask := if u16 addrMask =? 0 then u16 (size - 1) else u16 addrMask in
  set_pages (accessFor (u16 directOffset) directData (u16 codeOffset) ty addrMask)
            addrFrom (addrFrom + size) pt.

(** CartridgeMNetwork::bankRAM *)
Definition bankRAM (bank : Z) (s : t) : t :=
  let bank := u16 bank in
  if myBankLocked s then s
  else
    let s := set_myCurrentRAM bank s in
    let offset := u16 (Z.shiftl bank 8) in
    let pt := setAccess 0x1800 0x100 (1024 + offset) RamData
                        (romSize s + BANK_SIZE / 2) WRITE 0 (pages s) in
    let pt := setAccess 0x1900 0x100 (1024 + offset) RamData
                        (romSize s + BANK_SIZE / 2) READ 0 pt in
    set_myBankChanged true (set_pages_of pt s).

(** CartridgeMNetwork::bank *)
Definition bank (slice : Z) (s : t) : bool * t :=
  let slice := u16 slice in
  if myBankLocked s then (false, s)
  else
    let s := set_myCurrentSlice (wr (myCurrentSlice s) 0 slice) s in
    let pt :=
      if negb (slice =? myRAMSlice s) then
        let offset := u16 (Z.shiftl slice 11) in
        setAccess 0x1000 BANK_SIZE offset ImageData offset READ 0 (pages s)
      else
        let pt := setAccess 0x1000 (BANK_SIZE / 2) 0 RamData (romSize s) WRITE 0 (pages s) in
        setAccess (0x1000 + BANK_SIZE / 2) (BANK_SIZE / 2) 0 RamData (romSize s) READ 0 pt in
    (true, set_myBankChanged true (set_pages_of pt s)).

(** The virtual [checkSwitchBank], through the decoder of the scheme. *)
Definition checkSwitchBank (address : Z) (s : t) : t :=
  match hotspot address with
  | Some (SwitchBank slice) => snd (bank slice s)
  | Some (SwitchRAM b) => bankRAM b s
  | None => s
  end.

(** CartridgeMNetwork::install, into a System whose page table is [pt]. *)
Definition install (pt : PageTable) (s : t) : t :=
  let access := set_codeAccessBase (Some 0x1fc0) (newPageAccess READ) in
  let pt := set_pages (fun _ => access) (Z.land 0x1FE0 (Z.lnot PAGE_MASK)) 0x2000 pt in
  let pt := setAccess 0x1A00 (Z.land 0x1FE0 (Z.lnot PAGE_MASK - 0x1A00))
                      (myRAMSlice s * BANK_SIZE) ImageData
                      (myRAMSlice s * BANK_SIZE) READ (BANK_SIZE - 1) pt in
  let s := set_pages_of pt s in
  let s := set_myCurrentSlice (wr (myCurrentSlice s) 1 (u16 (myRAMSlice s))) s in
  let s := bankRAM 0 s in
  snd (bank (myStartBank s) s).

(** CartridgeMNetwork::getBank *)
Definition getBank (addr : Z) (s : t) : Z :=
  rd (myCurrentSlice s) (Z.shiftr (Z.land (u16 addr) 0xFFF) 11).

(** [peekRAM(myRAM[i], address)] *)
Definition peekRAM_at (i : Z) (address : Z) (s : t) : Z * t :=
  let '(value, stored) := peekRAM (myBankLocked s) (rd (myRAM s) i) address in
  (value, set_myRAM (wr (myRAM s) i stored) s).

(** [pokeRAM(myRAM[i], address, value)]: the base-class helper stores the
    value at the destination. *)
Definition pokeRAM_at (i : Z) (value : Z) (s : t) : t :=
  set_myRAM (wr (myRAM s) i value) s.

(** CartridgeMNetwork::peek *)
Definition peek (address : Z) (s : t) : Z * t :=
  let peekAddress := u16 address in
  let address := Z.land (u16 address) 0x0FFF in
  let s := checkSwitchBank address s in
  if (rd (myCurrentSlice s) 0 =? myRAMSlice s) && (address <? BANK_SIZE / 2) then
    peekRAM_at (Z.land address (BANK_SIZE / 2 - 1)) peekAddress s
  else if (0x0800 <=? address) && (address <=? 0x08FF) then
    peekRAM_at (1024 + Z.shiftl (myCurrentRAM s) 8 + Z.land address 0x00FF) peekAddress s
  else
    (rd (myImage s) (Z.shiftl (rd (myCurrentSlice s) (Z.shiftr address 11)) 11
                     + Z.land address (BANK_SIZE - 1)), s).

(** CartridgeMNetwork::poke *)
Definition poke (address value : Z) (s : t) : bool * t :=
  let value := u8 value in
  let address := Z.land (u16 address) 0x0FFF in
  let s := checkSwitchBank address s in
  if (rd (myCurrentSlice s) 0 =? myRAMSlice s) && (address <? BANK_SIZE / 2) then
    (true, pokeRAM_at (Z.land address (BANK_SIZE / 2 - 1)) value s)
  else if (0x0800 <=? address) && (address <=? 0x08FF) then
    (true, pokeRAM_at (1024 + Z.shiftl (myCurrentRAM s) 8 + Z.land address 0x00FF) value s)
  else
    (false, s).

(** CartridgeMNetwork::patch *)
Definition patch (address value : Z) (s : t) : bool * t :=
  let value := u8 value in
  let address := Z.land (u16 address) 0x0FFF in
  let s :=
    if address <? 0x0800 then
      if rd (myCurrentSlice s) 0 =? myRAMSlice s
      then set_myRAM (wr (myRAM s) (Z.land address 0x03FF) value) s
      else set_myImage (wr (myImage s) (Z.shiftl (rd (myCurrentSlice s) 0) 11
                                        + Z.land address (BANK_SIZE - 1)) value) s
    else if address <? 0x0900 then
      set_myRAM (wr (myRAM s) (1024 + Z.shiftl (myCurrentRAM s) 8
                               + Z.land address 0x00FF) value) s
    else
      set_myImage (wr (myImage s) (Z.shiftl (rd (myCurrentSlice s) (Z.shiftr address 11)) 11
                                   + Z.land address (BANK_SIZE - 1)) value) s in
  (true, set_myBankChanged true s).

(** CartridgeMNetwork::reset.  The base-class helpers draw the initial RAM
    contents, the RAM bank and the start bank from the settings and the
    random generator; the values drawn are arguments. *)
Definition reset (ram : list Z) (ramBank startBank : Z) (s : t) : t :=
  let s := set_myRAM ram s in
  let s := set_myStartBank startBank s in
  let s := bankRAM ramBank s in
  let s := snd (bank (myStartBank s) s) in
  set_myBankChanged true s.

(** CartridgeMNetwork::save *)
Definition save (s : t) : Serializer.stream :=
  [Serializer.ShortArray (myCurrentSlice s);
   Serializer.Short (myCurrentRAM s);
   Serializer.ByteArray (myRAM s)].

(** CartridgeMNetwork::load; an exception leaves the members read so far
    in place and makes [load] return false. *)
Definition load (st : Serializer.stream) (s : t) : bool * t :=
  match Serializer.getShortArray NUM_SEGMENTS st with
  | Ret (slices, st) =>
      let s := set_myCurrentSlice slices s in
      match Serializer.getShort st with
      | Ret (ram, st) =>
          let s := set_myCurrentRAM ram s in
          match Serializer.getByteArray RAM_SIZE st with
          | Ret (bytes, _) =>
              let s := set_myRAM bytes s in
              let s := bankRAM (myCurrentRAM s) s in
              let s := snd (bank (rd (myCurrentSlice s) 0) s) in
              (true, s)
          | _ => (false, s)
          end
      | _ => (false, s)
      end
  | _ => (false, s)
  end.

(** **** Sequences of operations *)

Inductive op : Type :=
| OpBank (slice : Z)
| OpBankRAM (bank : Z)
| OpPeek (address : Z)
| OpPoke (address value : Z)
| OpLock (locked : bool).

Definition run_op (o : op) (s : t) : t :=
  match o with
  | OpBank slice => snd (bank slice s)
  | OpBankRAM b => bankRAM b s
  | OpPeek address => snd (peek address s)
  | OpPoke address value => snd (poke address value s)
  | OpLock b => set_myBankLocked b s
  end.

Definition run (ops : list op) (s : t) : t := foldl (fun s o => run_op o s) s ops.

(** **** The pages each operation writes *)

Definition addrMaskFor (size addrMask : Z) : Z :=
  if u16 addrMask =? 0 then u16 (u16 size - 1) else u16 addrMask.

Lemma lookup_setAccess pa n addrFrom size directOffset directData codeOffset ty addrMask pt p :
  u16 addrFrom = PAGE_SIZE * pa -> u16 size = PAGE_SIZE * n ->
  0 <= pa -> 0 <= n -> pa + n <= 1024 ->
  setAccess addrFrom size directOffset directData codeOffset ty addrMask pt !! p
  = if decide (pa <= p < pa + n)
    then Some (accessFor (u16 directOffset) directData (u16 codeOffset) ty
                         (addrMaskFor size addrMask) (PAGE_SIZE * p))
    else pt !! p.
Proof.
  intros Ea Es Hpa Hn Hb. unfold setAccess, addrMaskFor. rewrite Ea, Es.
  replace (PAGE_SIZE * pa + PAGE_SIZE * n) with (PAGE_SIZE * (pa + n)) by (unfold PAGE_SIZE; lia).
  rewrite lookup_set_pages by lia. reflexivity.
Qed.

(** [bankRAM] writes the pages of 0x1800-0x19FF only. *)
Lemma bankRAM_pages b s p :
  ~ (96 <= p < 104) -> pages (bankRAM b s) !! p = pages s !! p.
Proof.
  intros Hp. unfold bankRAM. destruct (myBankLocked s); [reflexivity|].
  cbn [pages set_myBankChanged set_pages_of].
  rewrite (lookup_setAccess 100 4) by (reflexivity || lia).
  case_decide; [lia|].
  rewrite (lookup_setAccess 96 4) by (reflexivity || lia).
  case_decide; [lia|]. reflexivity.
Qed.

(** [bank] writes the pages of 0x1000-0x17FF only. *)
Lemma bank_pages slice s p :
  ~ (64 <= p < 96) -> pages (snd (bank slice s)) !! p = pages s !! p.
Proof.
  intros Hp. unfold bank. destruct (myBankLocked s); [reflexivity|].
  cbn [snd pages set_myBankChanged set_pages_of set_myCurrentSlice myRAMSlice].
  destruct (negb _).
  - rewrite (lookup_setAccess 64 32) by (reflexivity || lia).
    case_decide; [lia|]. reflexivity.
  - rewrite (lookup_setAccess 80 16) by (reflexivity || lia).
    case_decide; [lia|].
    rewrite (lookup_setAccess 64 16) by (reflexivity || lia).
    case_decide; [lia|]. reflexivity.
Qed.

(** Members left alone by the operations. *)
Definition same_cartridge (s s' : t) : Prop :=
  mySize s' = mySize s /\ myImage s' = myImage s /\ myRAMSlice s' = myRAMSlice s /\
  rd (myCurrentSlice s') 1 = rd (myCurrentSlice s) 1.

Lemma rd_wr_0_1 a v : rd (wr a 0 v) 1 = rd a 1.
Proof. unfold rd, wr. cbn. rewrite list_lookup_insert_ne by lia. reflexivity. Qed.

Lemma same_cartridge_refl s : same_cartridge s s.
Proof. repeat split. Qed.

Lemma same_cartridge_trans s1 s2 s3 :
  same_cartridge s1 s2 -> same_cartridge s2 s3 -> same_cartridge s1 s3.
Proof. unfold same_cartridge. intros (?&?&?&?) (?&?&?&?). repeat split; congruence. Qed.

Lemma bank_same slice s : same_cartridge s (snd (bank slice s)).
Proof.
  unfold bank. destruct (myBankLocked s); [apply same_cartridge_refl|].
  repeat split. cbn. apply rd_wr_0_1.
Qed.

Lemma bankRAM_same b s : same_cartridge s (bankRAM b s).
Proof.
  unfold bankRAM. destruct (myBankLocked s); [apply same_cartridge_refl|]. repeat split.
Qed.

Lemma checkSwitchBank_same address s : same_cartridge s (checkSwitchBank address s).
Proof.
  unfold checkSwitchBank. destruct (hotspot address) as [[slice|b]|];
    auto using bank_same, bankRAM_same, same_cartridge_refl.
Qed.

Lemma checkSwitchBank_pages address s p :
  ~ (64 <= p < 104) -> pages (checkSwitchBank address s) !! p = pages s !! p.
Proof.
  intros Hp. unfold checkSwitchBank. destruct (hotspot address) as [[slice|b]|].
  - apply bank_pages. lia.
  - apply bankRAM_pages. lia.
  - reflexivity.
Qed.

Lemma peekRAM_at_same i address s : same_cartridge s (snd (peekRAM_at i address s)).
Proof. unfold peekRAM_at. destruct (peekRAM _ _ _). repeat split. Qed.

Lemma peekRAM_at_pages i address s : pages (snd (peekRAM_at i address s)) = pages s.
Proof. unfold peekRAM_at. destruct (peekRAM _ _ _). reflexivity. Qed.

Lemma run_op_same o s : same_cartridge s (run_op o s).
Proof.
  destruct o as [slice|b|address|address value|l]; cbn [run_op].
  - apply bank_same.
  - apply bankRAM_same.
  - unfold peek. eapply same_cartridge_trans; [apply checkSwitchBank_same|].
    repeat case_match; cbn [snd]; auto using peekRAM_at_same, same_cartridge_refl.
  - unfold poke. eapply same_cartridge_trans; [apply checkSwitchBank_same|].
    repeat case_match; cbn [snd]; repeat split.
  - repeat split.
Qed.

Lemma run_op_pages o s p :
  ~ (64 <= p < 104) -> pages (run_op o s) !! p = pages s !! p.
Proof.
  intros Hp. destruct o as [slice|b|address|address value|l]; cbn [run_op].
  - apply bank_pages. lia.
  - apply bankRAM_pages. lia.
  - unfold peek. repeat case_match; cbn [snd];
      rewrite ?peekRAM_at_pages; apply checkSwitchBank_pages; assumption.
  - unfold poke. repeat case_match; cbn [snd pages pokeRAM_at set_myRAM];
      apply checkSwitchBank_pages; assumption.
  - reflexivity.
Qed.

Lemma run_same ops : forall s, same_cartridge s (run ops s).
Proof.
  induction ops as [|o ops IH]; intros s; [apply same_cartridge_refl|].
  cbn [run foldl]. eapply same_cartridge_trans; [apply run_op_same|apply IH].
Qed.

Lemma run_pages ops p : ~ (64 <= p < 104) -> forall s, pages (run ops s) !! p = pages s !! p.
Proof.
  intros Hp. induction ops as [|o ops IH]; intros s; [reflexivity|].
  cbn [run foldl]. fold (run ops (run_op o s)). rewrite IH. apply run_op_pages, Hp.
Qed.

(** **** The state installed for an image of 2K to 64K *)

Definition installed (image : list Z) (size : Z) (pt : PageTable) : t :=
  install pt (initialize image size (CartridgeMNetwork size)).

Lemma shiftr11_range size :
  2048 <= size <= 65536 -> 1 <= Z.shiftr size 11 <= 32.
Proof.
  intros H. rewrite Z.shiftr_div_pow2 by lia. change (2 ^ 11) with 2048.
  split.
  - apply Z.div_le_lower_bound; lia.
  - apply Z.div_le_upper_bound; lia.
Qed.

Lemma installed_facts image size pt :
  2048 <= size <= 65536 ->
  let s0 := installed image size pt in
  mySize s0 = size /\
  myRAMSlice s0 = Z.shiftr size 11 - 1 /\
  rd (myCurrentSlice s0) 1 = Z.shiftr size 11 - 1 /\
  myImage s0 = myImage (initialize image size (CartridgeMNetwork size)).
Proof.
  intros H s0. pose proof (shiftr11_range size H) as Hn.
  assert (Hsz : u32 size = size) by (unfold u32; apply Z.mod_small; lia).
  assert (Hbc : bankCount (CartridgeMNetwork size) = Z.shiftr size 11).
  { unfold bankCount. cbn [mySize CartridgeMNetwork]. rewrite Hsz.
    unfold u16. apply Z.mod_small. lia. }
  set (c := initialize image size (CartridgeMNetwork size)).
  assert (Hc : mySize c = size /\ myRAMSlice c = Z.shiftr size 11 - 1 /\
               myCurrentSlice c = [0; 0]).
  { unfold c, initialize. cbn. rewrite Hbc, Hsz. repeat split.
    unfold u32. apply Z.mod_small. lia. }
  destruct Hc as (Hc1 & Hc2 & Hc3).
  unfold s0, installed. fold c. clearbody c. clear s0. unfold install.
  match goal with |- context [snd (bank ?x ?y)] => set (s2 := y) end.
  destruct (bank_same (myStartBank s2) s2) as (E1 & E2 & E3 & E4).
  rewrite E1, E2, E3, E4. unfold s2.
  match goal with |- context [bankRAM 0 ?y] => set (s1 := y) end.
  destruct (bankRAM_same 0 s1) as (F1 & F2 & F3 & F4).
  rewrite F1, F2, F3, F4. unfold s1.
  cbn [mySize myImage myRAMSlice myCurrentSlice set_myCurrentSlice set_pages_of].
  rewrite Hc1, Hc2, Hc3.
  repeat split. unfold u16. cbn. apply Z.mod_small. lia.
Qed.

Lemma installed_upper_pages image size pt p :
  2048 <= size <= 65536 -> 104 <= p < 127 ->
  let last := Z.shiftr size 11 - 1 in
  pages (installed image size pt) !! p
  = Some (accessFor (last * 2048) ImageData (last * 2048) READ 0x7FF (PAGE_SIZE * p)).
Proof.
  intros H Hp last. pose proof (shiftr11_range size H) as Hn.
  unfold installed, install.
  rewrite bank_pages, bankRAM_pages by lia.
  cbn [pages set_myCurrentSlice set_pages_of].
  rewrite (lookup_setAccess 104 23) by (reflexivity || lia).
  case_decide; [|lia].
  assert (Hsl : myRAMSlice (initialize image size (CartridgeMNetwork size)) = last).
  { unfold initialize, bankCount. cbn.
    assert (Hsz : u32 size = size) by (unfold u32; apply Z.mod_small; lia).
    rewrite Hsz. unfold u16 at 1. rewrite (Z.mod_small (Z.shiftr size 11)) by lia.
    unfold u32. apply Z.mod_small. unfold last. lia. }
  rewrite Hsl. unfold BANK_SIZE.
  assert (Hoff : u16 (last * 2048) = last * 2048).
  { unfold u16. apply Z.mod_small. unfold last. lia. }
  rewrite Hoff. reflexivity.
Qed.

Lemma land_0FFF_range x : 0 <= Z.land x 0x0FFF <= 0x0FFF.
Proof.
  change 0x0FFF with (Z.ones 12). rewrite Z.land_ones by lia.
  pose proof (Z.mod_pos_bound x (2 ^ 12) ltac:(lia)). change (Z.ones 12) with (2 ^ 12 - 1). lia.
Qed.

Lemma upper_half_segment a : 0x0800 <= a <= 0x0FFF -> Z.shiftr a 11 = 1.
Proof.
  intros H. rewrite Z.shiftr_div_pow2 by lia. change (2 ^ 11) with 2048.
  symmetry. apply (Z.div_unique a 2048 1 (a - 2048)); lia.
Qed.

(** X25 (C8): for an M-Network cartridge with an image of 2K to 64K, after
    install and any sequence of bank, bankRAM, peek and poke operations
    (and of locking and unlocking), the slice recorded for segment 1 is
    bankCount() - 1, getBank reports it for every address of the upper 2K,
    the pages of 0x1A00-0x1FBF still point into the last slice of the
    image, and peek above the RAM window reads from that slice.  A bank
    switch changes the record of segment 0 and the pages of 0x1000-0x17FF
    only. *)
Theorem upper_segment_always_last_slice
    (image : list Z) (size : Z) (pt0 : PageTable) (ops : list op) :
  2048 <= size <= 65536 ->
  let s0 := installed image size pt0 in
  let s := run ops s0 in
  let last := bankCount s - 1 in
  bankCount s = Z.shiftr size 11 /\
  rd (myCurrentSlice s) 1 = last /\
  (forall addr, 0x0800 <= Z.land (u16 addr) 0x0FFF -> getBank addr s = last) /\
  (forall addr, 0x0900 <= Z.land (u16 addr) 0x0FFF ->
     fst (peek addr s)
     = rd (myImage s0) (Z.shiftl last 11 + Z.land (Z.land (u16 addr) 0x0FFF) 0x7FF)) /\
  (forall p, 104 <= p < 127 ->
     pages s !! p
     = Some (accessFor (last * 2048) ImageData (last * 2048) READ 0x7FF (PAGE_SIZE * p))) /\
  (forall slice s1,
     rd (myCurrentSlice (snd (bank slice s1))) 1 = rd (myCurrentSlice s1) 1 /\
     forall p, ~ (64 <= p < 96) -> pages (snd (bank slice s1)) !! p = pages s1 !! p).
Proof.
  intros H s0 s last. pose proof (shiftr11_range size H) as Hn.
  destruct (installed_facts image size pt0 H) as (I1 & I2 & I3 & I4).
  fold s0 in I1, I2, I3, I4.
  destruct (run_same ops s0) as (R1 & R2 & R3 & R4). fold s in R1, R2, R3, R4.
  assert (Hbc : bankCount s = Z.shiftr size 11).
  { unfold bankCount. rewrite R1, I1. unfold u16. apply Z.mod_small. lia. }
  assert (Hlast : last = Z.shiftr size 11 - 1) by (unfold last; lia).
  assert (Hs1 : rd (myCurrentSlice s) 1 = last) by congruence.
  split; [exact Hbc|]. split; [exact Hs1|].
  split.
  { intros addr Ha. unfold getBank.
    rewrite upper_half_segment; [exact Hs1|].
    pose proof (land_0FFF_range (u16 addr)). lia. }
  split.
  { intros addr Ha. pose proof (land_0FFF_range (u16 addr)) as Hr.
    unfold peek.
    set (a := Z.land (u16 addr) 0x0FFF) in *.
    destruct (checkSwitchBank_same a s) as (C1 & C2 & C3 & C4).
    set (s' := checkSwitchBank a s) in *.
    destruct (Z.ltb_spec a (BANK_SIZE / 2)) as [Hlt|_].
    { change (BANK_SIZE / 2) with 1024 in Hlt. lia. }
    rewrite andb_false_r.
    destruct (Z.leb_spec a 0x08FF) as [Hle|_]; [lia|].
    rewrite andb_false_r. cbn [fst].
    rewrite upper_half_segment by lia.
    rewrite C2, C4, R2, Hs1. reflexivity. }
  split.
  { intros p Hp. unfold s. rewrite run_pages by lia.
    rewrite Hlast. apply installed_upper_pages; assumption. }
  intros slice s1. split.
  - apply bank_same.
  - intros p Hp. apply bank_pages, Hp.
Qed.

(** **** Bank switches under lock, and what poke reports *)

Lemma bank_locked slice s : myBankLocked s = true -> bank slice s = (false, s).
Proof. intros H. unfold bank. rewrite H. reflexivity. Qed.

Lemma bankRAM_locked b s : myBankLocked s = true -> bankRAM b s = s.
Proof. intros H. unfold bankRAM. rewrite H. reflexivity. Qed.


(** **** Save and load: the pages a state should have *)

(** The descriptor of page [p] of the first segment (0x1000-0x17FF). *)
Definition seg0Access (s : t) (p : Z) : PageAccess :=
  let slice := rd (myCurrentSlice s) 0 in
  if negb (slice =? myRAMSlice s) then
    accessFor (u16 (u16 (Z.shiftl slice 11))) ImageData (u16 (u16 (Z.shiftl slice 11)))
              READ (addrMaskFor BANK_SIZE 0) (PAGE_SIZE * p)
  else if p <? 80 then
    accessFor (u16 0) RamData (u16 (romSize s)) WRITE
              (addrMaskFor (BANK_SIZE / 2) 0) (PAGE_SIZE * p)
  else
    accessFor (u16 0) RamData (u16 (romSize s)) READ
              (addrMaskFor (BANK_SIZE / 2) 0) (PAGE_SIZE * p).

(** The descriptor of page [p] of the RAM window (0x1800-0x19FF). *)
Definition ramAccess (s : t) (p : Z) : PageAccess :=
  let offset := u16 (Z.shiftl (myCurrentRAM s) 8) in
  accessFor (u16 (1024 + offset)) RamData (u16 (romSize s + BANK_SIZE / 2))
            (if p <? 100 then WRITE else READ) (addrMaskFor 0x100 0) (PAGE_SIZE * p).

Definition seg0_ok (s : t) : Prop :=
  forall p, 64 <= p < 96 -> pages s !! p = Some (seg0Access s p).

Definition ram_ok (s : t) : Prop :=
  forall p, 96 <= p < 104 -> pages s !! p = Some (ramAccess s p).

(** What no operation after install changes. *)
Definition frame (s0 s : t) : Prop :=
  mySize s = mySize s0 /\ myRAMSlice s = myRAMSlice s0 /\
  forall p, ~ (64 <= p < 104) -> pages s !! p = pages s0 !! p.

Definition registers_ok (s : t) : Prop :=
  length (myCurrentSlice s) = 2%nat /\ length (myRAM s) = Z.to_nat RAM_SIZE /\
  0 <= rd (myCurrentSlice s) 0 < 65536 /\ 0 <= myCurrentRAM s < 65536.

Definition Inv (s0 s : t) : Prop :=
  frame s0 s /\ registers_ok s /\ seg0_ok s /\ ram_ok s.

Lemma u16_range x : 0 <= u16 x < 65536.
Proof. unfold u16. apply Z.mod_pos_bound. lia. Qed.

Lemma u16_small x : 0 <= x < 65536 -> u16 x = x.
Proof. intros. unfold u16. apply Z.mod_small. assumption. Qed.

Lemma rd_wr_0 a v : (0 < length a)%nat -> rd (wr a 0 v) 0 = v.
Proof. intros H. apply rd_wr_eq. lia. Qed.

Lemma bank_unlocked slice s0 s :
  myBankLocked s = false -> frame s0 s ->
  length (myCurrentSlice s) = 2%nat -> length (myRAM s) = Z.to_nat RAM_SIZE ->
  0 <= myCurrentRAM s < 65536 ->
  let s' := snd (bank slice s) in
  frame s0 s' /\ registers_ok s' /\ seg0_ok s' /\ (ram_ok s -> ram_ok s') /\
  myCurrentSlice s' = wr (myCurrentSlice s) 0 (u16 slice) /\
  myCurrentRAM s' = myCurrentRAM s /\ myRAM s' = myRAM s /\
  myBankLocked s' = false.
Proof.
  intros Hl (F1 & F2 & F3) L1 L2 Hr s'.
  assert (Hp : forall p, ~ (64 <= p < 96) -> pages s' !! p = pages s !! p).
  { intros p Hp. apply bank_pages, Hp. }
  unfold s', bank in *. rewrite Hl in *. cbn [snd] in *.
  assert (Hs0 : rd (wr (myCurrentSlice s) 0 (u16 slice)) 0 = u16 slice)
    by (apply rd_wr_0; lia).
  split; [|split; [|split; [|split]]].
  - split; [exact F1|]. split; [exact F2|]. intros p Hp'. rewrite Hp by lia. apply F3, Hp'.
  - unfold registers_ok.
    cbn [myCurrentSlice myRAM myCurrentRAM set_myBankChanged set_pages_of set_myCurrentSlice].
    rewrite length_wr, Hs0. pose proof (u16_range slice). auto.
  - intros p Hp'. unfold seg0Access.
    cbn [pages set_myBankChanged set_pages_of myCurrentSlice myRAMSlice set_myCurrentSlice].
    rewrite Hs0.
    change (romSize (set_myBankChanged true _)) with (romSize s).
    change (romSize (set_myCurrentSlice _ s)) with (romSize s).
    destruct (negb (u16 slice =? myRAMSlice s)).
    + rewrite (lookup_setAccess 64 32) by (reflexivity || lia).
      case_decide; [reflexivity|lia].
    + rewrite (lookup_setAccess 80 16) by (reflexivity || lia).
      case_decide.
      * destruct (Z.ltb_spec p 80); [lia|]. reflexivity.
      * rewrite (lookup_setAccess 64 16) by (reflexivity || lia).
        case_decide; [|lia]. destruct (Z.ltb_spec p 80); [|lia]. reflexivity.
  - intros Hram p Hp'. rewrite Hp by lia. rewrite Hram by assumption. reflexivity.
  - repeat split; try reflexivity; exact Hl.
Qed.

Lemma bankRAM_unlocked b s0 s :
  myBankLocked s = false -> frame s0 s ->
  let s' := bankRAM b s in
  frame s0 s' /\ ram_ok s' /\ (seg0_ok s -> seg0_ok s') /\
  myCurrentSlice s' = myCurrentSlice s /\
  myCurrentRAM s' = u16 b /\ myRAM s' = myRAM s /\
  myBankLocked s' = false.
Proof.
  intros Hl (F1 & F2 & F3) s'.
  assert (Hp : forall p, ~ (96 <= p < 104) -> pages s' !! p = pages s !! p).
  { intros p Hp. apply bankRAM_pages, Hp. }
  unfold s', bankRAM in *. rewrite Hl in *.
  split; [|split; [|split]].
  - split; [exact F1|]. split; [exact F2|]. intros p Hp'. rewrite Hp by lia. apply F3, Hp'.
  - intros p Hp'. unfold ramAccess.
    cbn [pages set_myBankChanged set_pages_of myCurrentRAM set_myCurrentRAM].
    change (romSize (set_myBankChanged true _)) with (romSize s).
    change (romSize (set_myCurrentRAM (u16 b) s)) with (romSize s).
    rewrite (lookup_setAccess 100 4) by (reflexivity || lia).
    case_decide.
    + destruct (Z.ltb_spec p 100); [lia|]. reflexivity.
    + rewrite (lookup_setAccess 96 4) by (reflexivity || lia).
      case_decide; [|lia]. destruct (Z.ltb_spec p 100); [|lia]. reflexivity.
  - intros Hseg p Hp'. rewrite Hp by lia. rewrite Hseg by assumption. reflexivity.
  - repeat split; try reflexivity; exact Hl.
Qed.

(** The registers, then the pages they determine, make the state. *)
Lemma pages_determined s0 s t :
  frame s0 s -> frame s0 t -> seg0_ok s -> seg0_ok t -> ram_ok s -> ram_ok t ->
  myCurrentSlice t = myCurrentSlice s -> myCurrentRAM t = myCurrentRAM s ->
  pages t = pages s.
Proof.
  intros (S1 & S2 & S3) (T1 & T2 & T3) Hs Ht Rs Rt E1 E2.
  apply map_eq. intros p.
  destruct (decide (64 <= p < 96)) as [H1|H1].
  - rewrite Hs, Ht by assumption. unfold seg0Access, romSize, bankCount.
    rewrite E1, T1, T2, S1, S2. reflexivity.
  - destruct (decide (96 <= p < 104)) as [H2|H2].
    + rewrite Rs, Rt by assumption. unfold ramAccess, romSize, bankCount.
      rewrite E2, T1, S1. reflexivity.
    + rewrite S3, T3 by lia. reflexivity.
Qed.

Lemma set_registers_id s :
  set_myRAM (myRAM s) (set_myCurrentRAM (myCurrentRAM s)
    (set_myCurrentSlice (myCurrentSlice s) s)) = s.
Proof. destruct s. reflexivity. Qed.

(** States reachable from the installed state [s0] through the interface
    of the cartridge; a state is loaded with the cartridge unlocked, as
    the debugger does. *)
Inductive reach (s0 : t) : t -> Prop :=
| reach_install : reach s0 s0
| reach_peek address s : reach s0 s -> reach s0 (snd (peek address s))
| reach_poke address value s : reach s0 s -> reach s0 (snd (poke address value s))
| reach_bank slice s : reach s0 s -> reach s0 (snd (bank slice s))
| reach_bankRAM b s : reach s0 s -> reach s0 (bankRAM b s)
| reach_reset ram ramBank startBank s :
    reach s0 s -> length ram = Z.to_nat RAM_SIZE ->
    reach s0 (reset ram ramBank startBank s)
| reach_lock b s : reach s0 s -> reach s0 (set_myBankLocked b s)
| reach_load s t :
    reach s0 s -> reach s0 t -> myBankLocked t = false ->
    reach s0 (snd (load (save s) t)).

Lemma bank_inv slice s0 s : Inv s0 s -> Inv s0 (snd (bank slice s)).
Proof.
  intros H. pose proof H as (F & (L1 & L2 & R0 & R1) & Hseg & Hram).
  destruct (myBankLocked s) eqn:Hl.
  - rewrite bank_locked by assumption. exact H.
  - destruct (bank_unlocked slice s0 s Hl F L1 L2 R1) as (F' & R' & S' & Ram' & _).
    unfold Inv. auto.
Qed.

Lemma bankRAM_inv b s0 s : Inv s0 s -> Inv s0 (bankRAM b s).
Proof.
  intros H. pose proof H as (F & (L1 & L2 & R0 & R1) & Hseg & Hram).
  destruct (myBankLocked s) eqn:Hl.
  - rewrite bankRAM_locked by assumption. exact H.
  - destruct (bankRAM_unlocked b s0 s Hl F) as (F' & Ram' & S' & E1 & E2 & E3 & _).
    split; [exact F'|]. split.
    + unfold registers_ok. rewrite E1, E2, E3. pose proof (u16_range b). auto.
    + auto.
Qed.

Lemma checkSwitchBank_inv address s0 s : Inv s0 s -> Inv s0 (checkSwitchBank address s).
Proof.
  intros H. unfold checkSwitchBank. destruct (hotspot address) as [[slice|b]|];
    auto using bank_inv, bankRAM_inv.
Qed.

(** Writing the RAM or the image keeps the invariant. *)
Lemma set_myRAM_inv s0 s i v : Inv s0 s -> Inv s0 (set_myRAM (wr (myRAM s) i v) s).
Proof.
  intros (F & (L1 & L2 & R0 & R1) & Hseg & Hram).
  split; [exact F|]. split; [|split; assumption].
  unfold registers_ok. cbn. rewrite length_wr. auto.
Qed.

Lemma set_myImage_inv s0 s v : Inv s0 s -> Inv s0 (set_myImage v s).
Proof. intros H. exact H. Qed.

Lemma set_myBankChanged_inv s0 s v : Inv s0 s -> Inv s0 (set_myBankChanged v s).
Proof. intros H. exact H. Qed.

Lemma set_myBankLocked_inv s0 s v : Inv s0 s -> Inv s0 (set_myBankLocked v s).
Proof. intros H. exact H. Qed.

(** Re-deriving the pages from the registers, as install, reset and load
    do: [bankRAM] then [bank] on an unlocked cartridge. *)
Lemma rederive slice b s0 x :
  myBankLocked x = false -> frame s0 x ->
  length (myCurrentSlice x) = 2%nat -> length (myRAM x) = Z.to_nat RAM_SIZE ->
  let s' := snd (bank slice (bankRAM b x)) in
  Inv s0 s' /\
  myCurrentSlice s' = wr (myCurrentSlice x) 0 (u16 slice) /\
  myCurrentRAM s' = u16 b /\ myRAM s' = myRAM x /\ myBankLocked s' = false.
Proof.
  intros Hl F L1 L2 s'.
  destruct (bankRAM_unlocked b s0 x Hl F) as (F1 & Ram1 & _ & E1 & E2 & E3 & Hl1).
  destruct (bank_unlocked slice s0 (bankRAM b x) Hl1 F1) as
    (F2 & R2 & S2 & Ram2 & G1 & G2 & G3 & Hl2).
  { rewrite E1. exact L1. }
  { rewrite E3. exact L2. }
  { rewrite E2. apply u16_range. }
  fold s' in F2, R2, S2, Ram2, G1, G2, G3, Hl2.
  split; [unfold Inv; auto|].
  rewrite G1, G2, G3, E1, E2, E3. auto.
Qed.

Lemma installed_inv image size pt :
  Inv (installed image size pt) (installed image size pt).
Proof.
  unfold installed, install.
  match goal with |- Inv ?s _ => set (s0 := s) end.
  match goal with s0 := snd (bank _ (bankRAM 0 ?y)) |- _ => set (x := y) in * end.
  assert (F : frame s0 x).
  { unfold s0. destruct (bank_same (myStartBank (bankRAM 0 x)) (bankRAM 0 x)) as (A1 & _ & A3 & _).
    destruct (bankRAM_same 0 x) as (B1 & _ & B3 & _).
    split; [congruence|]. split; [congruence|].
    intros p Hp. rewrite bank_pages, bankRAM_pages by lia. reflexivity. }
  apply (rederive (myStartBank (bankRAM 0 x)) 0 s0 x); auto.
Qed.

Lemma peek_inv address s0 s : Inv s0 s -> Inv s0 (snd (peek address s)).
Proof.
  intros H. unfold peek.
  pose proof (checkSwitchBank_inv (Z.land (u16 address) 0x0FFF) s0 s H) as H1.
  repeat case_match; cbn [snd]; try exact H1;
    unfold peekRAM_at; destruct (peekRAM _ _ _); cbn [snd]; apply set_myRAM_inv, H1.
Qed.

Lemma poke_inv address value s0 s : Inv s0 s -> Inv s0 (snd (poke address value s)).
Proof.
  intros H. unfold poke.
  pose proof (checkSwitchBank_inv (Z.land (u16 address) 0x0FFF) s0 s H) as H1.
  repeat case_match; cbn [snd]; try exact H1; apply set_myRAM_inv, H1.
Qed.

Lemma reset_inv ram ramBank startBank s0 s :
  length ram = Z.to_nat RAM_SIZE -> Inv s0 s -> Inv s0 (reset ram ramBank startBank s).
Proof.
  intros Hlen H. pose proof H as (F & (L1 & L2 & R0 & R1) & Hseg & Hram).
  unfold reset. apply set_myBankChanged_inv.
  apply bank_inv, bankRAM_inv.
  split; [exact F|]. split; [|split; assumption].
  unfold registers_ok. cbn. auto.
Qed.

Lemma load_save_unfold s t :
  length (myCurrentSlice s) = 2%nat -> length (myRAM s) = Z.to_nat RAM_SIZE ->
  let x := set_myRAM (myRAM s) (set_myCurrentRAM (myCurrentRAM s)
             (set_myCurrentSlice (myCurrentSlice s) t)) in
  load (save s) t
  = (true, snd (bank (rd (myCurrentSlice (bankRAM (myCurrentRAM x) x)) 0)
                     (bankRAM (myCurrentRAM x) x))).
Proof.
  intros L1 L2 x. unfold load, save, Serializer.getShortArray.
  rewrite L1. change (Z.of_nat 2 =? NUM_SEGMENTS) with true. cbv iota beta.
  unfold Serializer.getShort. cbv iota beta. unfold Serializer.getByteArray.
  rewrite L2, Z2Nat.id by (unfold RAM_SIZE; lia). rewrite Z.eqb_refl. reflexivity.
Qed.

(** Loading the state saved at [s] into an unlocked [t] gives a state with
    the registers and the RAM of [s], whose pages are those of [s]. *)
Lemma load_reconstructs s0 s t :
  Inv s0 s -> Inv s0 t -> myBankLocked t = false ->
  exists t',
    load (save s) t = (true, t') /\ Inv s0 t' /\
    myCurrentSlice t' = myCurrentSlice s /\ myCurrentRAM t' = myCurrentRAM s /\
    myRAM t' = myRAM s /\ pages t' = pages s.
Proof.
  intros Hs Ht Hl.
  pose proof Hs as (Fs & (Ls1 & Ls2 & Rs0 & Rs1) & Hsegs & Hrams).
  pose proof Ht as (Ft & (Lt1 & Lt2 & Rt0 & Rt1) & Hsegt & Hramt).
  rewrite load_save_unfold by assumption.
  set (x := set_myRAM (myRAM s) (set_myCurrentRAM (myCurrentRAM s)
              (set_myCurrentSlice (myCurrentSlice s) t))).
  set (r0 := myCurrentRAM x).
  set (sl0 := rd (myCurrentSlice (bankRAM r0 x)) 0).
  destruct (rederive sl0 r0 s0 x) as (I & E1 & E2 & E3 & _); auto.
  eexists. split; [reflexivity|]. split; [exact I|].
  assert (Hsl : myCurrentSlice (snd (bank sl0 (bankRAM r0 x))) = myCurrentSlice s).
  { rewrite E1. unfold sl0.
    destruct (bankRAM_unlocked r0 s0 x Hl Ft) as (_ & _ & _ & B1 & _).
    rewrite B1. cbn [x myCurrentSlice set_myRAM set_myCurrentRAM set_myCurrentSlice].
    rewrite u16_small by assumption. apply wr_same. lia. }
  assert (Hr : myCurrentRAM (snd (bank sl0 (bankRAM r0 x))) = myCurrentRAM s).
  { rewrite E2. unfold r0. cbn. apply u16_small. assumption. }
  split; [exact Hsl|]. split; [exact Hr|]. split; [rewrite E3; reflexivity|].
  destruct I as (F' & _ & S' & R'). eapply pages_determined; eauto.
Qed.

Lemma reach_inv s0 s : Inv s0 s0 -> reach s0 s -> Inv s0 s.
Proof.
  intros H0. induction 1 as [|a s _ IH|a v s _ IH|sl s _ IH|b s _ IH
                            |ram rb sb s _ IH Hlen|b s _ IH|s t _ IHs _ IHt Hl].
  - exact H0.
  - apply peek_inv, IH.
  - apply poke_inv, IH.
  - apply bank_inv, IH.
  - apply bankRAM_inv, IH.
  - apply reset_inv; assumption.
  - exact IH.
  - destruct (load_reconstructs s0 s t IHs IHt Hl) as (t' & E & I & _).
    rewrite E. exact I.
Qed.

Lemma state_eq (a b : t) :
  mySize a = mySize b -> myImage a = myImage b -> myRAM a = myRAM b ->
  myCurrentSlice a = myCurrentSlice b -> myCurrentRAM a = myCurrentRAM b ->
  myRAMSlice a = myRAMSlice b -> myStartBank a = myStartBank b ->
  myBankLocked a = myBankLocked b -> myBankChanged a = myBankChanged b ->
  pages a = pages b -> a = b.
Proof. destruct a, b. cbn. intros. subst. reflexivity. Qed.

Lemma bank_others slice s :
  let s' := snd (bank slice s) in
  myStartBank s' = myStartBank s /\ myBankLocked s' = myBankLocked s /\
  myRAM s' = myRAM s /\ myCurrentRAM s' = myCurrentRAM s /\
  (myBankLocked s = false -> myBankChanged s' = true).
Proof.
  unfold bank. destruct (myBankLocked s) eqn:E; cbn;
    repeat split; auto; discriminate.
Qed.

Lemma bankRAM_others b s :
  let s' := bankRAM b s in
  myStartBank s' = myStartBank s /\ myBankLocked s' = myBankLocked s /\
  myRAM s' = myRAM s /\ myCurrentSlice s' = myCurrentSlice s /\
  (myBankLocked s = false -> myBankChanged s' = true).
Proof.
  unfold bankRAM. destruct (myBankLocked s) eqn:E; cbn;
    repeat split; auto; discriminate.
Qed.

(** Saving and loading on the spot changes nothing but [myBankChanged]. *)
Lemma load_save_same s0 s :
  Inv s0 s ->
  load (save s) s
  = (true, set_myBankChanged (myBankChanged s || negb (myBankLocked s)) s).
Proof.
  intros Hs. pose proof Hs as (Fs & (Ls1 & Ls2 & Rs0 & Rs1) & Hsegs & Hrams).
  destruct (myBankLocked s) eqn:Hl.
  - rewrite load_save_unfold by assumption. rewrite set_registers_id.
    rewrite bankRAM_locked, bank_locked by assumption. cbn [snd negb].
    rewrite orb_false_r. f_equal. destruct s; reflexivity.
  - destruct (load_reconstructs s0 s s Hs Hs Hl) as (t' & E & I & E1 & E2 & E3 & E4).
    rewrite E. f_equal. cbn [negb]. rewrite orb_true_r.
    assert (Hx : t' = snd (load (save s) s)) by (rewrite E; reflexivity).
    rewrite load_save_unfold in Hx by assumption.
    rewrite set_registers_id in Hx. cbn [snd] in Hx.
    destruct (bank_same (rd (myCurrentSlice (bankRAM (myCurrentRAM s) s)) 0)
                        (bankRAM (myCurrentRAM s) s)) as (A1 & A2 & A3 & _).
    destruct (bankRAM_same (myCurrentRAM s) s) as (B1 & B2 & B3 & _).
    destruct (bank_others (rd (myCurrentSlice (bankRAM (myCurrentRAM s) s)) 0)
                          (bankRAM (myCurrentRAM s) s)) as (C1 & C2 & _ & _ & C5).
    destruct (bankRAM_others (myCurrentRAM s) s) as (D1 & D2 & _ & _ & D5).
    rewrite <- Hx in A1, A2, A3, C1, C2, C5.
    apply state_eq; cbn [mySize myImage myRAM myCurrentSlice myCurrentRAM myRAMSlice
                         myStartBank myBankLocked myBankChanged pages set_myBankChanged];
      try congruence.
    apply C5. congruence.
Qed.

(** [peek] does not look at [myBankChanged]. *)
Lemma peek_ignores_changed address v s :
  fst (peek address (set_myBankChanged v s)) = fst (peek address s).
Proof.
  destruct s. unfold peek, checkSwitchBank, bank, bankRAM, peekRAM_at.
  cbn [myBankLocked myCurrentSlice myRAMSlice myCurrentRAM myRAM myImage set_myBankChanged
       set_myCurrentSlice set_myCurrentRAM set_pages_of set_myRAM snd fst].
  destruct (hotspot _) as [[slice|b]|];
    destruct myBankLocked0; cbn; repeat case_match; reflexivity.
Qed.

(** What [peek] leaves behind depends on [myBankChanged] in that flag only. *)
Lemma peek_modulo_changed address v w s :
  set_myBankChanged w (snd (peek address (set_myBankChanged v s)))
  = set_myBankChanged w (snd (peek address s)).
Proof.
  destruct s. unfold peek, checkSwitchBank, bank, bankRAM, peekRAM_at.
  cbn [myBankLocked myCurrentSlice myRAMSlice myCurrentRAM myRAM myImage set_myBankChanged
       set_myCurrentSlice set_myCurrentRAM set_pages_of set_myRAM snd fst].
  destruct (hotspot _) as [[slice|b]|];
    destruct myBankLocked0; cbn; repeat case_match; reflexivity.
Qed.

(** The bytes returned by a sequence of peeks. *)
Fixpoint peeks (addresses : list Z) (s : t) : list Z :=
  match addresses with
  | [] => []
  | address :: rest => fst (peek address s) :: peeks rest (snd (peek address s))
  end.

Lemma peeks_ignore_changed addresses :
  forall v s, peeks addresses (set_myBankChanged v s) = peeks addresses s.
Proof.
  induction addresses as [|a rest IH]; intros v s; [reflexivity|].
  cbn [peeks]. rewrite peek_ignores_changed. f_equal.
  rewrite <- (IH false (snd (peek a (set_myBankChanged v s)))).
  rewrite <- (IH false (snd (peek a s))).
  rewrite peek_modulo_changed. reflexivity.
Qed.

(** **** Further properties of the scheme *)


(** X16.  A hot spot selects the slice of the lower segment.  When the
    cartridge is not locked and the scheme decodes the address as a
    switch to slice [n], a peek and a poke at it both leave [n] (as a
    16-bit number) recorded for the lower 2K, where [getBank] finds it,
    and leave the slice of the upper 2K alone. *)
Theorem hot_spot_selects_lower_slice (address value n : Z) (s : t) :
  hotspot (Z.land (u16 address) 0x0FFF) = Some (SwitchBank n) ->
  myBankLocked s = false -> length (myCurrentSlice s) = 2%nat ->
  let s1 := snd (peek address s) in
  let s2 := snd (poke address value s) in
  getBank 0x1000 s1 = u16 n /\ getBank 0x1800 s1 = getBank 0x1800 s /\
  getBank 0x1000 s2 = u16 n /\ getBank 0x1800 s2 = getBank 0x1800 s.
Proof.
  intros Hh Hl Hlen s1 s2.
  assert (Hc : myCurrentSlice (checkSwitchBank (Z.land (u16 address) 0x0FFF) s)
               = wr (myCurrentSlice s) 0 (u16 n)).
  { unfold checkSwitchBank. rewrite Hh. unfold bank. rewrite Hl. reflexivity. }
  assert (H1 : myCurrentSlice s1 = wr (myCurrentSlice s) 0 (u16 n)).
  { rewrite <- Hc. unfold s1, peek, peekRAM_at. cbv zeta.
    repeat case_match; reflexivity. }
  assert (H2 : myCurrentSlice s2 = wr (myCurrentSlice s) 0 (u16 n)).
  { rewrite <- Hc. unfold s2, poke, pokeRAM_at. cbv zeta.
    repeat case_match; reflexivity. }
  unfold getBank. rewrite H1, H2.
  change (Z.shiftr (Z.land (u16 0x1000) 0xFFF) 11) with 0.
  change (Z.shiftr (Z.land (u16 0x1800) 0xFFF) 11) with 1.
  rewrite rd_wr_0 by lia. rewrite rd_wr_0_1. auto.
Qed.

(** X17.  A patched ROM byte is the byte read.  Patching an address that
    reads from the ROM image (0x1900 and up, or below 0x1800 while a ROM
    slice is selected there) stores the value in the image, and a peek at
    the address, when it is no hot spot, returns that value. *)
Theorem patch_then_peek_rom (address value : Z) (s : t) :
  let a := Z.land (u16 address) 0x0FFF in
  let index := Z.shiftl (rd (myCurrentSlice s) (Z.shiftr a 11)) 11
               + Z.land a (BANK_SIZE - 1) in
  hotspot a = None ->
  0x0900 <= a \/ (a < 0x0800 /\ rd (myCurrentSlice s) 0 <> myRAMSlice s) ->
  0 <= index < Z.of_nat (length (myImage s)) ->
  fst (patch address value s) = true /\
  myImage (snd (patch address value s)) = wr (myImage s) index (u8 value) /\
  fst (peek address (snd (patch address value s))) = u8 value.
Proof.
  intros a index Hh Ha Hi.
  assert (Ea : 0 <= a < 4096).
  { unfold a. change 0x0FFF with (Z.ones 12). rewrite Z.land_ones by lia.
    apply Z.mod_pos_bound. lia. }
  assert (Hseg : a < 0x0800 -> Z.shiftr a 11 = 0).
  { intros H. rewrite Z.shiftr_div_pow2 by lia. apply Z.div_small. lia. }
  assert (Hp : snd (patch address value s)
               = set_myBankChanged true (set_myImage (wr (myImage s) index (u8 value)) s)).
  { unfold patch. fold a. cbv zeta. cbn [snd]. unfold index.
    destruct Ha as [Ha|[Ha Hne]].
    - destruct (Z.ltb_spec a 0x0800); [lia|]. destruct (Z.ltb_spec a 0x0900); [lia|].
      reflexivity.
    - destruct (Z.ltb_spec a 0x0800); [|lia].
      destruct (Z.eqb_spec (rd (myCurrentSlice s) 0) (myRAMSlice s)); [contradiction|].
      rewrite (Hseg Ha). reflexivity. }
  split; [reflexivity|]. rewrite Hp. split; [reflexivity|].
  unfold peek. fold a. cbv zeta. unfold checkSwitchBank. rewrite Hh.
  cbn [myCurrentSlice myRAMSlice myImage set_myBankChanged set_myImage].
  assert (Hc : (rd (myCurrentSlice s) 0 =? myRAMSlice s) && (a <? BANK_SIZE / 2) = false).
  { destruct Ha as [Ha|[Ha Hne]].
    - change (BANK_SIZE / 2) with 1024. destruct (Z.ltb_spec a 1024); [lia|].
      apply andb_false_r.
    - destruct (Z.eqb_spec (rd (myCurrentSlice s) 0) (myRAMSlice s)); [contradiction|].
      reflexivity. }
  rewrite Hc.
  assert (Hw : (0x0800 <=? a) && (a <=? 0x08FF) = false).
  { destruct Ha as [Ha|[Ha Hne]].
    - destruct (Z.leb_spec a 0x08FF); [lia|]. apply andb_false_r.
    - destruct (Z.leb_spec 0x0800 a); [lia|]. reflexivity. }
  rewrite Hw. cbn [fst]. fold index. apply rd_wr_eq, Hi.
Qed.

End Scheme.

Lemma upper_segment_always_last_slice_witness :
  let hotspot := fun a => if a =? 0x0FE2 then Some (SwitchBank 2) else None in
  let peekRAM := fun (_ : bool) (v _ : Z) => (v, v) in
  let s := run hotspot peekRAM [OpBank 1; OpPeek 0x1FE2; OpBankRAM 3; OpPoke 0x1805 9]
               (installed [7; 7; 7] 8192 ∅) in
  rd (myCurrentSlice s) 1 = 3 /\ getBank 0x1C00 s = 3 /\ getBank 0x1000 s = 2.
Proof.
  intros hotspot peekRAM s.
  assert (H : 2048 <= 8192 <= 65536) by lia.
  destruct (upper_segment_always_last_slice hotspot peekRAM [7; 7; 7] 8192 ∅
              [OpBank 1; OpPeek 0x1FE2; OpBankRAM 3; OpPoke 0x1805 9] H)
    as (Hbc & Hs1 & Hgb & _).
  fold s in Hbc, Hs1, Hgb.
  split; [rewrite Hs1, Hbc; reflexivity|].
  split; [rewrite (Hgb 0x1C00), Hbc by (vm_compute; discriminate); reflexivity|].
  reflexivity.
Defined.


Lemma hot_spot_selects_lower_slice_witness :
  let hotspot := fun a => if a =? 0x0FE2 then Some (SwitchBank 2) else None in
  let peekRAM := fun (_ : bool) (v _ : Z) => (v, v) in
  let s := CartridgeMNetwork 8192 in
  getBank 0x1000 (snd (peek hotspot peekRAM 0x1FE2 s)) = 2 /\
  getBank 0x1000 (snd (poke hotspot 0x1FE2 0 s)) = 2.
Proof.
  intros hotspot peekRAM s.
  destruct (hot_spot_selects_lower_slice hotspot peekRAM 0x1FE2 0 2 s)
    as (H1 & _ & H2 & _); [reflexivity|reflexivity|reflexivity|].
  split; [exact H1|exact H2].
Defined.

Lemma patch_then_peek_rom_witness :
  let hotspot := fun a => if a =? 0x0FE2 then Some (SwitchBank 2) else None in
  let peekRAM := fun (_ : bool) (v _ : Z) => (v, v) in
  let s := set_myImage (replicate (Z.to_nat 8192) 0) (CartridgeMNetwork 8192) in
  fst (peek hotspot peekRAM 0x1A00 (snd (patch 0x1A00 0x4C s))) = 0x4C.
Proof.
  intros hotspot peekRAM s.
  destruct (patch_then_peek_rom hotspot peekRAM 0x1A00 0x4C s) as (_ & _ & H).
  - reflexivity.
  - left. vm_compute. discriminate.
  - split; vm_compute; [discriminate|reflexivity].
  - exact H.
Defined.

End MNetwork.

Module DPCPlus.
Import System.

(** *** src/emucore/CartDPCPlus.cxx

    As for the M-Network cartridge, the members of the Cartridge base
    class and the page table of the System are fields of the state.  The
    cycle counter of the System ([mySystem->cycles()]) is an argument of
    the operations that read it. *)

Section Cartridge.

(** The Thumbulator (the emulator of the ARM co-processor) is not among
    the sources: its state is a parameter, and [thumb_run cycles image ram
    th] gives the state and the Harmony RAM it leaves behind, together
    with the message of the [runtime_error] it throws, if any. *)
Variable Thumb : Type.
Variable thumb_run : Z -> list Z -> list Z -> Thumb -> Thumb * list Z * option string.

(** [mySystem->autodetectMode()] *)
Variable autodetectMode : bool.

(** The floating-point step of updateMusicModeDataFetchers: from the
    elapsed cycles and [myFractionalClocks] it gives [wholeClocks] and the
    new [myFractionalClocks]. *)
Variable oscClocks : Z -> Z -> Z * Z.

Record t : Type := mk {
  myImage : list Z;   (* uInt8[32768] *)
  myDPCRAM : list Z;   (* uInt8[8192] *)
  mySize : Z;   (* uInt32 *)
  myFastFetch : bool;
  myLDAimmediate : bool;
  myParameter : list Z;   (* uInt8[8] *)
  myParameterPointer : Z;   (* uInt8 *)
  myTops : list Z;   (* uInt8[8] *)
  myBottoms : list Z;   (* uInt8[8] *)
  myCounters : list Z;   (* uInt16[8] *)
  myFractionalCounters : list Z;   (* uInt32[8] *)
  myFractionalIncrements : list Z;   (* uInt8[8] *)
  myMusicCounters : list Z;   (* uInt32[3] *)
  myMusicFrequencies : list Z;   (* uInt32[3] *)
  myMusicWaveforms : list Z;   (* uInt16[3] *)
  myRandomNumber : Z;   (* uInt32 *)
  myAudioCycles : Z;   (* uInt64 *)
  myARMCycles : Z;   (* uInt64 *)
  myFractionalClocks : Z;   (* double, as its bit pattern *)
  myBankOffset : Z;   (* uInt16 *)
  myFractionalLowMask : Z;   (* uInt32 *)
  myThumbEmulator : Thumb;   (* the ARM emulator *)
  myStartBank : Z;
  myBankLocked : bool;
  myBankChanged : bool;
  pages : PageTable
}.

Definition set_myImage (v : list Z) (s : t) : t :=
  mk v (myDPCRAM s) (mySize s) (myFastFetch s) (myLDAimmediate s) (myParameter s)
    (myParameterPointer s) (myTops s) (myBottoms s) (myCounters s)
    (myFractionalCounters s) (myFractionalIncrements s) (myMusicCounters s)
    (myMusicFrequencies s) (myMusicWaveforms s) (myRandomNumber s) (myAudioCycles s)
    (myARMCycles s) (myFractionalClocks s) (myBankOffset s) (myFractionalLowMask s)
    (myThumbEmulator s) (myStartBank s) (myBankLocked s) (myBankChanged s) (pages s).
Definition set_myDPCRAM (v : list Z) (s : t) : t :=
  mk (myImage s) v (mySize s) (myFastFetch s) (myLDAimmediate s) (myParameter s)
    (myParameterPointer s) (myTops s) (myBottoms s) (myCounters s)
    (myFractionalCounters s) (myFractionalIncrements s) (myMusicCounters s)
    (myMusicFrequencies s) (myMusicWaveforms s) (myRandomNumber s) (myAudioCycles s)
    (myARMCycles s) (myFractionalClocks s) (myBankOffset s) (myFractionalLowMask s)
    (myThumbEmulator s) (myStartBank s) (myBankLocked s) (myBankChanged s) (pages s).
Definition set_mySize (v : Z) (s : t) : t :=
  mk (myImage s) (myDPCRAM s) v (myFastFetch s) (myLDAimmediate s) (myParameter s)
    (myParameterPointer s) (myTops s) (myBottoms s) (myCounters s)
    (myFractionalCounters s) (myFractionalIncrements s) (myMusicCounters s)
    (myMusicFrequencies s) (myMusicWaveforms s) (myRandomNumber s) (myAudioCycles s)
    (myARMCycles s) (myFractionalClocks s) (myBankOffset s) (myFractionalLowMask s)
    (myThumbEmulator s) (myStartBank s) (myBankLocked s) (myBankChanged s) (pages s).
Definition set_myFastFetch (v : bool) (s : t) : t :=
  mk (myImage s) (myDPCRAM s) (mySize s) v (myLDAimmediate s) (myParameter s)
    (myParameterPointer s) (myTops s) (myBottoms s) (myCounters s)
    (myFractionalCounters s) (myFractionalIncrements s) (myMusicCounters s)
    (myMusicFrequencies s) (myMusicWaveforms s) (myRandomNumber s) (myAudioCycles s)
    (myARMCycles s) (myFractionalClocks s) (myBankOffset s) (myFractionalLowMask s)
    (myThumbEmulator s) (myStartBank s) (myBankLocked s) (myBankChanged s) (pages s).
Definition set_myLDAimmediate (v : bool) (s : t) : t :=
  mk (myImage s) (myDPCRAM s) (mySize s) (myFastFetch s) v (myParameter s)
    (myParameterPointer s) (myTops s) (myBottoms s) (myCounters s)
    (myFractionalCounters s) (myFractionalIncrements s) (myMusicCounters s)
    (myMusicFrequencies s) (myMusicWaveforms s) (myRandomNumber s) (myAudioCycles s)
    (myARMCycles s) (myFractionalClocks s) (myBankOffset s) (myFractionalLowMask s)
    (myThumbEmulator s) (myStartBank s) (myBankLocked s) (myBankChanged s) (pages s).
Definition set_myParameter (v : list Z) (s : t) : t :=
  mk (myImage s) (myDPCRAM s) (mySize s) (myFastFetch s) (myLDAimmediate s) v
    (myParameterPointer s) (myTops s) (myBottoms s) (myCounters s)
    (myFractionalCounters s) (myFractionalIncrements s) (myMusicCounters s)
    (myMusicFrequencies s) (myMusicWaveforms s) (myRandomNumber s) (myAudioCycles s)
    (myARMCycles s) (myFractionalClocks s) (myBankOffset s) (myFractionalLowMask s)
    (myThumbEmulator s) (myStartBank s) (myBankLocked s) (myBankChanged s) (pages s).
Definition set_myParameterPointer (v : Z) (s : t) : t :=
  mk (myImage s) (myDPCRAM s) (mySize s) (myFastFetch s) (myLDAimmediate s)
    (myParameter s) v (myTops s) (myBottoms s) (myCounters s) (myFractionalCounters s)
    (myFractionalIncrements s) (myMusicCounters s) (myMusicFrequencies s)
    (myMusicWaveforms s) (myRandomNumber s) (myAudioCycles s) (myARMCycles s)
    (myFractionalClocks s) (myBankOffset s) (myFractionalLowMask s) (myThumbEmulator s)
    (myStartBank s) (myBankLocked s) (myBankChanged s) (pages s).
Definition set_myTops (v : list Z) (s : t) : t :=
  mk (myImage s) (myDPCRAM s) (mySize s) (myFastFetch s) (myLDAimmediate s)
    (myParameter s) (myParameterPointer s) v (myBottoms s) (myCounters s)
    (myFractionalCounters s) (myFractionalIncrements s) (myMusicCounters s)
    (myMusicFrequencies s) (myMusicWaveforms s) (myRandomNumber s) (myAudioCycles s)
    (myARMCycles s) (myFractionalClocks s) (myBankOffset s) (myFractionalLowMask s)
    (myThumbEmulator s) (myStartBank s) (myBankLocked s) (myBankChanged s) (pages s).
Definition set_myBottoms (v : list Z) (s : t) : t :=
  mk (myImage s) (myDPCRAM s) (mySize s) (myFastFetch s) (myLDAimmediate s)
    (myParameter s) (myParameterPointer s) (myTops s) v (myCounters s)
    (myFractionalCounters s) (myFractionalIncrements s) (myMusicCounters s)
    (myMusicFrequencies s) (myMusicWaveforms s) (myRandomNumber s) (myAudioCycles s)
    (myARMCycles s) (myFractionalClocks s) (myBankOffset s) (myFractionalLowMask s)
    (myThumbEmulator s) (myStartBank s) (myBankLocked s) (myBankChanged s) (pages s).
Definition set_myCounters (v : list Z) (s : t) : t :=
  mk (myImage s) (myDPCRAM s) (mySize s) (myFastFetch s) (myLDAimmediate s)
    (myParameter s) (myParameterPointer s) (myTops s) (myBottoms s) v
    (myFractionalCounters s) (myFractionalIncrements s) (myMusicCounters s)
    (myMusicFrequencies s) (myMusicWaveforms s) (myRandomNumber s) (myAudioCycles s)
    (myARMCycles s) (myFractionalClocks s) (myBankOffset s) (myFractionalLowMask s)
    (myThumbEmulator s) (myStartBank s) (myBankLocked s) (myBankChanged s) (pages s).
Definition set_myFractionalCounters (v : list Z) (s : t) : t :=
  mk (myImage s) (myDPCRAM s) (mySize s) (myFastFetch s) (myLDAimmediate s)
    (myParameter s) (myParameterPointer s) (myTops s) (myBottoms s) (myCounters s) v
    (myFractionalIncrements s) (myMusicCounters s) (myMusicFrequencies s)
    (myMusicWaveforms s) (myRandomNumber s) (myAudioCycles s) (myARMCycles s)
    (myFractionalClocks s) (myBankOffset s) (myFractionalLowMask s) (myThumbEmulator s)
    (myStartBank s) (myBankLocked s) (myBankChanged s) (pages s).
Definition set_myFractionalIncrements (v : list Z) (s : t) : t :=
  mk (myImage s) (myDPCRAM s) (mySize s) (myFastFetch s) (myLDAimmediate s)
    (myParameter s) (myParameterPointer s) (myTops s) (myBottoms s) (myCounters s)
    (myFractionalCounters s) v (myMusicCounters s) (myMusicFrequencies s)
    (myMusicWaveforms s) (myRandomNumber s) (myAudioCycles s) (myARMCycles s)
    (myFractionalClocks s) (myBankOffset s) (myFractionalLowMask s) (myThumbEmulator s)
    (myStartBank s) (myBankLocked s) (myBankChanged s) (pages s).
Definition set_myMusicCounters (v : list Z) (s : t) : t :=
  mk (myImage s) (myDPCRAM s) (mySize s) (myFastFetch s) (myLDAimmediate s)
    (myParameter s) (myParameterPointer s) (myTops s) (myBottoms s) (myCounters s)
    (myFractionalCounters s) (myFractionalIncrements s) v (myMusicFrequencies s)
    (myMusicWaveforms s) (myRandomNumber s) (myAudioCycles s) (myARMCycles s)
    (myFractionalClocks s) (myBankOffset s) (myFractionalLowMask s) (myThumbEmulator s)
    (myStartBank s) (myBankLocked s) (myBankChanged s) (pages s).
Definition set_myMusicFrequencies (v : list Z) (s : t) : t :=
  mk (myImage s) (myDPCRAM s) (mySize s) (myFastFetch s) (myLDAimmediate s)
    (myParameter s) (myParameterPointer s) (myTops s) (myBottoms s) (myCounters s)
    (myFractionalCounters s) (myFractionalIncrements s) (myMusicCounters s) v
    (myMusicWaveforms s) (myRandomNumber s) (myAudioCycles s) (myARMCycles s)
    (myFractionalClocks s) (myBankOffset s) (myFractionalLowMask s) (myThumbEmulator s)
    (myStartBank s) (myBankLocked s) (myBankChanged s) (pages s).
Definition set_myMusicWaveforms (v : list Z) (s : t) : t :=
  mk (myImage s) (myDPCRAM s) (mySize s) (myFastFetch s) (myLDAimmediate s)
    (myParameter s) (myParameterPointer s) (myTops s) (myBottoms s) (myCounters s)
    (myFractionalCounters s) (myFractionalIncrements s) (myMusicCounters s)
    (myMusicFrequencies s) v (myRandomNumber s) (myAudioCycles s) (myARMCycles s)
    (myFractionalClocks s) (myBankOffset s) (myFractionalLowMask s) (myThumbEmulator s)
    (myStartBank s) (myBankLocked s) (myBankChanged s) (pages s).
Definition set_myRandomNumber (v : Z) (s : t) : t :=
  mk (myImage s) (myDPCRAM s) (mySize s) (myFastFetch s) (myLDAimmediate s)
    (myParameter s) (myParameterPointer s) (myTops s) (myBottoms s) (myCounters s)
    (myFractionalCounters s) (myFractionalIncrements s) (myMusicCounters s)
    (myMusicFrequencies s) (myMusicWaveforms s) v (myAudioCycles s) (myARMCycles s)
    (myFractionalClocks s) (myBankOffset s) (myFractionalLowMask s) (myThumbEmulator s)
    (myStartBank s) (myBankLocked s) (myBankChanged s) (pages s).
Definition set_myAudioCycles (v : Z) (s : t) : t :=
  mk (myImage s) (myDPCRAM s) (mySize s) (myFastFetch s) (myLDAimmediate s)
    (myParameter s) (myParameterPointer s) (myTops s) (myBottoms s) (myCounters s)
    (myFractionalCounters s) (myFractionalIncrements s) (myMusicCounters s)
    (myMusicFrequencies s) (myMusicWaveforms s) (myRandomNumber s) v (myARMCycles s)
    (myFractionalClocks s) (myBankOffset s) (myFractionalLowMask s) (myThumbEmulator s)
    (myStartBank s) (myBankLocked s) (myBankChanged s) (pages s).
Definition set_myARMCycles (v : Z) (s : t) : t :=
  mk (myImage s) (myDPCRAM s) (mySize s) (myFastFetch s) (myLDAimmediate s)
    (myParameter s) (myParameterPointer s) (myTops s) (myBottoms s) (myCounters s)
    (myFractionalCounters s) (myFractionalIncrements s) (myMusicCounters s)
    (myMusicFrequencies s) (myMusicWaveforms s) (myRandomNumber s) (myAudioCycles s) v
    (myFractionalClocks s) (myBankOffset s) (myFractionalLowMask s) (myThumbEmulator s)
    (myStartBank s) (myBankLocked s) (myBankChanged s) (pages s).
Definition set_myFractionalClocks (v : Z) (s : t) : t :=
  mk (myImage s) (myDPCRAM s) (mySize s) (myFastFetch s) (myLDAimmediate s)
    (myParameter s) (myParameterPointer s) (myTops s) (myBottoms s) (myCounters s)
    (myFractionalCounters s) (myFractionalIncrements s) (myMusicCounters s)
    (myMusicFrequencies s) (myMusicWaveforms s) (myRandomNumber s) (myAudioCycles s)
    (myARMCycles s) v (myBankOffset s) (myFractionalLowMask s) (myThumbEmulator s)
    (myStartBank s) (myBankLocked s) (myBankChanged s) (pages s).
Definition set_myBankOffset (v : Z) (s : t) : t :=
  mk (myImage s) (myDPCRAM s) (mySize s) (myFastFetch s) (myLDAimmediate s)
    (myParameter s) (myParameterPointer s) (myTops s) (myBottoms s) (myCounters s)
    (myFractionalCounters s) (myFractionalIncrements s) (myMusicCounters s)
    (myMusicFrequencies s) (myMusicWaveforms s) (myRandomNumber s) (myAudioCycles s)
    (myARMCycles s) (myFractionalClocks s) v (myFractionalLowMask s) (myThumbEmulator s)
    (myStartBank s) (myBankLocked s) (myBankChanged s) (pages s).
Definition set_myFractionalLowMask (v : Z) (s : t) : t :=
  mk (myImage s) (myDPCRAM s) (mySize s) (myFastFetch s) (myLDAimmediate s)
    (myParameter s) (myParameterPointer s) (myTops s) (myBottoms s) (myCounters s)
    (myFractionalCounters s) (myFractionalIncrements s) (myMusicCounters s)
    (myMusicFrequencies s) (myMusicWaveforms s) (myRandomNumber s) (myAudioCycles s)
    (myARMCycles s) (myFractionalClocks s) (myBankOffset s) v (myThumbEmulator s)
    (myStartBank s) (myBankLocked s) (myBankChanged s) (pages s).
Definition set_myThumbEmulator (v : Thumb) (s : t) : t :=
  mk (myImage s) (myDPCRAM s) (mySize s) (myFastFetch s) (myLDAimmediate s)
    (myParameter s) (myParameterPointer s) (myTops s) (myBottoms s) (myCounters s)
    (myFractionalCounters s) (myFractionalIncrements s) (myMusicCounters s)
    (myMusicFrequencies s) (myMusicWaveforms s) (myRandomNumber s) (myAudioCycles s)
    (myARMCycles s) (myFractionalClocks s) (myBankOffset s) (myFractionalLowMask s) v
    (myStartBank s) (myBankLocked s) (myBankChanged s) (pages s).
Definition set_myStartBank (v : Z) (s : t) : t :=
  mk (myImage s) (myDPCRAM s) (mySize s) (myFastFetch s) (myLDAimmediate s)
    (myParameter s) (myParameterPointer s) (myTops s) (myBottoms s) (myCounters s)
    (myFractionalCounters s) (myFractionalIncrements s) (myMusicCounters s)
    (myMusicFrequencies s) (myMusicWaveforms s) (myRandomNumber s) (myAudioCycles s)
    (myARMCycles s) (myFractionalClocks s) (myBankOffset s) (myFractionalLowMask s)
    (myThumbEmulator s) v (myBankLocked s) (myBankChanged s) (pages s).
Definition set_myBankLocked (v : bool) (s : t) : t :=
  mk (myImage s) (myDPCRAM s) (mySize s) (myFastFetch s) (myLDAimmediate s)
    (myParameter s) (myParameterPointer s) (myTops s) (myBottoms s) (myCounters s)
    (myFractionalCounters s) (myFractionalIncrements s) (myMusicCounters s)
    (myMusicFrequencies s) (myMusicWaveforms s) (myRandomNumber s) (myAudioCycles s)
    (myARMCycles s) (myFractionalClocks s) (myBankOffset s) (myFractionalLowMask s)
    (myThumbEmulator s) (myStartBank s) v (myBankChanged s) (pages s).
Definition set_myBankChanged (v : bool) (s : t) : t :=
  mk (myImage s) (myDPCRAM s) (mySize s) (myFastFetch s) (myLDAimmediate s)
    (myParameter s) (myParameterPointer s) (myTops s) (myBottoms s) (myCounters s)
    (myFractionalCounters s) (myFractionalIncrements s) (myMusicCounters s)
    (myMusicFrequencies s) (myMusicWaveforms s) (myRandomNumber s) (myAudioCycles s)
    (myARMCycles s) (myFractionalClocks s) (myBankOffset s) (myFractionalLowMask s)
    (myThumbEmulator s) (myStartBank s) (myBankLocked s) v (pages s).
Definition set_pages_of (v : PageTable) (s : t) : t :=
  mk (myImage s) (myDPCRAM s) (mySize s) (myFastFetch s) (myLDAimmediate s)
    (myParameter s) (myParameterPointer s) (myTops s) (myBottoms s) (myCounters s)
    (myFractionalCounters s) (myFractionalIncrements s) (myMusicCounters s)
    (myMusicFrequencies s) (myMusicWaveforms s) (myRandomNumber s) (myAudioCycles s)
    (myARMCycles s) (myFractionalClocks s) (myBankOffset s) (myFractionalLowMask s)
    (myThumbEmulator s) (myStartBank s) (myBankLocked s) (myBankChanged s) v.

(** The three windows into the image and the Harmony RAM:
    [myProgramImage = myImage + 0xC00], [myDisplayImage = myDPCRAM + 0xC00]
    and [myFrequencyImage = myDisplayImage + 0x1000]. *)
Definition myProgramImage (s : t) (i : Z) : Z := rd (myImage s) (0xC00 + i).
Definition myDisplayImage (s : t) (i : Z) : Z := rd (myDPCRAM s) (0xC00 + i).
Definition myFrequencyImage (s : t) (i : Z) : Z := rd (myDPCRAM s) (0xC00 + 0x1000 + i).
Definition set_myDisplayImage (i v : Z) (s : t) : t :=
  set_myDPCRAM (wr (myDPCRAM s) (0xC00 + i) v) s.
Definition set_myProgramImage (i v : Z) (s : t) : t :=
  set_myImage (wr (myImage s) (0xC00 + i) v) s.

(** [Int32(x)] *)
Definition s32 (x : Z) : Z := (x + 2147483648) mod 4294967296 - 2147483648.

(** The Harmony RAM CartridgeDPCPlus::setInitialState leaves: zeroed, then
    the display data and frequency table copied from the program image
    ([memcpy(myDisplayImage, myProgramImage + 0x6000, 0x1400)]). *)
Definition initialRAM (s : t) : list Z :=
  foldl (fun ram i => wr ram (0xC00 + Z.of_nat i) (myProgramImage s (0x6000 + Z.of_nat i)))
        (replicate (Z.to_nat 8192) 0) (seq 0 (Z.to_nat 0x1400)).

(** CartridgeDPCPlus::setInitialState *)
Definition setInitialState (s : t) : t :=
  let s := set_myDPCRAM (initialRAM s) s in
  let s := set_myTops (replicate 8 0) s in
  let s := set_myBottoms (replicate 8 0) s in
  let s := set_myFractionalIncrements (replicate 8 0) s in
  let s := set_myFractionalCounters (replicate 8 0) s in
  let s := set_myCounters (replicate 8 0) s in
  let s := set_myMusicWaveforms (replicate 3 0) s in
  let s := set_myRandomNumber 0x2B435044 s in
  let s := set_myLDAimmediate false (set_myFastFetch false s) in
  let s := set_myARMCycles 0 (set_myAudioCycles 0 s) in
  set_myFractionalClocks 0 s.

(** CartridgeDPCPlus::CartridgeDPCPlus.  The image goes to the end of the
    zeroed 32K buffer.  [quirk] tells whether the ARM driver is the one
    with the other DFxFRACLOW mask; the arrays the constructor leaves
    uninitialized start out zeroed. *)
Definition CartridgeDPCPlus (image : list Z) (size : Z) (quirk : bool) (th : Thumb) : t :=
  let size' := Z.min (u32 size) 32768 in
  let buffer := replicate (Z.to_nat (32768 - size')) 0 ++ take (Z.to_nat size') image in
  setInitialState
    {| myImage := buffer; myDPCRAM := replicate (Z.to_nat 8192) 0; mySize := size';
       myFastFetch := false; myLDAimmediate := false;
       myParameter := replicate 8 0; myParameterPointer := 0;
       myTops := replicate 8 0; myBottoms := replicate 8 0;
       myCounters := replicate 8 0; myFractionalCounters := replicate 8 0;
       myFractionalIncrements := replicate 8 0;
       myMusicCounters := replicate 3 0; myMusicFrequencies := replicate 3 0;
       myMusicWaveforms := replicate 3 0;
       myRandomNumber := 0; myAudioCycles := 0; myARMCycles := 0;
       myFractionalClocks := 0; myBankOffset := 0;
       myFractionalLowMask := if quirk then 0x0F0000 else 0x0F00FF;
       myThumbEmulator := th;
       myStartBank := 0; myBankLocked := false; myBankChanged := true;
       pages := ∅ |}.

(** The page descriptor CartridgeDPCPlus::bank installs at [addr]. *)
Definition bankAccess (bankOffset addr : Z) : PageAccess :=
  set_codeAccessBase (Some (bankOffset + Z.land addr 0x0FFF)) (newPageAccess READ).

(** CartridgeDPCPlus::bank *)
Definition bank (bank : Z) (s : t) : bool * t :=
  let bank := u16 bank in
  if myBankLocked s then (false, s)
  else
    let s := set_myBankOffset (u16 (Z.shiftl bank 12)) s in
    let pt := set_pages (bankAccess (myBankOffset s)) 0x1080 0x2000 (pages s) in
    (true, set_myBankChanged true (set_pages_of pt s)).

(** CartridgeDPCPlus::getBank *)
Definition getBank (s : t) : Z := Z.shiftr (myBankOffset s) 12.

(** CartridgeDPCPlus::bankCount *)
Definition bankCount (s : t) : Z := 6.

(** CartridgeDPCPlus::reset; [startBank] is the bank initializeStartBank(5)
    settles on. *)
Definition reset (startBank : Z) (s : t) : t :=
  let s := setInitialState s in
  let s := set_myStartBank startBank s in
  snd (bank (myStartBank s) s).

(** CartridgeDPCPlus::install *)
Definition install (pt : PageTable) (s : t) : t :=
  let pt := set_pages (fun _ => newPageAccess READ) 0x1000 0x1080 pt in
  snd (bank (myStartBank s) (set_pages_of pt s)).

(** CartridgeDPCPlus::updateMusicModeDataFetchers *)
Definition updateMusicModeDataFetchers (sysCycles : Z) (s : t) : t :=
  let cycles := u32 (sysCycles - myAudioCycles s) in
  let s := set_myAudioCycles sysCycles s in
  let '(wholeClocks, fractional) := oscClocks cycles (myFractionalClocks s) in
  let s := set_myFractionalClocks fractional s in
  if 0 <? wholeClocks then
    foldl (fun s x =>
             set_myMusicCounters
               (wr (myMusicCounters s) x
                   (u32 (rd (myMusicCounters s) x + rd (myMusicFrequencies s) x * wholeClocks)))
               s)
          s [0; 1; 2]
  else s.

(** CartridgeDPCPlus::callFunction, case 1: copy ROM to fetcher. *)
Definition copyROMToFetcher (s : t) : t :=
  let ROMdata := u16 (Z.shiftl (rd (myParameter s) 1) 8 + rd (myParameter s) 0) in
  let s :=
    foldl (fun s i =>
             set_myDisplayImage
               (rd (myCounters s) (Z.land (rd (myParameter s) 2) 0x7) + Z.of_nat i)
               (myProgramImage s (ROMdata + Z.of_nat i)) s)
          s (seq 0 (Z.to_nat (rd (myParameter s) 3))) in
  set_myParameterPointer 0 s.

(** CartridgeDPCPlus::callFunction, case 2: copy value to fetcher. *)
Definition copyValueToFetcher (s : t) : t :=
  let s :=
    foldl (fun s i =>
             set_myDisplayImage
               (rd (myCounters s) (rd (myParameter s) 2) + Z.of_nat i)
               (rd (myParameter s) 0) s)
          s (seq 0 (Z.to_nat (rd (myParameter s) 3))) in
  set_myParameterPointer 0 s.

(** CartridgeDPCPlus::callFunction, cases 254 and 255: run the ARM code;
    a [runtime_error] becomes a FatalEmulationError unless the System is
    in autodetect mode. *)
Definition callARM (sysCycles : Z) (s : t) : outcome t :=
  let cycles := s32 (sysCycles - myARMCycles s) in
  let s := set_myARMCycles sysCycles s in
  let r := thumb_run cycles (myImage s) (myDPCRAM s) (myThumbEmulator s) in
  let s := set_myDPCRAM (snd (fst r)) (set_myThumbEmulator (fst (fst r)) s) in
  match snd r with
  | Some msg => if negb autodetectMode then Throw msg else Ret s
  | None => Ret s
  end.

(** CartridgeDPCPlus::callFunction *)
Definition callFunction (sysCycles : Z) (value : Z) (s : t) : outcome t :=
  match value with
  | 0 => Ret (set_myParameterPointer 0 s)
  | 1 => Ret (copyROMToFetcher s)
  | 2 => Ret (copyValueToFetcher s)
  | 254 | 255 => callARM sysCycles s
  | _ => Ret s
  end.

(** The bank-switch hot spots shared by peek and poke. *)
Definition switchBanks (address : Z) (s : t) : t :=
  match address with
  | 0x0FF6 => snd (bank 0 s)
  | 0x0FF7 => snd (bank 1 s)
  | 0x0FF8 => snd (bank 2 s)
  | 0x0FF9 => snd (bank 3 s)
  | 0x0FFA => snd (bank 4 s)
  | 0x0FFB => snd (bank 5 s)
  | _ => s
  end.

(** CartridgeDPCPlus::peek *)
Definition peek (sysCycles : Z) (address : Z) (s : t) : Z * t :=
  let address := Z.land (u16 address) 0x0FFF in
  let peekvalue := myProgramImage s (myBankOffset s + address) in
  if myBankLocked s then (peekvalue, s)
  else
    let address :=
      if myFastFetch s && myLDAimmediate s
      then (if peekvalue <? 0x0028 then peekvalue else address)
      else address in
    let s := set_myLDAimmediate false s in
    if address <? 0x0028 then
      let index := Z.land address 0x07 in
      let func := Z.land (Z.shiftr address 3) 0x07 in
      let flag :=
        if Z.land (rd (myTops s) index - Z.land (rd (myCounters s) index) 0x00ff) 0xFF
           >? Z.land (rd (myTops s) index - rd (myBottoms s) index) 0xFF
        then 0xFF else 0 in
      match func with
      | 0x00 =>
          match index with
          | 0x00 =>
              let s := set_myRandomNumber
                         (LFSR.clockRandomNumberGenerator (myRandomNumber s)) s in
              (Z.land (myRandomNumber s) 0xFF, s)
          | 0x01 =>
              let s := set_myRandomNumber
                         (LFSR.priorClockRandomNumberGenerator (myRandomNumber s)) s in
              (Z.land (myRandomNumber s) 0xFF, s)
          | 0x02 => (Z.land (Z.shiftr (myRandomNumber s) 8) 0xFF, s)
          | 0x03 => (Z.land (Z.shiftr (myRandomNumber s) 16) 0xFF, s)
          | 0x04 => (Z.land (Z.shiftr (myRandomNumber s) 24) 0xFF, s)
          | 0x05 =>
              let s := updateMusicModeDataFetchers sysCycles s in
              let wave x :=
                myDisplayImage s (Z.shiftl (rd (myMusicWaveforms s) x) 5
                                  + Z.shiftr (rd (myMusicCounters s) x) 27) in
              (u8 (wave 0 + wave 1 + wave 2), s)
          | _ => (0, s)
          end
      | 0x01 =>
          let result := myDisplayImage s (rd (myCounters s) index) in
          (result,
           set_myCounters (wr (myCounters s) index
                              (Z.land (rd (myCounters s) index + 0x1) 0x0fff)) s)
      | 0x02 =>
          let result := Z.land (myDisplayImage s (rd (myCounters s) index)) flag in
          (result,
           set_myCounters (wr (myCounters s) index
                              (Z.land (rd (myCounters s) index + 0x1) 0x0fff)) s)
      | 0x03 =>
          let result := myDisplayImage s (Z.shiftr (rd (myFractionalCounters s) index) 8) in
          (result,
           set_myFractionalCounters
             (wr (myFractionalCounters s) index
                 (Z.land (rd (myFractionalCounters s) index
                          + rd (myFractionalIncrements s) index) 0x0fffff)) s)
      | 0x04 =>
          match index with
          | 0x00 | 0x01 | 0x02 | 0x03 => (flag, s)
          | _ => (0, s)
          end
      | _ => (0, s)
      end
    else
      let s := switchBanks address s in
      let s := if myFastFetch s then set_myLDAimmediate (peekvalue =? 0xA9) s else s in
      (peekvalue, s).

(** The register writes of CartridgeDPCPlus::poke (addresses 0x28-0x7F). *)
Definition pokeRegister (sysCycles : Z) (address value : Z) (s : t) : outcome t :=
  let index := Z.land address 0x07 in
  let func := Z.land (Z.shiftr (address - 0x28) 3) 0x0f in
  match func with
  | 0x00 =>
      Ret (set_myFractionalCounters
             (wr (myFractionalCounters s) index
                 (Z.lor (Z.land (rd (myFractionalCounters s) index) (myFractionalLowMask s))
                        (Z.shiftl value 8))) s)
  | 0x01 =>
      Ret (set_myFractionalCounters
             (wr (myFractionalCounters s) index
                 (Z.lor (Z.shiftl (Z.land value 0x0F) 16)
                        (Z.land (rd (myFractionalCounters s) index) 0x00ffff))) s)
  | 0x02 =>
      let s := set_myFractionalIncrements (wr (myFractionalIncrements s) index value) s in
      Ret (set_myFractionalCounters
             (wr (myFractionalCounters s) index
                 (Z.land (rd (myFractionalCounters s) index) 0x0FFF00)) s)
  | 0x03 => Ret (set_myTops (wr (myTops s) index value) s)
  | 0x04 => Ret (set_myBottoms (wr (myBottoms s) index value) s)
  | 0x05 =>
      Ret (set_myCounters
             (wr (myCounters s) index
                 (Z.lor (Z.land (rd (myCounters s) index) 0x0F00) value)) s)
  | 0x06 =>
      match index with
      | 0x00 => Ret (set_myFastFetch (value =? 0) s)
      | 0x01 =>
          if myParameterPointer s <? 8
          then Ret (set_myParameterPointer
                      (u8 (myParameterPointer s + 1))
                      (set_myParameter (wr (myParameter s) (myParameterPointer s) value) s))
          else Ret s
      | 0x02 => callFunction sysCycles value s
      | 0x03 | 0x04 => Ret s
      | _ =>
          Ret (set_myMusicWaveforms
                 (wr (myMusicWaveforms s) (index - 5) (Z.land value 0x7f)) s)
      end
  | 0x07 =>
      let s := set_myCounters
                 (wr (myCounters s) index (Z.land (rd (myCounters s) index - 0x1) 0x0fff)) s in
      Ret (set_myDisplayImage (rd (myCounters s) index) value s)
  | 0x08 =>
      Ret (set_myCounters
             (wr (myCounters s) index
                 (Z.lor (Z.shiftl (Z.land value 0x0F) 8)
                        (Z.land (rd (myCounters s) index) 0x00ff))) s)
  | 0x09 =>
      match index with
      | 0x00 => Ret (set_myRandomNumber 0x2B435044 s)
      | 0x01 => Ret (set_myRandomNumber
                       (Z.lor (Z.land (myRandomNumber s) 0xFFFFFF00) value) s)
      | 0x02 => Ret (set_myRandomNumber
                       (Z.lor (Z.land (myRandomNumber s) 0xFFFF00FF) (Z.shiftl value 8)) s)
      | 0x03 => Ret (set_myRandomNumber
                       (Z.lor (Z.land (myRandomNumber s) 0xFF00FFFF) (Z.shiftl value 16)) s)
      | 0x04 => Ret (set_myRandomNumber
                       (u32 (Z.lor (Z.land (myRandomNumber s) 0x00FFFFFF)
                                   (Z.shiftl value 24))) s)
      | _ =>
          let f i := myFrequencyImage s (Z.shiftl value 2 + i) in
          Ret (set_myMusicFrequencies
                 (wr (myMusicFrequencies s) (index - 5)
                     (u32 (f 0 + Z.shiftl (f 1) 8 + Z.shiftl (f 2) 16 + Z.shiftl (f 3) 24))) s)
      end
  | 0x0a =>
      let s := set_myDisplayImage (rd (myCounters s) index) value s in
      Ret (set_myCounters
             (wr (myCounters s) index (Z.land (rd (myCounters s) index + 0x1) 0x0fff)) s)
  | _ => Ret s
  end.

(** CartridgeDPCPlus::poke; a FatalEmulationError raised by callFunction
    leaves it as an exception. *)
Definition poke (sysCycles : Z) (address value : Z) (s : t) : outcome (bool * t) :=
  let value := u8 value in
  let address := Z.land (u16 address) 0x0FFF in
  if (0x0028 <=? address) && (address <? 0x0080) then
    s ← pokeRegister sysCycles address value s;
    Ret (false, s)
  else
    Ret (false, switchBanks address s).

(** CartridgeDPCPlus::patch *)
Definition patch (address value : Z) (s : t) : bool * t :=
  let value := u8 value in
  let address := Z.land (u16 address) 0x0FFF in
  if 0x0080 <=? address then
    (true, set_myBankChanged true
             (set_myProgramImage (myBankOffset s + Z.land address 0x0FFF) value s))
  else (false, s).

(** CartridgeDPCPlus::save *)
Definition save (s : t) : Serializer.stream :=
  [Serializer.Short (myBankOffset s);
   Serializer.ByteArray (myDPCRAM s);
   Serializer.ByteArray (myTops s);
   Serializer.ByteArray (myBottoms s);
   Serializer.ShortArray (myCounters s);
   Serializer.IntArray (myFractionalCounters s);
   Serializer.ByteArray (myFractionalIncrements s);
   Serializer.Bool (myFastFetch s);
   Serializer.Bool (myLDAimmediate s);
   Serializer.ByteArray (myParameter s);
   Serializer.IntArray (myMusicCounters s);
   Serializer.IntArray (myMusicFrequencies s);
   Serializer.ShortArray (myMusicWaveforms s);
   Serializer.Int (myRandomNumber s);
   Serializer.Long (myAudioCycles s);
   Serializer.Double (myFractionalClocks s);
   Serializer.Long (myARMCycles s)].

(** The body of the [try] block of CartridgeDPCPlus::load: the members
    are assigned in order, and an exception keeps those assigned so far. *)
Definition load_members (st : Serializer.stream) (s : t) : bool * t :=
  let step {A} (get : Serializer.stream -> outcome (A * Serializer.stream))
           (set : A -> t -> t) (k : Serializer.stream -> t -> bool * t)
           (st : Serializer.stream) (s : t) : bool * t :=
    match get st with
    | Ret (v, st') => k st' (set v s)
    | _ => (false, s)
    end in
  step Serializer.getShort set_myBankOffset
  (step (Serializer.getByteArray 8192) set_myDPCRAM
  (step (Serializer.getByteArray 8) set_myTops
  (step (Serializer.getByteArray 8) set_myBottoms
  (step (Serializer.getShortArray 8) set_myCounters
  (step (Serializer.getIntArray 8) set_myFractionalCounters
  (step (Serializer.getByteArray 8) set_myFractionalIncrements
  (step Serializer.getBool set_myFastFetch
  (step Serializer.getBool set_myLDAimmediate
  (step (Serializer.getByteArray 8) set_myParameter
  (step (Serializer.getIntArray 3) set_myMusicCounters
  (step (Serializer.getIntArray 3) set_myMusicFrequencies
  (step (Serializer.getShortArray 3) set_myMusicWaveforms
  (step Serializer.getInt set_myRandomNumber
  (step Serializer.getLong set_myAudioCycles
  (step Serializer.getDouble set_myFractionalClocks
  (step Serializer.getLong set_myARMCycles
  (fun _ s => (true, s)))))))))))))))))) st s.

(** CartridgeDPCPlus::load *)
Definition load (st : Serializer.stream) (s : t) : bool * t :=
  match load_members st s with
  | (true, s) => (true, snd (bank (Z.shiftr (myBankOffset s) 12) s))
  | (false, s) => (false, s)
  end.

(** **** Bank-locked accesses *)

Lemma dpc_bank_locked b s : myBankLocked s = true -> bank b s = (false, s).
Proof. intros H. unfold bank. rewrite H. reflexivity. Qed.

(** X26 (C10): when the DPC+ cartridge is bank-locked, peek returns the byte of
    the program image at the current bank offset plus the address (masked
    to 12 bits) and leaves the whole cartridge state as it was: no bank
    switch, no data-fetcher update, no clocking of the random number
    generator and no change of the fast-fetch flags. *)
Theorem peek_locked_reads_rom_only (sysCycles address : Z) (s : t) :
  myBankLocked s = true ->
  peek sysCycles address s
  = (rd (myImage s) (0xC00 + (myBankOffset s + Z.land (u16 address) 0x0FFF)), s).
Proof. intros H. unfold peek. rewrite H. reflexivity. Qed.


(** **** Save and load: the shape of a state *)

(** The Thumbulator works on the Harmony RAM in place. *)
Hypothesis thumb_run_length : forall cycles image ram th,
  length (snd (fst (thumb_run cycles image ram th))) = length ram.

(** The lengths of the arrays, the bank offset, the lock and the pages:
    what the bank switches and the checks of [load] depend on. *)
Definition shape (s : t) : list nat * Z * bool * PageTable :=
  ([length (myDPCRAM s); length (myTops s); length (myBottoms s); length (myCounters s);
    length (myFractionalCounters s); length (myFractionalIncrements s);
    length (myParameter s); length (myMusicCounters s); length (myMusicFrequencies s);
    length (myMusicWaveforms s)],
   myBankOffset s, myBankLocked s, pages s).

Definition shape_ok (s0 : t) (sh : list nat * Z * bool * PageTable) : Prop :=
  let '(lens, bankOffset, _, pt) := sh in
  lens = [Z.to_nat 8192; 8; 8; 8; 8; 8; 8; 3; 3; 3]%nat /\
  (exists k, 0 <= k < 16 /\ bankOffset = 4096 * k) /\
  (forall p, 66 <= p < 128 -> pt !! p = Some (bankAccess bankOffset (PAGE_SIZE * p))) /\
  (forall p, ~ (66 <= p < 128) -> pt !! p = pages s0 !! p).

Definition Inv (s0 s : t) : Prop := shape_ok s0 (shape s).

Lemma Inv_shape s0 s s' : shape s' = shape s -> Inv s0 s -> Inv s0 s'.
Proof. unfold Inv. intros ->. auto. Qed.

Ltac shape_simpl :=
  unfold shape;
  cbn [myImage myDPCRAM mySize myFastFetch myLDAimmediate myParameter myParameterPointer
       myTops myBottoms myCounters myFractionalCounters myFractionalIncrements
       myMusicCounters myMusicFrequencies myMusicWaveforms myRandomNumber myAudioCycles
       myARMCycles myFractionalClocks myBankOffset myFractionalLowMask myThumbEmulator
       myStartBank myBankLocked myBankChanged pages
       set_myImage set_myDPCRAM set_myFastFetch set_myLDAimmediate set_myParameter
       set_myParameterPointer set_myTops set_myBottoms set_myCounters
       set_myFractionalCounters set_myFractionalIncrements set_myMusicCounters
       set_myMusicFrequencies set_myMusicWaveforms set_myRandomNumber set_myAudioCycles
       set_myARMCycles set_myFractionalClocks set_myBankOffset set_myThumbEmulator
       set_myStartBank set_myBankLocked set_myBankChanged set_pages_of
       set_myDisplayImage set_myProgramImage];
  rewrite ?length_wr.

Ltac shape_tac := shape_simpl; try reflexivity.

Lemma shift12_aligned x : exists k, 0 <= k < 16 /\ u16 (Z.shiftl x 12) = 4096 * k.
Proof.
  exists ((x mod 16)). split; [apply Z.mod_pos_bound; lia|].
  unfold u16. rewrite Z.shiftl_mul_pow2 by lia. change (2 ^ 12) with 4096.
  change 65536 with (4096 * 16). rewrite (Z.mul_comm x 4096).
  apply Zmult_mod_distr_l.
Qed.

(** [bank] re-derives the pages of 0x1080-0x1FFF from the bank offset. *)
Lemma dpc_bank_unlocked b s0 s :
  myBankLocked s = false ->
  (forall p, ~ (66 <= p < 128) -> pages s !! p = pages s0 !! p) ->
  let s' := snd (bank b s) in
  myBankOffset s' = u16 (Z.shiftl (u16 b) 12) /\
  (forall p, 66 <= p < 128 ->
     pages s' !! p = Some (bankAccess (myBankOffset s') (PAGE_SIZE * p))) /\
  (forall p, ~ (66 <= p < 128) -> pages s' !! p = pages s0 !! p).
Proof.
  intros Hl F s'. unfold s', bank. rewrite Hl. cbn [snd].
  cbn [myBankOffset pages set_myBankChanged set_pages_of set_myBankOffset].
  split; [reflexivity|].
  change 0x1080 with (PAGE_SIZE * 66). change 0x2000 with (PAGE_SIZE * 128).
  split; intros p Hp; rewrite lookup_set_pages by lia; case_decide; try lia; auto.
Qed.

Lemma dpc_bank_inv b s0 s : Inv s0 s -> Inv s0 (snd (bank b s)).
Proof.
  intros H. destruct (myBankLocked s) eqn:Hl.
  - rewrite dpc_bank_locked by assumption. exact H.
  - pose proof H as (L & K & B & F).
    destruct (dpc_bank_unlocked b s0 s Hl F) as (E & B' & F').
    unfold Inv, shape. cbn [shape_ok].
    split; [|split; [|split]].
    + unfold bank. rewrite Hl. cbn [snd]. exact L.
    + rewrite E. apply shift12_aligned.
    + exact B'.
    + exact F'.
Qed.

Lemma switchBanks_cases address s :
  switchBanks address s = s \/ exists b, switchBanks address s = snd (bank b s).
Proof. unfold switchBanks. repeat case_match; eauto. Qed.

Lemma switchBanks_inv address s0 s : Inv s0 s -> Inv s0 (switchBanks address s).
Proof.
  intros H. destruct (switchBanks_cases address s) as [->|[b ->]];
    auto using dpc_bank_inv.
Qed.

Lemma updateMusicModeDataFetchers_shape sysCycles s :
  shape (updateMusicModeDataFetchers sysCycles s) = shape s.
Proof.
  unfold updateMusicModeDataFetchers. destruct (oscClocks _ _) as [w f].
  destruct (0 <? w); cbn [foldl]; shape_tac.
Qed.

Lemma dpc_peek_inv sysCycles address s0 s : Inv s0 s -> Inv s0 (snd (peek sysCycles address s)).
Proof.
  intros H. unfold peek.
  destruct (myBankLocked s); [exact H|].
  match goal with |- context [set_myLDAimmediate false s] =>
    assert (H1 : Inv s0 (set_myLDAimmediate false s)) by exact H end.
  generalize dependent (set_myLDAimmediate false s). intros s1 H1.
  match goal with |- context [if ?c then _ else _] => destruct c end.
  - repeat case_match; cbn [snd]; try exact H1;
      try (refine (Inv_shape s0 s1 _ _ H1); shape_tac; fail).
    all: refine (Inv_shape s0 s1 _ _ H1); apply updateMusicModeDataFetchers_shape.
  - cbn [snd]. pose proof (fun a => switchBanks_inv a s0 s1 H1) as H2.
    destruct (myFastFetch _); exact (H2 _).
Qed.

Lemma foldl_shape {A} (f : t -> A -> t) (l : list A) :
  (forall s i, shape (f s i) = shape s) -> forall s, shape (foldl f s l) = shape s.
Proof.
  intros Hf. induction l as [|i l IH]; intros s; [reflexivity|].
  cbn [foldl]. rewrite IH. apply Hf.
Qed.

Lemma callFunction_cases sysCycles value s :
  callFunction sysCycles value s = Ret (set_myParameterPointer 0 s) \/
  callFunction sysCycles value s = Ret (copyROMToFetcher s) \/
  callFunction sysCycles value s = Ret (copyValueToFetcher s) \/
  callFunction sysCycles value s = callARM sysCycles s \/
  callFunction sysCycles value s = Ret s.
Proof. unfold callFunction. repeat case_match; auto 6. Qed.

Lemma callARM_shape sysCycles s s' : callARM sysCycles s = Ret s' -> shape s' = shape s.
Proof.
  unfold callARM. intros H.
  match type of H with context [thumb_run ?c ?i ?r ?th] =>
    pose proof (thumb_run_length c i r th) as Hlen; destruct (thumb_run c i r th) as [[th' ram] err]
  end.
  cbn [fst snd] in *.
  assert (E : s' = set_myDPCRAM ram (set_myThumbEmulator th' (set_myARMCycles sysCycles s))).
  { destruct err; [destruct (negb autodetectMode)|]; congruence. }
  rewrite E. shape_tac. cbn in Hlen. rewrite Hlen. reflexivity.
Qed.

Lemma callFunction_shape sysCycles value s s' :
  callFunction sysCycles value s = Ret s' -> shape s' = shape s.
Proof.
  destruct (callFunction_cases sysCycles value s) as [E|[E|[E|[E|E]]]];
    rewrite E; intros H.
  - injection H as <-. shape_tac.
  - injection H as <-. unfold copyROMToFetcher. cbv zeta.
    match goal with |- shape (set_myParameterPointer 0 (foldl ?f ?x ?l)) = _ =>
      transitivity (shape (foldl f x l));
        [shape_tac | apply foldl_shape; intros; shape_tac]
    end.
  - injection H as <-. unfold copyValueToFetcher. cbv zeta.
    match goal with |- shape (set_myParameterPointer 0 (foldl ?f ?x ?l)) = _ =>
      transitivity (shape (foldl f x l));
        [shape_tac | apply foldl_shape; intros; shape_tac]
    end.
  - eapply callARM_shape, H.
  - injection H as <-. reflexivity.
Qed.

Lemma pokeRegister_shape sysCycles address value s s' :
  pokeRegister sysCycles address value s = Ret s' -> shape s' = shape s.
Proof.
  unfold pokeRegister. intros H.
  repeat case_match;
    try (eapply callFunction_shape; eassumption);
    injection H as <-; shape_tac.
Qed.

Lemma dpc_poke_inv sysCycles address value s0 s b s' :
  poke sysCycles address value s = Ret (b, s') -> Inv s0 s -> Inv s0 s'.
Proof.
  unfold poke. intros H Hs. destruct (_ && _).
  - destruct (pokeRegister _ _ _ _) as [s1| |] eqn:E; cbn in H; try discriminate.
    injection H as _ <-. eapply Inv_shape; [eapply pokeRegister_shape, E|exact Hs].
  - injection H as _ <-. apply switchBanks_inv, Hs.
Qed.

Lemma patch_inv address value s0 s : Inv s0 s -> Inv s0 (snd (patch address value s)).
Proof. intros H. unfold patch. destruct (_ <=? _); exact H. Qed.

Lemma length_foldl_wr {A} (f : A -> Z) (g : A -> Z) (l : list A) :
  forall a, length (foldl (fun a i => wr a (f i) (g i)) a l) = length a.
Proof.
  induction l as [|i l IH]; intros a; [reflexivity|].
  cbn [foldl]. rewrite IH. apply length_wr.
Qed.

Lemma length_initialRAM s : length (initialRAM s) = Z.to_nat 8192.
Proof.
  unfold initialRAM. generalize (seq 0 (Z.to_nat 0x1400)). intros l.
  rewrite <- (length_replicate (Z.to_nat 8192) 0) at 2.
  generalize (replicate (Z.to_nat 8192) 0). induction l as [|i l IH]; intros a.
  - reflexivity.
  - cbn [foldl]. rewrite IH. apply length_wr.
Qed.

Lemma setInitialState_shape s :
  shape (setInitialState s)
  = ([Z.to_nat 8192; 8; 8; 8; 8; 8;
      length (myParameter s); length (myMusicCounters s); length (myMusicFrequencies s);
      3]%nat,
     myBankOffset s, myBankLocked s, pages s).
Proof.
  unfold setInitialState. cbv zeta. shape_simpl.
  rewrite length_initialRAM, !length_replicate. reflexivity.
Qed.

Lemma setInitialState_inv s0 s : Inv s0 s -> Inv s0 (setInitialState s).
Proof.
  unfold Inv. rewrite setInitialState_shape. unfold shape.
  intros (L & K & B & F). injection L as _ _ _ _ _ _ L7 L8 L9 _.
  rewrite L7, L8, L9. unfold shape_ok. auto.
Qed.

Lemma shape_set_myStartBank v x : shape (set_myStartBank v x) = shape x.
Proof. reflexivity. Qed.

Lemma shape_set_pages_of q x : shape (set_pages_of q x) = (fst (shape x), q).
Proof. reflexivity. Qed.

Lemma bank_shape_unlocked b x :
  myBankLocked x = false ->
  shape (snd (bank b x))
  = (fst (fst (fst (shape x))), myBankOffset (snd (bank b x)), false,
     pages (snd (bank b x))).
Proof.
  intros Hl. unfold bank. rewrite Hl. cbn [snd]. shape_simpl. rewrite Hl. reflexivity.
Qed.

Lemma myBankLocked_setInitialState x :
  myBankLocked (setInitialState x) = myBankLocked x.
Proof. reflexivity. Qed.

Lemma dpc_reset_inv startBank s0 s : Inv s0 s -> Inv s0 (reset startBank s).
Proof.
  intros H. unfold reset. cbv zeta. apply dpc_bank_inv.
  exact (Inv_shape s0 (setInitialState s) _ (shape_set_myStartBank _ _)
                   (setInitialState_inv s0 s H)).
Qed.

(** The state installed for an image. *)
Definition installed (image : list Z) (size : Z) (quirk : bool) (th : Thumb)
    (pt : PageTable) : t :=
  install pt (CartridgeDPCPlus image size quirk th).

Lemma install_inv pt c :
  myBankLocked c = false ->
  fst (fst (fst (shape c))) = [Z.to_nat 8192; 8; 8; 8; 8; 8; 8; 3; 3; 3]%nat ->
  Inv (install pt c) (install pt c).
Proof.
  intros Hl Hlens. unfold install. cbv zeta.
  set (x0 := set_pages_of (set_pages (fun _ => newPageAccess READ) 0x1000 0x1080 pt) c).
  set (b0 := myStartBank c).
  assert (Hl0 : myBankLocked x0 = false) by exact Hl.
  destruct (dpc_bank_unlocked b0 (snd (bank b0 x0)) x0 Hl0) as (E & B & F).
  { intros p Hp. unfold bank. rewrite Hl0. cbn [snd pages set_myBankChanged set_pages_of].
    change 0x1080 with (PAGE_SIZE * 66). change 0x2000 with (PAGE_SIZE * 128).
    rewrite lookup_set_pages by lia. case_decide; [lia|reflexivity]. }
  assert (Hlens0 : fst (fst (fst (shape x0)))
                   = [Z.to_nat 8192; 8; 8; 8; 8; 8; 8; 3; 3; 3]%nat).
  { unfold x0. rewrite shape_set_pages_of. exact Hlens. }
  unfold Inv. rewrite (bank_shape_unlocked b0 x0 Hl0), Hlens0.
  cbn [shape_ok].
  split; [reflexivity|]. split; [rewrite E; apply shift12_aligned|]. auto.
Qed.

Lemma dpc_installed_inv image size quirk th pt :
  Inv (installed image size quirk th pt) (installed image size quirk th pt).
Proof.
  unfold installed, CartridgeDPCPlus. apply install_inv.
  - apply myBankLocked_setInitialState.
  - rewrite setInitialState_shape. reflexivity.
Qed.

(** **** Save and load *)

Lemma getByteArray_ok a n st :
  Z.of_nat (length a) = n ->
  Serializer.getByteArray n (Serializer.ByteArray a :: st) = Ret (a, st).
Proof. intros <-. unfold Serializer.getByteArray. rewrite Z.eqb_refl. reflexivity. Qed.

Lemma getShortArray_ok a n st :
  Z.of_nat (length a) = n ->
  Serializer.getShortArray n (Serializer.ShortArray a :: st) = Ret (a, st).
Proof. intros <-. unfold Serializer.getShortArray. rewrite Z.eqb_refl. reflexivity. Qed.

Lemma getIntArray_ok a n st :
  Z.of_nat (length a) = n ->
  Serializer.getIntArray n (Serializer.IntArray a :: st) = Ret (a, st).
Proof. intros <-. unfold Serializer.getIntArray. rewrite Z.eqb_refl. reflexivity. Qed.

(** [t] with the members [load] reads taken from [s]. *)
Definition restored (s dst : t) : t :=
  set_myARMCycles (myARMCycles s)
  (set_myFractionalClocks (myFractionalClocks s)
  (set_myAudioCycles (myAudioCycles s)
  (set_myRandomNumber (myRandomNumber s)
  (set_myMusicWaveforms (myMusicWaveforms s)
  (set_myMusicFrequencies (myMusicFrequencies s)
  (set_myMusicCounters (myMusicCounters s)
  (set_myParameter (myParameter s)
  (set_myLDAimmediate (myLDAimmediate s)
  (set_myFastFetch (myFastFetch s)
  (set_myFractionalIncrements (myFractionalIncrements s)
  (set_myFractionalCounters (myFractionalCounters s)
  (set_myCounters (myCounters s)
  (set_myBottoms (myBottoms s)
  (set_myTops (myTops s)
  (set_myDPCRAM (myDPCRAM s)
  (set_myBankOffset (myBankOffset s) dst)))))))))))))))).

Lemma load_members_save s t :
  fst (fst (fst (shape s))) = [Z.to_nat 8192; 8; 8; 8; 8; 8; 8; 3; 3; 3]%nat ->
  load_members (save s) t = (true, restored s t).
Proof.
  unfold shape. cbn [fst]. intros L.
  injection L as L1 L2 L3 L4 L5 L6 L7 L8 L9 L10.
  unfold load_members, save. cbv zeta beta.
  cbn [Serializer.getShort]. cbv beta iota.
  rewrite getByteArray_ok by (rewrite L1; reflexivity). cbv beta iota.
  rewrite getByteArray_ok by (rewrite L2; reflexivity). cbv beta iota.
  rewrite getByteArray_ok by (rewrite L3; reflexivity). cbv beta iota.
  rewrite getShortArray_ok by (rewrite L4; reflexivity). cbv beta iota.
  rewrite getIntArray_ok by (rewrite L5; reflexivity). cbv beta iota.
  rewrite getByteArray_ok by (rewrite L6; reflexivity). cbv beta iota.
  cbn [Serializer.getBool]. cbv beta iota.
  rewrite getByteArray_ok by (rewrite L7; reflexivity). cbv beta iota.
  rewrite getIntArray_ok by (rewrite L8; reflexivity). cbv beta iota.
  rewrite getIntArray_ok by (rewrite L9; reflexivity). cbv beta iota.
  rewrite getShortArray_ok by (rewrite L10; reflexivity). cbv beta iota.
  cbn [Serializer.getInt Serializer.getLong Serializer.getDouble]. cbv beta iota.
  reflexivity.
Qed.

Lemma restored_same s : restored s s = s.
Proof. destruct s. reflexivity. Qed.

Lemma save_restored s t : save (restored s t) = save s.
Proof. reflexivity. Qed.

Lemma shape_restored s t :
  shape (restored s t) = (fst (fst (fst (shape s))), myBankOffset s, myBankLocked t, pages t).
Proof. reflexivity. Qed.

Lemma shiftr12_aligned k : 0 <= k < 16 -> u16 (Z.shiftl (u16 (Z.shiftr (4096 * k) 12)) 12) = 4096 * k.
Proof.
  intros Hk. rewrite Z.shiftr_div_pow2 by lia. change (2 ^ 12) with 4096.
  rewrite Z.mul_comm, Z.div_mul by lia.
  rewrite Z.shiftl_mul_pow2 by lia. change (2 ^ 12) with 4096.
  unfold u16. rewrite (Z.mod_small k) by lia. rewrite Z.mod_small by lia. lia.
Qed.

Lemma tl_save_bank b x : tl (save (snd (bank b x))) = tl (save x).
Proof. unfold bank. destruct (myBankLocked x); reflexivity. Qed.

Lemma save_eq a b :
  myBankOffset a = myBankOffset b -> tl (save a) = tl (save b) -> save a = save b.
Proof. unfold save. cbn [tl]. intros -> ->. reflexivity. Qed.

(** Loading the state saved at [s] into an unlocked [t] restores every
    persisted member and re-derives the pages of [s]. *)
Lemma dpc_load_reconstructs s0 s t :
  Inv s0 s -> Inv s0 t -> myBankLocked t = false ->
  exists t',
    load (save s) t = (true, t') /\ Inv s0 t' /\ save t' = save s /\ pages t' = pages s.
Proof.
  intros Hs Ht Hl. pose proof Hs as (Ls & (k & Hk & Ek) & Bs & Fs).
  pose proof Ht as (Lt & _ & _ & Ft).
  unfold shape in Ls, Lt, Bs, Fs, Ft.
  unfold load. rewrite load_members_save by exact Ls.
  set (x := restored s t).
  assert (Hlx : myBankLocked x = false) by exact Hl.
  assert (Hox : myBankOffset x = myBankOffset s) by reflexivity.
  destruct (dpc_bank_unlocked (Z.shiftr (myBankOffset x) 12) s0 x Hlx Ft) as (E & B & F).
  set (t' := snd (bank (Z.shiftr (myBankOffset x) 12) x)) in *.
  assert (Eo : myBankOffset t' = myBankOffset s).
  { rewrite E, Hox, Ek. apply shiftr12_aligned, Hk. }
  exists t'. split; [reflexivity|]. split; [|split].
  - unfold Inv, t'. rewrite (bank_shape_unlocked _ x Hlx). fold t'.
    unfold x at 1. rewrite shape_restored. cbn [fst shape_ok].
    split; [exact Ls|]. split; [exists k; split; [exact Hk|congruence]|]. auto.
  - apply save_eq; [exact Eo|]. unfold t'. rewrite tl_save_bank. reflexivity.
  - apply map_eq. intros p. destruct (decide (66 <= p < 128)) as [Hp|Hp].
    + rewrite B, Bs by assumption. rewrite Eo. reflexivity.
    + rewrite F, Fs by assumption. reflexivity.
Qed.

(** Saving and loading on the spot changes nothing but [myBankChanged]. *)
Lemma dpc_load_save_same s0 s :
  Inv s0 s ->
  load (save s) s
  = (true, set_myBankChanged (myBankChanged s || negb (myBankLocked s)) s).
Proof.
  intros Hs. pose proof Hs as (Ls & (k & Hk & Ek) & Bs & Fs).
  unfold shape in Ls, Bs, Fs.
  unfold load. rewrite load_members_save by exact Ls. rewrite restored_same.
  destruct (myBankLocked s) eqn:Hl.
  - rewrite dpc_bank_locked by assumption. cbn [snd negb]. rewrite orb_false_r.
    f_equal. destruct s; reflexivity.
  - cbn [negb]. rewrite orb_true_r. f_equal.
    destruct (dpc_bank_unlocked (Z.shiftr (myBankOffset s) 12) s0 s Hl Fs) as (E & B & F).
    assert (Ep : pages (snd (bank (Z.shiftr (myBankOffset s) 12) s)) = pages s).
    { apply map_eq. intros p. destruct (decide (66 <= p < 128)) as [Hp|Hp].
      - rewrite B, Bs by assumption. rewrite E, Ek, shiftr12_aligned by assumption.
        reflexivity.
      - rewrite F, Fs by assumption. reflexivity. }
    rewrite Ek, shiftr12_aligned in E by assumption. rewrite <- Ek in E.
    revert E Ep. unfold bank. rewrite Hl. cbn [snd].
    cbn [myBankOffset pages set_myBankChanged set_pages_of set_myBankOffset].
    intros -> ->. destruct s; reflexivity.
Qed.

(** States reachable from the installed state [s0]; [poke] counts when it
    returns, and a state is loaded with the cartridge unlocked. *)
Inductive reach (s0 : t) : t -> Prop :=
| reach_install : reach s0 s0
| reach_peek sysCycles address s : reach s0 s -> reach s0 (snd (peek sysCycles address s))
| reach_poke sysCycles address value s b s' :
    reach s0 s -> poke sysCycles address value s = Ret (b, s') -> reach s0 s'
| reach_bank b s : reach s0 s -> reach s0 (snd (bank b s))
| reach_patch address value s : reach s0 s -> reach s0 (snd (patch address value s))
| reach_reset startBank s : reach s0 s -> reach s0 (reset startBank s)
| reach_lock b s : reach s0 s -> reach s0 (set_myBankLocked b s)
| reach_load s t :
    reach s0 s -> reach s0 t -> myBankLocked t = false ->
    reach s0 (snd (load (save s) t)).

Lemma dpc_reach_inv s0 s : Inv s0 s0 -> reach s0 s -> Inv s0 s.
Proof.
  intros H0. induction 1 as [|c a s _ IH|c a v s b s' _ IH Hp|b s _ IH|a v s _ IH
                            |sb s _ IH|b s _ IH|s t _ IHs _ IHt Hl].
  - exact H0.
  - apply dpc_peek_inv, IH.
  - eapply dpc_poke_inv; eassumption.
  - apply dpc_bank_inv, IH.
  - apply patch_inv, IH.
  - apply dpc_reset_inv, IH.
  - destruct IH as (L & K & B & F). unfold Inv, shape in *. cbn [shape_ok] in *. auto.
  - destruct (dpc_load_reconstructs s0 s t IHs IHt Hl) as (t' & E & I & _).
    rewrite E. exact I.
Qed.

(** [peek] does not look at [myBankChanged]. *)
Lemma dpc_peek_ignores_changed sysCycles address v s :
  fst (peek sysCycles address (set_myBankChanged v s)) = fst (peek sysCycles address s).
Proof.
  unfold peek.
  change (myBankLocked (set_myBankChanged v s)) with (myBankLocked s).
  change (myProgramImage (set_myBankChanged v s)) with (myProgramImage s).
  change (myBankOffset (set_myBankChanged v s)) with (myBankOffset s).
  change (myFastFetch (set_myBankChanged v s)) with (myFastFetch s).
  change (myLDAimmediate (set_myBankChanged v s)) with (myLDAimmediate s).
  destruct (myBankLocked s); [reflexivity|].
  match goal with |- context [if ?c then _ else _] => destruct c end; [|reflexivity].
  destruct s. unfold updateMusicModeDataFetchers.
  cbn [myTops myCounters myBottoms myRandomNumber myAudioCycles myFractionalClocks
       myMusicCounters myMusicFrequencies myMusicWaveforms myFractionalCounters
       myFractionalIncrements myDPCRAM myDisplayImage
       set_myLDAimmediate set_myBankChanged set_myRandomNumber set_myAudioCycles
       set_myFractionalClocks set_myMusicCounters set_myCounters set_myFractionalCounters].
  repeat case_match; try reflexivity.
Qed.

(** What [peek] leaves behind depends on [myBankChanged] in that flag only. *)
Lemma dpc_peek_modulo_changed sysCycles address v w s :
  set_myBankChanged w (snd (peek sysCycles address (set_myBankChanged v s)))
  = set_myBankChanged w (snd (peek sysCycles address s)).
Proof.
  unfold peek.
  change (myBankLocked (set_myBankChanged v s)) with (myBankLocked s).
  change (myProgramImage (set_myBankChanged v s)) with (myProgramImage s).
  change (myBankOffset (set_myBankChanged v s)) with (myBankOffset s).
  change (myFastFetch (set_myBankChanged v s)) with (myFastFetch s).
  change (myLDAimmediate (set_myBankChanged v s)) with (myLDAimmediate s).
  destruct (myBankLocked s) eqn:Hl; [destruct s; reflexivity|].
  match goal with |- context [if ?c then _ else _] => destruct c end.
  - destruct s. unfold updateMusicModeDataFetchers.
    cbn [myTops myCounters myBottoms myRandomNumber myAudioCycles myFractionalClocks
         myMusicCounters myMusicFrequencies myMusicWaveforms myFractionalCounters
         myFractionalIncrements myDPCRAM myDisplayImage
         set_myLDAimmediate set_myBankChanged set_myRandomNumber set_myAudioCycles
         set_myFractionalClocks set_myMusicCounters set_myCounters set_myFractionalCounters].
    repeat case_match; try reflexivity.
  - assert (Hsw : forall a x, myBankLocked x = false ->
              set_myBankChanged w (switchBanks a (set_myBankChanged v x))
              = set_myBankChanged w (switchBanks a x)
              /\ myFastFetch (switchBanks a (set_myBankChanged v x))
                 = myFastFetch (switchBanks a x)).
    { intros a x Hx. destruct x. cbn in Hx. subst. unfold switchBanks, bank.
      cbn [myBankLocked set_myBankChanged].
      repeat case_match; split; reflexivity. }
    match goal with |- context [switchBanks ?a (set_myLDAimmediate false s)] =>
      destruct (Hsw a (set_myLDAimmediate false s)) as [E1 E2]; [destruct s; exact Hl|]
    end.
    change (set_myLDAimmediate false (set_myBankChanged v s))
      with (set_myBankChanged v (set_myLDAimmediate false s)).
    cbv zeta. rewrite E2.
    match goal with |- context [if ?c then _ else _] => destruct c end; cbn [snd].
    + assert (Hc : forall b x y, set_myBankChanged w x = set_myBankChanged w y ->
                set_myBankChanged w (set_myLDAimmediate b x)
                = set_myBankChanged w (set_myLDAimmediate b y)).
      { intros b x y Hxy.
        change (set_myLDAimmediate b (set_myBankChanged w x)
                = set_myLDAimmediate b (set_myBankChanged w y)).
        rewrite Hxy. reflexivity. }
      apply Hc, E1.
    + exact E1.
Qed.

(** The bytes returned by a sequence of peeks, each at its system cycle. *)
Fixpoint peeks (accesses : list (Z * Z)) (s : t) : list Z :=
  match accesses with
  | [] => []
  | (sysCycles, address) :: rest =>
      fst (peek sysCycles address s) :: peeks rest (snd (peek sysCycles address s))
  end.

Lemma dpc_peeks_ignore_changed accesses :
  forall v s, peeks accesses (set_myBankChanged v s) = peeks accesses s.
Proof.
  induction accesses as [|[c a] rest IH]; intros v s; [reflexivity|].
  cbn [peeks]. rewrite dpc_peek_ignores_changed. f_equal.
  rewrite <- (IH false (snd (peek c a (set_myBankChanged v s)))).
  rewrite <- (IH false (snd (peek c a s))).
  rewrite dpc_peek_modulo_changed. reflexivity.
Qed.

(** **** Further properties of the scheme *)







(** X20.  A failing ARM call surfaces through the poke that made it.  A
    write of 254 or 255 to CALLFUNCTION (0x5A) runs the ARM code; when
    the run reports an error, the poke throws with the message of that
    error, unless the System is in autodetect mode, where the error is
    swallowed and the poke returns false as ever. *)
Theorem failing_arm_call_is_raised (sysCycles value : Z) (msg : string) (s : t) :
  value = 254 \/ value = 255 ->
  let r := thumb_run (s32 (sysCycles - myARMCycles s)) (myImage s) (myDPCRAM s)
                     (myThumbEmulator s) in
  snd r = Some msg ->
  poke sysCycles 0x005A value s
  = if autodetectMode
    then Ret (false, set_myDPCRAM (snd (fst r))
                       (set_myThumbEmulator (fst (fst r)) (set_myARMCycles sysCycles s)))
    else Throw msg.
Proof using Type.
  intros Hv r Hr. unfold poke. cbv zeta.
  change (Z.land (u16 0x005A) 0x0FFF) with 0x005A.
  change ((0x0028 <=? 0x005A) && (0x005A <? 0x0080)) with true. cbv iota.
  assert (Hu : u8 value = value) by (destruct Hv; subst; reflexivity).
  rewrite Hu. unfold pokeRegister.
  change (Z.land 0x005A 0x07) with 2.
  change (Z.land (Z.shiftr (0x005A - 0x28) 3) 0x0f) with 6. cbv zeta iota beta.
  assert (Hcall : callFunction sysCycles value s = callARM sysCycles s)
    by (destruct Hv; subst; reflexivity).
  rewrite Hcall. unfold callARM. cbv zeta.
  cbn [myImage myDPCRAM myThumbEmulator set_myARMCycles]. fold r. rewrite Hr.
  destruct autodetectMode; reflexivity.
Qed.


(** X24.  A patched ROM byte is the byte read.  Patching an address from
    0x080 on (of the 4K window) stores the value in the current bank of
    the program image and sets the bank-changed flag, and a peek at that
    address then returns the value: always when the cartridge is locked,
    and otherwise unless fast fetch takes the byte for the operand of an
    LDA and redirects the read to a data fetcher. *)
Theorem patched_byte_is_peeked (sysCycles address value : Z) (s : t) :
  let a := Z.land (u16 address) 0x0FFF in
  0x0080 <= a ->
  0 <= 0xC00 + (myBankOffset s + a) < Z.of_nat (length (myImage s)) ->
  myBankLocked s = true \/ myFastFetch s && myLDAimmediate s = false
  \/ 0x28 <= u8 value ->
  fst (patch address value s) = true /\
  myBankChanged (snd (patch address value s)) = true /\
  myImage (snd (patch address value s))
  = wr (myImage s) (0xC00 + (myBankOffset s + a)) (u8 value) /\
  fst (peek sysCycles address (snd (patch address value s))) = u8 value.
Proof using Type.
  intros a Ha Hin Hcase.
  assert (Haa : Z.land a 0x0FFF = a).
  { unfold a. rewrite <- Z.land_assoc. reflexivity. }
  set (s' := set_myBankChanged true
               (set_myProgramImage (myBankOffset s + a) (u8 value) s)).
  assert (Hp : patch address value s = (true, s')).
  { unfold patch. cbv zeta. fold a. rewrite Haa.
    destruct (Z.leb_spec 0x0080 a); [reflexivity|lia]. }
  rewrite Hp. cbn [fst snd].
  split; [reflexivity|]. split; [reflexivity|]. split; [reflexivity|].
  assert (Hv : myProgramImage s' (myBankOffset s' + a) = u8 value).
  { unfold myProgramImage.
    change (myImage s') with (wr (myImage s) (0xC00 + (myBankOffset s + a)) (u8 value)).
    change (myBankOffset s') with (myBankOffset s). apply rd_wr_eq. exact Hin. }
  unfold peek. cbv zeta. fold a. rewrite Hv.
  change (myBankLocked s') with (myBankLocked s).
  change (myFastFetch s') with (myFastFetch s).
  change (myLDAimmediate s') with (myLDAimmediate s).
  destruct (myBankLocked s) eqn:Hl; [reflexivity|].
  assert (Hsel : (if myFastFetch s && myLDAimmediate s
                  then (if u8 value <? 0x0028 then u8 value else a) else a) = a).
  { destruct Hcase as [Hc|[Hc|Hc]]; [discriminate|rewrite Hc; reflexivity|].
    destruct (myFastFetch s && myLDAimmediate s); [|reflexivity].
    destruct (Z.ltb_spec (u8 value) 0x0028); [lia|reflexivity]. }
  rewrite Hsel. destruct (Z.ltb_spec a 0x0028); [lia|]. reflexivity.
Qed.

End Cartridge.

Lemma peek_locked_reads_rom_only_witness :
  let s := set_myBankLocked unit true
             (install unit ∅ (reset unit 5 (CartridgeDPCPlus unit [] 0 false tt))) in
  peek unit (fun c f => (0, f)) 0 0x1FF6 s = (0, s).
Proof.
  intros s.
  rewrite (peek_locked_reads_rom_only unit (fun c f => (0, f)) 0 0x1FF6 s eq_refl).
  reflexivity.
Defined.



Lemma failing_arm_call_is_raised_witness :
  let s := CartridgeDPCPlus unit [] 0 false tt in
  poke unit (fun _ _ ram th => (th, ram, Some "undefined instruction"%string)) false
       0 0x005A 255 s
  = Throw "undefined instruction".
Proof.
  intros s.
  apply (failing_arm_call_is_raised unit
           (fun _ _ ram th => (th, ram, Some "undefined instruction"%string)) false
           0 255 "undefined instruction" s); [right; reflexivity|reflexivity].
Defined.


Lemma patched_byte_is_peeked_witness :
  let s := CartridgeDPCPlus unit [] 0 false tt in
  fst (peek unit (fun c f => (0, f)) 0 0x1234
         (snd (patch unit 0x1234 0xEA s))) = 0xEA.
Proof.
  intros s.
  destruct (patched_byte_is_peeked unit (fun c f => (0, f)) 0 0x1234 0xEA s)
    as (_ & _ & _ & H);
    [vm_compute; discriminate|vm_compute; split; [discriminate|reflexivity]
    |right; left; reflexivity|exact H].
Defined.

End DPCPlus.

Module E3Plus.
Import System.

(** *** src/emucore/Cart3EPlus.cxx

    Modelled from the spec: the constants of Cart3EPlus.hxx, which is not
    among the sources.  Their values follow the scheme as the
    specification and the comments of the source describe it: eight
    512-byte sub-banks in 4K, ROM banks of 1K mapped as two halves, RAM
    banks of 512 bytes with a read and a write port 0x200 apart, the
    segment in bits D6 and D7 of the value written, a 6-bit bank number,
    and two flag bits above the byte written that record the half and the
    ROM/RAM kind in the bank-in-use table. *)

Definition BANK_SWITCH_HOTSPOT_RAM : Z := 0x3E.
Definition BANK_SWITCH_HOTSPOT_ROM : Z := 0x3F.
Definition BANK_BITS : Z := 6.
Definition BIT_BANK_MASK : Z := 0x3F.
Definition BITMASK_LOWERUPPER : Z := 0x100.
Definition BITMASK_ROMRAM : Z := 0x200.
Definition RAM_BANK_TO_POWER : Z := 9.
Definition RAM_BANK_SIZE : Z := 512.
Definition BITMASK_RAM_BANK : Z := 511.
Definition RAM_TOTAL_SIZE : Z := 32768.
Definition ROM_BANK_TO_POWER : Z := 10.
Definition ROM_BANK_SIZE : Z := 1024.
Definition RAM_WRITE_OFFSET : Z := 0x200.

Record t : Type := mk {
  mySize : Z;                 (* uInt32 *)
  myImage : list Z;           (* ByteBuffer *)
  myRAM : list Z;             (* uInt8[RAM_TOTAL_SIZE] *)
  bankInUse : list Z;         (* 16-bit entries, one per 512-byte slot *)
  myStartBank : Z;
  myBankLocked : bool;
  myBankChanged : bool;
  pages : PageTable
}.

Definition set_myRAM (v : list Z) (s : t) : t :=
  mk (mySize s) (myImage s) v (bankInUse s) (myStartBank s) (myBankLocked s)
     (myBankChanged s) (pages s).
Definition set_bankInUse (v : list Z) (s : t) : t :=
  mk (mySize s) (myImage s) (myRAM s) v (myStartBank s) (myBankLocked s)
     (myBankChanged s) (pages s).
Definition set_myStartBank (v : Z) (s : t) : t :=
  mk (mySize s) (myImage s) (myRAM s) (bankInUse s) v (myBankLocked s)
     (myBankChanged s) (pages s).
Definition set_myBankLocked (v : bool) (s : t) : t :=
  mk (mySize s) (myImage s) (myRAM s) (bankInUse s) (myStartBank s) v
     (myBankChanged s) (pages s).
Definition set_myBankChanged (v : bool) (s : t) : t :=
  mk (mySize s) (myImage s) (myRAM s) (bankInUse s) (myStartBank s) (myBankLocked s)
     v (pages s).
Definition set_pages_of (v : PageTable) (s : t) : t :=
  mk (mySize s) (myImage s) (myRAM s) (bankInUse s) (myStartBank s) (myBankLocked s)
     (myBankChanged s) v.

(** The 512-byte slot of an address lies in its 1K segment. *)
Lemma half_slot a n :
  0 <= a < 65536 -> Z.land (Z.shiftr a 10) 3 = n ->
  Z.land (Z.shiftr a RAM_BANK_TO_POWER) 7 = 2 * n \/
  Z.land (Z.shiftr a RAM_BANK_TO_POWER) 7 = 2 * n + 1.
Proof.
  intros Ha Hn. unfold RAM_BANK_TO_POWER.
  change 7 with (Z.ones 3). change 3 with (Z.ones 2) in Hn.
  rewrite Z.land_ones, Z.shiftr_div_pow2 in Hn by lia.
  rewrite Z.land_ones, Z.shiftr_div_pow2 by lia.
  change (2 ^ 9) with 512. change (2 ^ 10) with 1024 in Hn.
  change (2 ^ 3) with 8. change (2 ^ 2) with 4 in Hn.
  replace (a / 1024) with (a / 512 / 2) in Hn by (rewrite Z.div_div by lia; reflexivity).
  revert Hn. generalize (a / 512). intros q Hn. Z.div_mod_to_equations. lia.
Qed.

Section Cartridge.

(** The marker of a slot nothing has been mapped into.  Its value is
    declared in the absent header; it lies outside the codes the bank
    switches record. *)
Variable BANK_UNDEFINED : Z.

(** [Cartridge::peekRAM(dest, address)] of the absent base class, as for
    the M-Network cartridge. *)
Variable peekRAM : bool -> Z -> Z -> Z * Z.

(** Cartridge3EPlus::Cartridge3EPlus *)
Definition Cartridge3EPlus (image : list Z) (size : Z) : t :=
  {| mySize := u32 size;
     myImage := take (Z.to_nat (u32 size)) image;
     myRAM := replicate (Z.to_nat RAM_TOTAL_SIZE) 0;
     bankInUse := replicate 8 0;
     myStartBank := 0; myBankLocked := false; myBankChanged := true;
     pages := ∅ |}.

(** Cartridge3EPlus::getBank *)
Definition getBank (addr : Z) (s : t) : Z :=
  rd (bankInUse s) (Z.shiftr (Z.land (u16 addr) 0xFFF) 10).

(** Cartridge3EPlus::bankCount *)
Definition bankCount (s : t) : Z := u16 (Z.shiftr (mySize s) 10).

(** The locals [bankNumber] and [upper] of the slot functions. *)
Definition bankNumberOf (bank : Z) : Z := Z.land (Z.shiftr bank BANK_BITS) 3.
Definition upperOf (bank : Z) : bool := nz (Z.land bank BITMASK_LOWERUPPER).

(** The slot of the bank-in-use table a recorded code belongs to. *)
Definition slotOf (bank : Z) : Z :=
  bankNumberOf bank * 2 + (if upperOf bank then 1 else 0).

(** The page descriptor Cartridge3EPlus::bankRAMSlot installs at [addr]. *)
Definition ramSlotAccess (size bank addr : Z) : PageAccess :=
  let currentBank := Z.land bank BIT_BANK_MASK in
  let upper := upperOf bank in
  let startCurrentBank := Z.shiftl currentBank RAM_BANK_TO_POWER in
  let access := newPageAccess READ in
  let access := set_type (if upper then WRITE else READ) access in
  let access :=
    if negb upper
    then set_directPeekBase
           (Some (RamData, startCurrentBank + Z.land addr (RAM_BANK_SIZE - 1))) access
    else access in
  set_codeAccessBase
    (Some (size + startCurrentBank + Z.land addr (RAM_BANK_SIZE - 1))) access.

(** The locals [start] and [end] of Cartridge3EPlus::bankRAMSlot. *)
Definition ramSlotStart (bank : Z) : Z :=
  u16 (0x1000 + Z.shiftl (bankNumberOf bank) (RAM_BANK_TO_POWER + 1)
       + (if upperOf bank then RAM_WRITE_OFFSET else 0)).
Definition ramSlotEnd (bank : Z) : Z := u16 (ramSlotStart bank + RAM_BANK_SIZE - 1).

(** Cartridge3EPlus::bankRAMSlot *)
Definition bankRAMSlot (bank : Z) (s : t) : t :=
  let bank := u16 bank in
  let s :=
    if upperOf bank
    then set_bankInUse (wr (bankInUse s) (bankNumberOf bank * 2 + 1) bank) s
    else set_bankInUse (wr (bankInUse s) (bankNumberOf bank * 2) bank) s in
  set_pages_of (set_pages (ramSlotAccess (mySize s) bank)
                          (ramSlotStart bank) (ramSlotEnd bank + 1) (pages s)) s.

(** Cartridge3EPlus::bankRAM *)
Definition bankRAM (bank : Z) (s : t) : bool * t :=
  let bank := u8 bank in
  if myBankLocked s then (false, s)
  else
    let s := bankRAMSlot (Z.lor (Z.lor bank BITMASK_ROMRAM) 0) s in
    let s := bankRAMSlot (Z.lor (Z.lor bank BITMASK_ROMRAM) BITMASK_LOWERUPPER) s in
    (true, set_myBankChanged true s).

(** The page descriptor Cartridge3EPlus::bankROMSlot installs at [addr]. *)
Definition romSlotAccess (bank addr : Z) : PageAccess :=
  let currentBank := Z.land bank BIT_BANK_MASK in
  let startCurrentBank := Z.shiftl currentBank ROM_BANK_TO_POWER in
  let access := newPageAccess READ in
  let access := set_directPeekBase
                  (Some (ImageData, startCurrentBank + Z.land addr (ROM_BANK_SIZE - 1)))
                  access in
  set_codeAccessBase (Some (startCurrentBank + Z.land addr (ROM_BANK_SIZE - 1))) access.

(** The locals [start] and [end] of Cartridge3EPlus::bankROMSlot. *)
Definition romSlotStart (bank : Z) : Z :=
  u16 (0x1000 + Z.shiftl (bankNumberOf bank) ROM_BANK_TO_POWER
       + (if upperOf bank then ROM_BANK_SIZE / 2 else 0)).
Definition romSlotEnd (bank : Z) : Z := u16 (romSlotStart bank + ROM_BANK_SIZE / 2 - 1).

(** Cartridge3EPlus::bankROMSlot *)
Definition bankROMSlot (bank : Z) (s : t) : t :=
  let bank := u16 bank in
  let s := set_bankInUse
             (wr (bankInUse s)
                 (bankNumberOf bank * 2 + (if upperOf bank then 1 else 0)) bank) s in
  set_pages_of (set_pages (romSlotAccess bank)
                          (romSlotStart bank) (romSlotEnd bank + 1) (pages s)) s.

(** Cartridge3EPlus::bankROM *)
Definition bankROM (bank : Z) (s : t) : bool * t :=
  let bank := u8 bank in
  if myBankLocked s then (false, s)
  else
    let s := bankROMSlot (Z.lor bank 0) s in
    let s := bankROMSlot (Z.lor bank BITMASK_LOWERUPPER) s in
    (true, set_myBankChanged true s).

(** The locals [start] and [end] of the loop of
    Cartridge3EPlus::initializeBankState for an undefined slot. *)
Definition undefinedSlotStart (b : Z) : Z := u16 (0x1000 + Z.shiftl b RAM_BANK_TO_POWER).
Definition undefinedSlotEnd (b : Z) : Z := u16 (undefinedSlotStart b + RAM_BANK_SIZE - 1).

(** One iteration of the loop of Cartridge3EPlus::initializeBankState. *)
Definition initializeSlot (s : t) (b : Z) : t :=
  if rd (bankInUse s) b =? BANK_UNDEFINED then
    set_pages_of (set_pages (fun _ => newPageAccess READ)
                            (undefinedSlotStart b) (undefinedSlotEnd b + 1) (pages s)) s
  else if nz (Z.land (rd (bankInUse s) b) BITMASK_ROMRAM) then
    bankRAMSlot (rd (bankInUse s) b) s
  else
    bankROMSlot (rd (bankInUse s) b) s.

(** Cartridge3EPlus::initializeBankState *)
Definition initializeBankState (s : t) : t :=
  foldl initializeSlot s [0; 1; 2; 3; 4; 5; 6; 7].

(** Cartridge3EPlus::install *)
Definition install (pt : PageTable) (s : t) : t :=
  let pt := set_pages (fun _ => newPageAccess READWRITE) 0x00 0x40 pt in
  let s := set_pages_of pt s in
  let s := set_bankInUse (replicate 8 BANK_UNDEFINED) s in
  let s := initializeBankState s in
  let s := snd (bankROM (Z.lor (Z.shiftl 0 BANK_BITS) 0) s) in
  snd (bankROM (Z.lor (Z.shiftl 3 BANK_BITS) 0) s).

(** Cartridge3EPlus::reset; [ram] is the RAM initializeRAM leaves, and
    [startBank] the bank initializeStartBank(0) settles on. *)
Definition reset (ram : list Z) (startBank : Z) (s : t) : t :=
  let s := set_myRAM ram s in
  let s := set_myStartBank startBank s in
  let s := set_bankInUse (replicate 8 BANK_UNDEFINED) s in
  let s := initializeBankState s in
  let s := snd (bankROM (Z.lor (Z.shiftl 0 BANK_BITS) 0) s) in
  snd (bankROM (Z.lor (Z.shiftl 3 BANK_BITS) 0) s).

(** Cartridge3EPlus::peek; [rand] is the value the random generator of the
    System yields next. *)
Definition peek (rand : Z) (address : Z) (s : t) : Z * t :=
  let peekAddress := u16 address in
  let address := Z.land (u16 address) 0x0FFF in
  let bank := Z.land (Z.shiftr address (ROM_BANK_TO_POWER - 1)) 7 in
  let imageBank := rd (bankInUse s) bank in
  if imageBank =? BANK_UNDEFINED then (u8 rand, s)
  else if nz (Z.land imageBank BITMASK_ROMRAM) then
    let ramBank := Z.land imageBank BIT_BANK_MASK in
    let offset := Z.shiftl ramBank RAM_BANK_TO_POWER + Z.land address BITMASK_RAM_BANK in
    let '(value, stored) := peekRAM (myBankLocked s) (rd (myRAM s) offset) peekAddress in
    (value, set_myRAM (wr (myRAM s) offset stored) s)
  else (0, s).

(** Cartridge3EPlus::poke; [tia] is what [mySystem->tia().poke(address,
    value)] returns when it is called. *)
Definition poke (tia : bool) (address value : Z) (s : t) : bool * t :=
  let address := u16 address in
  let value := u8 value in
  let '(changed, s) :=
    if address =? BANK_SWITCH_HOTSPOT_RAM then bankRAM value s
    else if address =? BANK_SWITCH_HOTSPOT_ROM then bankROM value s
    else (false, s) in
  if negb (nz (Z.land address 0x1000)) then
    (changed || tia, s)
  else
    let bankNumber := Z.land (Z.shiftr address RAM_BANK_TO_POWER) 7 in
    let whichBankIsThere := rd (bankInUse s) bankNumber in
    if nz (Z.land whichBankIsThere BITMASK_ROMRAM) then
      let byteOffset := Z.land address BITMASK_RAM_BANK in
      let baseAddress :=
        Z.shiftl (Z.land whichBankIsThere BIT_BANK_MASK) RAM_BANK_TO_POWER + byteOffset in
      (true, set_myRAM (wr (myRAM s) baseAddress value) s)
    else (changed, s).

(** Cartridge3EPlus::patch *)
Definition patch (address value : Z) (s : t) : bool * t := (false, s).

(** Cartridge3EPlus::save *)
Definition save (s : t) : Serializer.stream :=
  [Serializer.ShortArray (bankInUse s); Serializer.ByteArray (myRAM s)].

(** Cartridge3EPlus::load *)
Definition load (st : Serializer.stream) (s : t) : bool * t :=
  match Serializer.getShortArray 8 st with
  | Ret (banks, st) =>
      let s := set_bankInUse banks s in
      match Serializer.getByteArray RAM_TOTAL_SIZE st with
      | Ret (bytes, _) => (true, initializeBankState (set_myRAM bytes s))
      | _ => (false, s)
      end
  | _ => (false, s)
  end.

Lemma bankROM_locked b s : myBankLocked s = true -> bankROM b s = (false, s).
Proof. intros H. unfold bankROM. rewrite H. reflexivity. Qed.

Lemma e3p_bankRAM_locked b s : myBankLocked s = true -> bankRAM b s = (false, s).
Proof. intros H. unfold bankRAM. rewrite H. reflexivity. Qed.

(** **** Save and load: the pages a state should have *)

(** The marker lies beyond every code a bank switch records. *)
Hypothesis BANK_UNDEFINED_outside : 0x3FF < BANK_UNDEFINED.

(** The descriptor of page [p] of a slot that holds the code [c]. *)
Definition slotAccess (size c p : Z) : PageAccess :=
  if c =? BANK_UNDEFINED then newPageAccess READ
  else if nz (Z.land c BITMASK_ROMRAM) then ramSlotAccess size c (PAGE_SIZE * p)
  else romSlotAccess c (PAGE_SIZE * p).

(** Slot [b] covers the eight pages of 0x1000 + 512 b. *)
Definition in_slot (b p : Z) : Prop := 64 + 8 * b <= p < 72 + 8 * b.

Definition code_ok (b c : Z) : Prop :=
  c = BANK_UNDEFINED \/ (0 <= c < 1024 /\ slotOf c = b).

Definition slot_ok (s : t) (b : Z) : Prop :=
  forall p, in_slot b p ->
    pages s !! p = Some (slotAccess (mySize s) (rd (bankInUse s) b) p).

(** What holds whatever the pages of the slots are; [r] is the state whose
    pages outside the cartridge window are kept. *)
Definition base (r s : t) : Prop :=
  length (bankInUse s) = 8%nat /\ length (myRAM s) = Z.to_nat RAM_TOTAL_SIZE /\
  mySize s = mySize r /\
  (forall b, 0 <= b < 8 -> code_ok b (rd (bankInUse s) b)) /\
  (forall p, ~ (64 <= p < 128) -> pages s !! p = pages r !! p).

Definition Inv (r s : t) : Prop :=
  base r s /\ forall b, 0 <= b < 8 -> slot_ok s b.

(** Facts about the codes, checked on every code. *)
Definition codeCheck (c : Z) : bool :=
  (u16 c =? c) && (0 <=? slotOf c) && (slotOf c <? 8)
  && ((if upperOf c then bankNumberOf c * 2 + 1 else bankNumberOf c * 2) =? slotOf c)
  && (romSlotStart c =? PAGE_SIZE * (64 + 8 * slotOf c))
  && (romSlotEnd c + 1 =? PAGE_SIZE * (72 + 8 * slotOf c))
  && (ramSlotStart c =? PAGE_SIZE * (64 + 8 * slotOf c))
  && (ramSlotEnd c + 1 =? PAGE_SIZE * (72 + 8 * slotOf c)).

Definition byteCheck (v : Z) : bool :=
  let r1 := Z.lor v BITMASK_LOWERUPPER in
  let a0 := Z.lor (Z.lor v BITMASK_ROMRAM) 0 in
  let a1 := Z.lor (Z.lor v BITMASK_ROMRAM) BITMASK_LOWERUPPER in
  (Z.lor v 0 =? v) && (v <? 1024) && (r1 <? 1024) && (a0 <? 1024) && (a1 <? 1024)
  && (0 <=? r1) && (0 <=? a0) && (0 <=? a1)
  && negb (nz (Z.land v BITMASK_ROMRAM)) && negb (nz (Z.land r1 BITMASK_ROMRAM))
  && nz (Z.land a0 BITMASK_ROMRAM) && nz (Z.land a1 BITMASK_ROMRAM).

Definition slotCheck (b : Z) : bool :=
  (undefinedSlotStart b =? PAGE_SIZE * (64 + 8 * b))
  && (undefinedSlotEnd b + 1 =? PAGE_SIZE * (72 + 8 * b)).

Lemma check_below (f : Z -> bool) (n : nat) :
  forallb f (map Z.of_nat (seq 0 n)) = true ->
  forall c, 0 <= c < Z.of_nat n -> f c = true.
Proof.
  intros H c Hc. rewrite forallb_forall in H. apply H.
  apply in_map_iff. exists (Z.to_nat c). split; [lia|]. apply in_seq. lia.
Qed.

Lemma codeCheck_ok c : 0 <= c < 1024 -> codeCheck c = true.
Proof. apply (check_below codeCheck 1024). vm_compute. reflexivity. Qed.

Lemma byteCheck_ok v : 0 <= v < 256 -> byteCheck v = true.
Proof. apply (check_below byteCheck 256). vm_compute. reflexivity. Qed.

Lemma slotCheck_ok b : 0 <= b < 8 -> slotCheck b = true.
Proof. apply (check_below slotCheck 8). vm_compute. reflexivity. Qed.

Lemma code_facts c :
  0 <= c < 1024 ->
  u16 c = c /\ 0 <= slotOf c < 8 /\
  (if upperOf c then bankNumberOf c * 2 + 1 else bankNumberOf c * 2) = slotOf c /\
  romSlotStart c = PAGE_SIZE * (64 + 8 * slotOf c) /\
  romSlotEnd c + 1 = PAGE_SIZE * (72 + 8 * slotOf c) /\
  ramSlotStart c = PAGE_SIZE * (64 + 8 * slotOf c) /\
  ramSlotEnd c + 1 = PAGE_SIZE * (72 + 8 * slotOf c).
Proof.
  intros Hc. pose proof (codeCheck_ok c Hc) as H. unfold codeCheck in H.
  repeat (apply andb_prop in H; destruct H as [H ?]).
  repeat match goal with
  | E : (_ =? _) = true |- _ => apply Z.eqb_eq in E
  | E : (_ <=? _) = true |- _ => apply Z.leb_le in E
  | E : (_ <? _) = true |- _ => apply Z.ltb_lt in E
  end.
  auto 10.
Qed.

Lemma byte_facts v :
  0 <= v < 256 ->
  let r1 := Z.lor v BITMASK_LOWERUPPER in
  let a0 := Z.lor (Z.lor v BITMASK_ROMRAM) 0 in
  let a1 := Z.lor (Z.lor v BITMASK_ROMRAM) BITMASK_LOWERUPPER in
  Z.lor v 0 = v /\ 0 <= r1 < 1024 /\ 0 <= a0 < 1024 /\ 0 <= a1 < 1024 /\
  nz (Z.land v BITMASK_ROMRAM) = false /\ nz (Z.land r1 BITMASK_ROMRAM) = false /\
  nz (Z.land a0 BITMASK_ROMRAM) = true /\ nz (Z.land a1 BITMASK_ROMRAM) = true.
Proof.
  intros Hv r1 a0 a1. pose proof (byteCheck_ok v Hv) as H. unfold byteCheck in H.
  fold r1 a0 a1 in H.
  repeat (apply andb_prop in H; destruct H as [H ?]).
  repeat match goal with
  | E : (_ =? _) = true |- _ => apply Z.eqb_eq in E
  | E : (_ <=? _) = true |- _ => apply Z.leb_le in E
  | E : (_ <? _) = true |- _ => apply Z.ltb_lt in E
  | E : negb _ = true |- _ => apply negb_true_iff in E
  end.
  auto 12.
Qed.

Lemma rd_wr_ne a i j v : 0 <= i -> 0 <= j -> i <> j -> rd (wr a i v) j = rd a j.
Proof.
  intros Hi Hj Hne. unfold rd, wr.
  destruct (Z.ltb_spec i 0); [lia|]. destruct (Z.ltb_spec j 0); [lia|].
  rewrite list_lookup_insert_ne by lia. reflexivity.
Qed.

Lemma slotAccess_rom size c p :
  0 <= c < 1024 -> nz (Z.land c BITMASK_ROMRAM) = false ->
  slotAccess size c p = romSlotAccess c (PAGE_SIZE * p).
Proof.
  intros Hc Hr. unfold slotAccess. rewrite Hr.
  destruct (Z.eqb_spec c BANK_UNDEFINED); [lia|reflexivity].
Qed.

Lemma slotAccess_ram size c p :
  0 <= c < 1024 -> nz (Z.land c BITMASK_ROMRAM) = true ->
  slotAccess size c p = ramSlotAccess size c (PAGE_SIZE * p).
Proof.
  intros Hc Hr. unfold slotAccess. rewrite Hr.
  destruct (Z.eqb_spec c BANK_UNDEFINED); [lia|reflexivity].
Qed.

(** The members no bank switch touches. *)
Definition others (s s' : t) : Prop :=
  mySize s' = mySize s /\ myImage s' = myImage s /\ myRAM s' = myRAM s /\
  myStartBank s' = myStartBank s /\ myBankLocked s' = myBankLocked s /\
  myBankChanged s' = myBankChanged s.

Lemma others_refl s : others s s.
Proof. repeat split. Qed.

Lemma others_trans s1 s2 s3 : others s1 s2 -> others s2 s3 -> others s1 s3.
Proof.
  unfold others. intros (?&?&?&?&?&?) (?&?&?&?&?&?). repeat split; congruence.
Qed.

(** Recording the code [c] in its slot and mapping the pages of the slot
    accordingly. *)
Definition slot_written (c : Z) (x y : t) : Prop :=
  others x y /\
  bankInUse y = wr (bankInUse x) (slotOf c) c /\
  forall p, pages y !! p
            = if decide (in_slot (slotOf c) p)
              then Some (slotAccess (mySize x) c p) else pages x !! p.

Lemma bankROMSlot_written c x :
  0 <= c < 1024 -> nz (Z.land c BITMASK_ROMRAM) = false ->
  slot_written c x (bankROMSlot c x).
Proof.
  intros Hc Hr. destruct (code_facts c Hc) as (E1 & Hs & E2 & E3 & E4 & _).
  unfold bankROMSlot. cbv zeta. rewrite E1.
  split; [repeat split|]. split; [reflexivity|].
  intros p. cbn [pages set_pages_of set_bankInUse]. rewrite E3, E4.
  rewrite lookup_set_pages by lia. unfold in_slot.
  repeat case_decide; try lia; [|reflexivity].
  rewrite slotAccess_rom by assumption. reflexivity.
Qed.

Lemma bankRAMSlot_written c x :
  0 <= c < 1024 -> nz (Z.land c BITMASK_ROMRAM) = true ->
  slot_written c x (bankRAMSlot c x).
Proof.
  intros Hc Hr. destruct (code_facts c Hc) as (E1 & Hs & E2 & _ & _ & E3 & E4).
  unfold bankRAMSlot. cbv zeta. rewrite E1.
  assert (Hb : bankInUse (if upperOf c
                then set_bankInUse (wr (bankInUse x) (bankNumberOf c * 2 + 1) c) x
                else set_bankInUse (wr (bankInUse x) (bankNumberOf c * 2) c) x)
               = wr (bankInUse x) (slotOf c) c).
  { rewrite <- E2. destruct (upperOf c); reflexivity. }
  split; [|split].
  - destruct (upperOf c); repeat split.
  - exact Hb.
  - intros p. cbn [pages set_pages_of]. rewrite E3, E4.
    rewrite lookup_set_pages by lia. unfold in_slot.
    repeat case_decide; try lia.
    + rewrite slotAccess_ram by assumption. destruct (upperOf c); reflexivity.
    + destruct (upperOf c); reflexivity.
Qed.

(** A slot written with a code of that slot keeps what holds of the
    state, makes the slot right and leaves the other slots alone. *)
Lemma slot_written_base r c x y :
  0 <= c < 1024 -> slot_written c x y -> base r x ->
  base r y /\ slot_ok y (slotOf c) /\
  (forall b, 0 <= b < 8 -> b <> slotOf c -> slot_ok x b -> slot_ok y b).
Proof.
  intros Hc ((O1 & O2 & O3 & O4 & O5 & O6) & Eb & Ep) (L1 & L2 & Sz & Hcodes & F).
  destruct (code_facts c Hc) as (_ & Hs & _).
  assert (Hrd : rd (bankInUse y) (slotOf c) = c).
  { rewrite Eb. apply rd_wr_eq. lia. }
  split; [|split].
  - split; [rewrite Eb, length_wr; exact L1|]. split; [congruence|]. split; [congruence|].
    split.
    + intros b Hb. destruct (Z.eq_dec b (slotOf c)) as [->|Hne].
      * rewrite Hrd. right. auto.
      * rewrite Eb, rd_wr_ne by lia. apply Hcodes, Hb.
    + intros p Hp. rewrite Ep. unfold in_slot. case_decide; [lia|]. apply F, Hp.
  - intros p Hp. rewrite Ep, Hrd, O1. case_decide; [reflexivity|contradiction].
  - intros b Hb Hne Hok p Hp. rewrite Ep. unfold in_slot in *.
    case_decide; [lia|]. rewrite Hok by exact Hp.
    rewrite Eb, rd_wr_ne, O1 by lia. reflexivity.
Qed.

Lemma slot_written_inv r c x y :
  0 <= c < 1024 -> slot_written c x y -> Inv r x -> Inv r y.
Proof.
  intros Hc Hw (Hb & Hs). destruct (slot_written_base r c x y Hc Hw Hb) as (B & S & O).
  split; [exact B|]. intros b Hb'.
  destruct (Z.eq_dec b (slotOf c)) as [->|Hne]; auto.
Qed.

(** One iteration of initializeBankState re-derives the pages of its slot
    from the code recorded there and changes nothing else. *)
Lemma initializeSlot_spec r x b :
  base r x -> 0 <= b < 8 ->
  let y := initializeSlot x b in
  others x y /\ bankInUse y = bankInUse x /\ base r y /\ slot_ok y b /\
  (forall b', 0 <= b' < 8 -> b' <> b -> slot_ok x b' -> slot_ok y b').
Proof.
  intros Hbase Hb y. pose proof Hbase as (L1 & L2 & Sz & Hcodes & F).
  unfold y, initializeSlot.
  destruct (Z.eqb_spec (rd (bankInUse x) b) BANK_UNDEFINED) as [Eu|Hne].
  - pose proof (slotCheck_ok b Hb) as Hc. unfold slotCheck in Hc.
    apply andb_prop in Hc. destruct Hc as [E1 E2].
    apply Z.eqb_eq in E1, E2. rewrite E1, E2.
    assert (Hp : forall p,
      pages (set_pages_of (set_pages (fun _ => newPageAccess READ)
                 (PAGE_SIZE * (64 + 8 * b)) (PAGE_SIZE * (72 + 8 * b)) (pages x)) x) !! p
      = if decide (in_slot b p) then Some (newPageAccess READ) else pages x !! p).
    { intros p. cbn [pages set_pages_of]. rewrite lookup_set_pages by lia.
      unfold in_slot. repeat case_decide; try lia; reflexivity. }
    split; [repeat split|]. split; [reflexivity|]. split; [|split].
    + split; [exact L1|]. split; [exact L2|]. split; [exact Sz|]. split; [exact Hcodes|].
      intros p Hp'. rewrite Hp. unfold in_slot. case_decide; [lia|]. apply F, Hp'.
    + intros p Hp'. rewrite Hp. case_decide; [|contradiction].
      cbn [mySize bankInUse set_pages_of]. rewrite Eu. unfold slotAccess.
      rewrite Z.eqb_refl. reflexivity.
    + intros b' Hb' Hne Hok p Hp'. rewrite Hp. unfold in_slot in *.
      case_decide; [lia|]. apply Hok, Hp'.
  - destruct (Hcodes b Hb) as [?|[Hc Hslot]]; [contradiction|].
    set (c := rd (bankInUse x) b) in *.
    assert (Hw : slot_written c x
                   (if nz (Z.land c BITMASK_ROMRAM) then bankRAMSlot c x else bankROMSlot c x)).
    { destruct (nz (Z.land c BITMASK_ROMRAM)) eqn:Hr.
      - apply bankRAMSlot_written; assumption.
      - apply bankROMSlot_written; assumption. }
    destruct (slot_written_base r c x _ Hc Hw Hbase) as (B & S & O).
    destruct Hw as (Ho & Eb & _). rewrite Hslot in *.
    split; [exact Ho|]. split; [|split; [exact B|split; [exact S|]]].
    + rewrite Eb. unfold c. apply wr_same. lia.
    + intros b' Hb' Hne'. apply O; assumption.
Qed.

Lemma initializeSlots_spec r l :
  NoDup l -> (forall b, b ∈ l -> 0 <= b < 8) ->
  forall x, base r x ->
  let y := foldl initializeSlot x l in
  others x y /\ bankInUse y = bankInUse x /\ base r y /\
  (forall b, b ∈ l -> slot_ok y b) /\
  (forall b, 0 <= b < 8 -> b ∉ l -> slot_ok x b -> slot_ok y b).
Proof.
  induction l as [|b l IH]; intros Hnd Hr x Hbase y.
  - split; [apply others_refl|]. split; [reflexivity|]. split; [exact Hbase|].
    split; [intros b Hb; inversion Hb|auto].
  - apply NoDup_cons in Hnd. destruct Hnd as [Hnotin Hnd].
    assert (Hb : 0 <= b < 8) by (apply Hr; left).
    destruct (initializeSlot_spec r x b Hbase Hb) as (O1 & E1 & B1 & S1 & K1).
    destruct (IH Hnd (fun b' H => Hr b' (list_elem_of_further _ _ _ H))
                 (initializeSlot x b) B1) as (O2 & E2 & B2 & S2 & K2).
    unfold y. cbn [foldl].
    split; [eapply others_trans; eassumption|]. split; [congruence|].
    split; [exact B2|]. split.
    + intros b' Hb'. apply elem_of_cons in Hb'. destruct Hb' as [->|Hin].
      * apply K2; assumption.
      * apply S2, Hin.
    + intros b' Hb' Hnotin' Hok. apply not_elem_of_cons in Hnotin'.
      destruct Hnotin' as [Hne Hnotin'].
      apply K2; [assumption|assumption|]. apply K1; assumption.
Qed.

(** initializeBankState re-derives the pages of all eight slots. *)
Lemma initializeBankState_spec r x :
  base r x ->
  let y := initializeBankState x in
  others x y /\ bankInUse y = bankInUse x /\ Inv r y.
Proof.
  intros Hbase y.
  assert (Hnd : NoDup [0; 1; 2; 3; 4; 5; 6; 7]).
  { repeat (apply NoDup_cons; split;
            [rewrite ?elem_of_cons, elem_of_nil; lia|]). apply NoDup_nil. constructor. }
  assert (Hr : forall b, b ∈ [0; 1; 2; 3; 4; 5; 6; 7] -> 0 <= b < 8).
  { intros b. rewrite ?elem_of_cons, elem_of_nil. lia. }
  destruct (initializeSlots_spec r _ Hnd Hr x Hbase) as (O & E & B & S & _).
  split; [exact O|]. split; [exact E|]. split; [exact B|].
  intros b Hb. apply S. rewrite ?elem_of_cons, elem_of_nil. lia.
Qed.

Lemma bankROM_inv r v s : Inv r s -> Inv r (snd (bankROM v s)).
Proof.
  intros H. unfold bankROM. destruct (myBankLocked s); [exact H|]. cbn [snd].
  assert (Hv : 0 <= u8 v < 256) by (unfold u8; apply Z.mod_pos_bound; lia).
  destruct (byte_facts (u8 v) Hv) as (E0 & H1 & _ & _ & R0 & R1 & _).
  rewrite E0.
  assert (Inv r (bankROMSlot (Z.lor (u8 v) BITMASK_LOWERUPPER) (bankROMSlot (u8 v) s))) as H'.
  { eapply slot_written_inv; [exact H1|apply bankROMSlot_written; assumption|].
    eapply slot_written_inv; [|apply bankROMSlot_written|exact H]; try assumption; lia. }
  exact H'.
Qed.

Lemma e3p_bankRAM_inv r v s : Inv r s -> Inv r (snd (bankRAM v s)).
Proof.
  intros H. unfold bankRAM. destruct (myBankLocked s); [exact H|]. cbn [snd].
  assert (Hv : 0 <= u8 v < 256) by (unfold u8; apply Z.mod_pos_bound; lia).
  destruct (byte_facts (u8 v) Hv) as (_ & _ & H0 & H1 & _ & _ & R0 & R1).
  assert (Inv r (bankRAMSlot (Z.lor (Z.lor (u8 v) BITMASK_ROMRAM) BITMASK_LOWERUPPER)
                   (bankRAMSlot (Z.lor (Z.lor (u8 v) BITMASK_ROMRAM) 0) s))) as H'.
  { eapply slot_written_inv; [exact H1|apply bankRAMSlot_written; assumption|].
    eapply slot_written_inv; [exact H0|apply bankRAMSlot_written; assumption|exact H]. }
  exact H'.
Qed.

Lemma e3p_set_myRAM_inv r s i v : Inv r s -> Inv r (set_myRAM (wr (myRAM s) i v) s).
Proof.
  intros ((L1 & L2 & Sz & Hcodes & F) & Hs).
  split; [|exact Hs]. split; [exact L1|]. split; [|auto].
  cbn. rewrite length_wr. exact L2.
Qed.

Lemma e3p_peek_inv r rand address s : Inv r s -> Inv r (snd (peek rand address s)).
Proof.
  intros H. unfold peek. repeat case_match; cbn [snd]; try exact H.
  apply e3p_set_myRAM_inv, H.
Qed.

Lemma e3p_poke_inv r tia address value s : Inv r s -> Inv r (snd (poke tia address value s)).
Proof.
  intros H. unfold poke.
  assert (H1 : Inv r (snd (if u16 address =? BANK_SWITCH_HOTSPOT_RAM
                           then bankRAM (u8 value) s
                           else if u16 address =? BANK_SWITCH_HOTSPOT_ROM
                                then bankROM (u8 value) s else (false, s)))).
  { repeat case_match; auto using e3p_bankRAM_inv, bankROM_inv. }
  destruct (if u16 address =? BANK_SWITCH_HOTSPOT_RAM then _ else _) as [changed s1].
  cbn [snd] in H1. repeat case_match; cbn [snd]; try exact H1.
  apply e3p_set_myRAM_inv, H1.
Qed.

Lemma rd_replicate n v b : 0 <= b < Z.of_nat n -> rd (replicate n v) b = v.
Proof.
  intros Hb. unfold rd. destruct (Z.ltb_spec b 0); [lia|].
  rewrite lookup_replicate_2 by lia. reflexivity.
Qed.

(** Forgetting every slot, then the boot-up banks: what install and reset do. *)
Lemma boot_inv r x :
  length (myRAM x) = Z.to_nat RAM_TOTAL_SIZE -> mySize x = mySize r ->
  (forall p, ~ (64 <= p < 128) -> pages x !! p = pages r !! p) ->
  Inv r (snd (bankROM (Z.lor (Z.shiftl 3 BANK_BITS) 0)
           (snd (bankROM (Z.lor (Z.shiftl 0 BANK_BITS) 0)
              (initializeBankState (set_bankInUse (replicate 8 BANK_UNDEFINED) x)))))).
Proof.
  intros L Sz F. apply bankROM_inv, bankROM_inv.
  apply initializeBankState_spec.
  split; [reflexivity|]. split; [exact L|]. split; [exact Sz|]. split; [|exact F].
  intros b Hb. left. cbn [bankInUse set_bankInUse]. apply rd_replicate. lia.
Qed.

Lemma e3p_reset_inv r ram startBank s :
  length ram = Z.to_nat RAM_TOTAL_SIZE -> Inv r s -> Inv r (reset ram startBank s).
Proof.
  intros Hlen ((L1 & L2 & Sz & Hcodes & F) & Hs). unfold reset. cbv zeta.
  apply (boot_inv r (set_myStartBank startBank (set_myRAM ram s))); assumption.
Qed.

Lemma Inv_self r s : Inv r s -> Inv s s.
Proof.
  intros ((L1 & L2 & Sz & Hcodes & F) & Hs).
  split; [|exact Hs]. repeat split; auto.
Qed.

(** The state installed for an image. *)
Definition installed (image : list Z) (size : Z) (pt : PageTable) : t :=
  install pt (Cartridge3EPlus image size).

Lemma e3p_installed_inv image size pt :
  Inv (installed image size pt) (installed image size pt).
Proof.
  unfold installed, install. cbv zeta.
  set (x := set_pages_of (set_pages (fun _ => newPageAccess READWRITE) 0x00 0x40 pt)
                         (Cartridge3EPlus image size)).
  apply (Inv_self x). apply boot_inv.
  - unfold x, Cartridge3EPlus. cbn [myRAM set_pages_of]. apply length_replicate.
  - reflexivity.
  - reflexivity.
Qed.

Lemma e3p_state_eq (a b : t) :
  mySize a = mySize b -> myImage a = myImage b -> myRAM a = myRAM b ->
  bankInUse a = bankInUse b -> myStartBank a = myStartBank b ->
  myBankLocked a = myBankLocked b -> myBankChanged a = myBankChanged b ->
  pages a = pages b -> a = b.
Proof. destruct a, b. cbn. intros. subst. reflexivity. Qed.

Lemma slot_of_page p : 64 <= p < 128 -> exists b, 0 <= b < 8 /\ in_slot b p.
Proof. intros Hp. exists ((p - 64) / 8). unfold in_slot. split; Z.div_mod_to_equations; lia. Qed.

(** The codes and the frame determine the pages. *)
Lemma e3p_pages_determined r s u :
  Inv r s -> Inv r u -> bankInUse u = bankInUse s -> pages u = pages s.
Proof.
  intros ((_ & _ & Sz1 & _ & F1) & S1) ((_ & _ & Sz2 & _ & F2) & S2) E.
  apply map_eq. intros p. destruct (decide (64 <= p < 128)) as [Hp|Hp].
  - destruct (slot_of_page p Hp) as (b & Hb & Hin).
    rewrite (S1 b Hb p Hin), (S2 b Hb p Hin), E, Sz1, Sz2. reflexivity.
  - rewrite F1, F2 by assumption. reflexivity.
Qed.

Lemma e3p_load_save_unfold s u :
  length (bankInUse s) = 8%nat -> length (myRAM s) = Z.to_nat RAM_TOTAL_SIZE ->
  load (save s) u
  = (true, initializeBankState (set_myRAM (myRAM s) (set_bankInUse (bankInUse s) u))).
Proof.
  intros L1 L2. unfold load, save, Serializer.getShortArray.
  rewrite L1. change (Z.of_nat 8 =? 8) with true. cbv iota beta.
  unfold Serializer.getByteArray. rewrite L2, Z2Nat.id by (unfold RAM_TOTAL_SIZE; lia).
  rewrite Z.eqb_refl. reflexivity.
Qed.

(** Loading the state saved at [s] restores the bank-in-use table and the
    RAM and re-derives the pages of [s], locked or not. *)
Lemma e3p_load_reconstructs r s u :
  Inv r s -> Inv r u ->
  exists u',
    load (save s) u = (true, u') /\ Inv r u' /\ save u' = save s /\ pages u' = pages s.
Proof.
  intros Hs Hu. pose proof Hs as ((L1 & L2 & Sz & Hcodes & F) & Ss).
  pose proof Hu as ((M1 & M2 & Sz' & _ & F') & _).
  rewrite e3p_load_save_unfold by assumption.
  set (x := set_myRAM (myRAM s) (set_bankInUse (bankInUse s) u)).
  assert (Hbase : base r x).
  { split; [exact L1|]. split; [exact L2|]. split; [exact Sz'|]. split; [exact Hcodes|exact F']. }
  destruct (initializeBankState_spec r x Hbase) as ((O1 & O2 & O3 & _) & E & I).
  eexists. split; [reflexivity|]. split; [exact I|]. split.
  - unfold save. rewrite E, O3. reflexivity.
  - eapply e3p_pages_determined; [exact Hs|exact I|]. rewrite E. reflexivity.
Qed.

(** Saving and loading on the spot changes nothing at all. *)
Lemma e3p_load_save_same r s : Inv r s -> load (save s) s = (true, s).
Proof.
  intros Hs. pose proof Hs as ((L1 & L2 & Sz & Hcodes & F) & Ss).
  rewrite (e3p_load_save_unfold s s L1 L2). f_equal.
  assert (Hx : set_myRAM (myRAM s) (set_bankInUse (bankInUse s) s) = s)
    by (destruct s; reflexivity).
  rewrite Hx.
  destruct (initializeBankState_spec r s (proj1 Hs)) as ((O1 & O2 & O3 & O4 & O5 & O6) & Eb & I).
  apply e3p_state_eq; try assumption.
  exact (e3p_pages_determined r s _ Hs I Eb).
Qed.

(** States reachable from the installed state [s0]. *)
Inductive reach (s0 : t) : t -> Prop :=
| reach_install : reach s0 s0
| reach_peek rand address s : reach s0 s -> reach s0 (snd (peek rand address s))
| reach_poke tia address value s : reach s0 s -> reach s0 (snd (poke tia address value s))
| reach_bankROM v s : reach s0 s -> reach s0 (snd (bankROM v s))
| reach_bankRAM v s : reach s0 s -> reach s0 (snd (bankRAM v s))
| reach_reset ram startBank s :
    reach s0 s -> length ram = Z.to_nat RAM_TOTAL_SIZE ->
    reach s0 (reset ram startBank s)
| reach_lock b s : reach s0 s -> reach s0 (set_myBankLocked b s)
| reach_load s u : reach s0 s -> reach s0 u -> reach s0 (snd (load (save s) u)).

Lemma e3p_reach_inv s0 s : Inv s0 s0 -> reach s0 s -> Inv s0 s.
Proof.
  intros H0. induction 1 as [|rand a s _ IH|tia a v s _ IH|v s _ IH|v s _ IH
                            |ram sb s _ IH Hlen|b s _ IH|s u _ IHs _ IHu].
  - exact H0.
  - apply e3p_peek_inv, IH.
  - apply e3p_poke_inv, IH.
  - apply bankROM_inv, IH.
  - apply e3p_bankRAM_inv, IH.
  - apply e3p_reset_inv; assumption.
  - exact IH.
  - destruct (e3p_load_reconstructs s0 s u IHs IHu) as (u' & E & I & _).
    rewrite E. exact I.
Qed.


(** **** Further properties of the scheme *)

(** X21.  The page table follows the bank-in-use table.  In every state
    reachable from an installed cartridge (by peeks, pokes, bank switches,
    resets, locking and loading a saved state), each of the eight 512-byte
    slots is mapped as its entry of the table says: undefined, ROM or RAM
    of the recorded bank.  The pages outside the cartridge window are as
    install left them, every entry is the marker or a code of its own
    slot, and the RAM keeps its 32K. *)
Theorem reachable_pages_follow_bank_table
    (image : list Z) (size : Z) (pt : PageTable) (s : t) :
  reach (installed image size pt) s ->
  (forall b p, 0 <= b < 8 -> in_slot b p ->
     pages s !! p = Some (slotAccess (mySize s) (rd (bankInUse s) b) p)) /\
  (forall p, ~ (64 <= p < 128) -> pages s !! p = pages (installed image size pt) !! p) /\
  (forall b, 0 <= b < 8 -> code_ok b (rd (bankInUse s) b)) /\
  length (bankInUse s) = 8%nat /\ length (myRAM s) = Z.to_nat RAM_TOTAL_SIZE.
Proof.
  intros Hreach.
  destruct (e3p_reach_inv _ _ (e3p_installed_inv image size pt) Hreach)
    as ((L1 & L2 & _ & Hcodes & F) & Hs).
  split; [|auto]. intros b p Hb Hp. apply (Hs b Hb p Hp).
Qed.

Definition ramCheck (v : Z) : bool :=
  let a0 := Z.lor (Z.lor v BITMASK_ROMRAM) 0 in
  let a1 := Z.lor (Z.lor v BITMASK_ROMRAM) BITMASK_LOWERUPPER in
  (slotOf a0 =? 2 * Z.shiftr v 6) && (slotOf a1 =? 2 * Z.shiftr v 6 + 1)
  && (Z.land a0 BIT_BANK_MASK =? Z.land v 0x3F)
  && (Z.land a1 BIT_BANK_MASK =? Z.land v 0x3F)
  && (Z.shiftr v 6 <? 4) && (0 <=? Z.shiftr v 6).

Lemma ramCheck_ok v : 0 <= v < 256 -> ramCheck v = true.
Proof using Type. apply (check_below ramCheck 256). vm_compute. reflexivity. Qed.

Lemma bankInUse_bankRAMSlot c x :
  0 <= c < 1024 ->
  bankInUse (bankRAMSlot c x) = wr (bankInUse x) (slotOf c) c /\
  myRAM (bankRAMSlot c x) = myRAM x /\ myBankLocked (bankRAMSlot c x) = myBankLocked x.
Proof using Type.
  intros Hc. destruct (code_facts c Hc) as (E1 & _ & E2 & _).
  unfold bankRAMSlot. cbv zeta. rewrite E1, <- E2.
  destruct (upperOf c); repeat split.
Qed.

(** X22.  A RAM bank switched in is written through either half of its
    segment.  After a write of [v] to the hot spot 0x3E of a cartridge
    that is not locked, RAM bank [v & 0x3F] occupies the 1K segment
    [v >> 6]: a poke at any address [a] of that segment stores the byte
    at [512 (v & 0x3F) + (a & 511)] of the RAM and reports a change, and
    a peek there goes through that same byte.  The switch itself reports
    a change and leaves the RAM alone. *)
Theorem ram_bank_receives_pokes (tia tia' : bool) (rand v a x : Z) (s : t) :
  myBankLocked s = false -> length (bankInUse s) = 8%nat ->
  0 <= v < 256 ->
  Z.land (u16 a) 0x1000 <> 0 ->
  Z.land (Z.shiftr (u16 a) 10) 3 = Z.shiftr v 6 ->
  let s1 := snd (poke tia BANK_SWITCH_HOTSPOT_RAM v s) in
  let offset := 512 * Z.land v 0x3F + Z.land (u16 a) 511 in
  fst (poke tia BANK_SWITCH_HOTSPOT_RAM v s) = true /\
  myRAM s1 = myRAM s /\
  poke tia' a x s1 = (true, set_myRAM (wr (myRAM s1) offset (u8 x)) s1) /\
  peek rand a s1
  = (fst (peekRAM false (rd (myRAM s1) offset) (u16 a)),
     set_myRAM (wr (myRAM s1) offset
                   (snd (peekRAM false (rd (myRAM s1) offset) (u16 a)))) s1).
Proof.
  intros Hl Hlen Hv Hbit Hseg.
  set (a0 := Z.lor (Z.lor v BITMASK_ROMRAM) 0).
  set (a1 := Z.lor (Z.lor v BITMASK_ROMRAM) BITMASK_LOWERUPPER).
  destruct (byte_facts v Hv) as (_ & _ & H0 & H1 & _ & _ & R0 & R1).
  fold a0 in H0, R0. fold a1 in H1, R1.
  pose proof (ramCheck_ok v Hv) as Hc. unfold ramCheck in Hc. fold a0 a1 in Hc.
  repeat (apply andb_prop in Hc; destruct Hc as [Hc ?]).
  repeat match goal with
  | E : (_ =? _) = true |- _ => apply Z.eqb_eq in E
  | E : (_ <=? _) = true |- _ => apply Z.leb_le in E
  | E : (_ <? _) = true |- _ => apply Z.ltb_lt in E
  end.
  set (n := Z.shiftr v 6) in *.
  destruct (bankInUse_bankRAMSlot a0 s H0) as (B0 & M0 & K0).
  destruct (bankInUse_bankRAMSlot a1 (bankRAMSlot a0 s) H1) as (B1 & M1 & K1).
  set (y := set_myBankChanged true (bankRAMSlot a1 (bankRAMSlot a0 s))).
  assert (Hu : u8 v = v) by (unfold u8; apply Z.mod_small; lia).
  assert (Hsw : poke tia BANK_SWITCH_HOTSPOT_RAM v s = (true, y)).
  { unfold poke, bankRAM. change (u16 BANK_SWITCH_HOTSPOT_RAM) with BANK_SWITCH_HOTSPOT_RAM.
    rewrite Z.eqb_refl, !Hu, Hl. reflexivity. }
  rewrite Hsw. cbn [fst snd].
  assert (By : bankInUse y = wr (wr (bankInUse s) (2 * n) a0) (2 * n + 1) a1).
  { change (bankInUse y) with (bankInUse (bankRAMSlot a1 (bankRAMSlot a0 s))).
    rewrite B1, B0. congruence. }
  assert (My : myRAM y = myRAM s).
  { change (myRAM y) with (myRAM (bankRAMSlot a1 (bankRAMSlot a0 s))). congruence. }
  assert (Ky : myBankLocked y = false).
  { change (myBankLocked y) with (myBankLocked (bankRAMSlot a1 (bankRAMSlot a0 s))).
    congruence. }
  assert (Ha : 0 <= u16 a < 65536) by (unfold u16; apply Z.mod_pos_bound; lia).
  assert (Hthere : exists c, rd (bankInUse y) (Z.land (Z.shiftr (u16 a) RAM_BANK_TO_POWER) 7) = c
                             /\ nz (Z.land c BITMASK_ROMRAM) = true
                             /\ Z.land c BIT_BANK_MASK = Z.land v 0x3F /\ 0 <= c < 1024).
  { rewrite By. destruct (half_slot (u16 a) n Ha Hseg) as [E|E]; rewrite E.
    - exists a0. rewrite rd_wr_ne by lia.
      rewrite rd_wr_eq by lia. auto.
    - exists a1. rewrite rd_wr_eq by (rewrite length_wr; lia). auto. }
  destruct Hthere as (c & Ec & Rc & Mc & Hc').
  assert (Hoff : Z.shiftl (Z.land v 0x3F) RAM_BANK_TO_POWER = 512 * Z.land v 0x3F).
  { unfold RAM_BANK_TO_POWER. rewrite Z.shiftl_mul_pow2 by lia. change (2 ^ 9) with 512. lia. }
  split; [reflexivity|]. split; [exact My|]. split.
  - unfold poke. cbv zeta.
    destruct (Z.eqb_spec (u16 a) BANK_SWITCH_HOTSPOT_RAM) as [E|_];
      [exfalso; apply Hbit; rewrite E; reflexivity|].
    destruct (Z.eqb_spec (u16 a) BANK_SWITCH_HOTSPOT_ROM) as [E|_];
      [exfalso; apply Hbit; rewrite E; reflexivity|].
    assert (Hn : negb (nz (Z.land (u16 a) 0x1000)) = false).
    { unfold nz. destruct (Z.eqb_spec (Z.land (u16 a) 0x1000) 0); [contradiction|reflexivity]. }
    rewrite Hn, Ec, Rc, Mc, Hoff. reflexivity.
  - unfold peek. cbv zeta.
    assert (Hsame : Z.land (Z.shiftr (Z.land (u16 a) 0x0FFF) (ROM_BANK_TO_POWER - 1)) 7
                    = Z.land (Z.shiftr (u16 a) RAM_BANK_TO_POWER) 7).
    { unfold ROM_BANK_TO_POWER, RAM_BANK_TO_POWER. change (10 - 1) with 9.
      change 0x0FFF with (Z.ones 12). change 7 with (Z.ones 3).
      rewrite !Z.land_ones, !Z.shiftr_div_pow2 by lia.
      change (2 ^ 9) with 512. change (2 ^ 12) with 4096. change (2 ^ 3) with 8.
      Z.div_mod_to_equations. lia. }
    assert (Hlow : Z.land (Z.land (u16 a) 0x0FFF) BITMASK_RAM_BANK = Z.land (u16 a) 511).
    { unfold BITMASK_RAM_BANK. rewrite <- Z.land_assoc. reflexivity. }
    rewrite Hsame, Ec, Rc, Mc, Hoff, Hlow, Ky.
    destruct (Z.eqb_spec c BANK_UNDEFINED); [lia|].
    destruct (peekRAM false _ _). reflexivity.
Qed.

End Cartridge.

Lemma reachable_pages_follow_bank_table_witness :
  let peekRAM := fun (_ : bool) (v _ : Z) => (v, v) in
  let s := snd (poke false 0x3E 0x41 (installed 0x8000 [] 2048 ∅)) in
  pages s !! 80 = Some (slotAccess 0x8000 (mySize s) (rd (bankInUse s) 2) 80).
Proof.
  intros peekRAM s.
  destruct (reachable_pages_follow_bank_table 0x8000 peekRAM ltac:(lia) [] 2048 ∅ s)
    as (H & _); [apply reach_poke, reach_install|].
  apply H; unfold in_slot; lia.
Defined.

Lemma ram_bank_receives_pokes_witness :
  let s1 := snd (poke false 0x3E 0x41 (Cartridge3EPlus [] 2048)) in
  poke false 0x1605 0xAB s1
  = (true, set_myRAM (wr (myRAM s1) (512 * Z.land 0x41 0x3F + Z.land (u16 0x1605) 511)
                         (u8 0xAB)) s1).
Proof.
  intros s1.
  destruct (ram_bank_receives_pokes 0x8000 (fun _ v _ => (v, v)) ltac:(lia)
              false false 0 0x41 0x1605 0xAB (Cartridge3EPlus [] 2048))
    as (_ & _ & H & _);
    [reflexivity|reflexivity|lia|vm_compute; discriminate|reflexivity|exact H].
Defined.

End E3Plus.

(** * The three schemes side by side *)

Module Cartridges.

(** The Thumbulator stand-in of the examples: it leaves the RAM alone. *)
Definition idle_thumb (cycles : Z) (image ram : list Z) (th : unit)
    : unit * list Z * option string :=
  (th, ram, None).

(** X27 (C5).  Save and load, for each of the three schemes and every state [m],
    [d], [e] reachable from an installed cartridge.  Loading the stream
    saved at a state back into that state succeeds and changes at most the
    bank-changed flag, so every later sequence of peeks returns the same
    bytes.  Loading it into any other reachable state of the same
    cartridge ([mt], [dt], [et]; not bank-locked for M-Network and DPC+)
    succeeds, restores the saved registers and RAM and re-derives exactly
    the page mappings in effect when the stream was saved. *)
Theorem save_load_reconstructs_banks
    (hotspot : Z -> option MNetwork.request) (peekRAM : bool -> Z -> Z -> Z * Z)
    (Thumb : Type)
    (thumb_run : Z -> list Z -> list Z -> Thumb -> Thumb * list Z * option string)
    (autodetectMode : bool) (oscClocks : Z -> Z -> Z * Z)
    (BANK_UNDEFINED : Z)
    (imageM : list Z) (sizeM : Z) (ptM : System.PageTable) (m mt : MNetwork.t)
    (imageD : list Z) (sizeD : Z) (quirk : bool) (th : Thumb) (ptD : System.PageTable)
    (d dt : DPCPlus.t Thumb)
    (imageE : list Z) (sizeE : Z) (ptE : System.PageTable) (e et : E3Plus.t) :
  let m0 := MNetwork.installed imageM sizeM ptM in
  let d0 := DPCPlus.installed Thumb imageD sizeD quirk th ptD in
  let e0 := E3Plus.installed BANK_UNDEFINED imageE sizeE ptE in
  (forall cycles image ram t,
     length (snd (fst (thumb_run cycles image ram t))) = length ram) ->
  0x3FF < BANK_UNDEFINED ->
  MNetwork.reach hotspot peekRAM m0 m ->
  MNetwork.reach hotspot peekRAM m0 mt -> MNetwork.myBankLocked mt = false ->
  DPCPlus.reach Thumb thumb_run autodetectMode oscClocks d0 d ->
  DPCPlus.reach Thumb thumb_run autodetectMode oscClocks d0 dt ->
  DPCPlus.myBankLocked Thumb dt = false ->
  E3Plus.reach BANK_UNDEFINED peekRAM e0 e ->
  E3Plus.reach BANK_UNDEFINED peekRAM e0 et ->
  ((exists v, MNetwork.load (MNetwork.save m) m = (true, MNetwork.set_myBankChanged v m)) /\
   (forall addresses,
      MNetwork.peeks hotspot peekRAM addresses (snd (MNetwork.load (MNetwork.save m) m))
      = MNetwork.peeks hotspot peekRAM addresses m) /\
   (exists m', MNetwork.load (MNetwork.save m) mt = (true, m') /\
      MNetwork.myCurrentSlice m' = MNetwork.myCurrentSlice m /\
      MNetwork.myCurrentRAM m' = MNetwork.myCurrentRAM m /\
      MNetwork.myRAM m' = MNetwork.myRAM m /\
      MNetwork.pages m' = MNetwork.pages m)) /\
  ((exists v, DPCPlus.load Thumb (DPCPlus.save Thumb d) d
              = (true, DPCPlus.set_myBankChanged Thumb v d)) /\
   (forall accesses,
      DPCPlus.peeks Thumb oscClocks accesses
        (snd (DPCPlus.load Thumb (DPCPlus.save Thumb d) d))
      = DPCPlus.peeks Thumb oscClocks accesses d) /\
   (exists d', DPCPlus.load Thumb (DPCPlus.save Thumb d) dt = (true, d') /\
      DPCPlus.save Thumb d' = DPCPlus.save Thumb d /\
      DPCPlus.pages Thumb d' = DPCPlus.pages Thumb d)) /\
  (E3Plus.load BANK_UNDEFINED (E3Plus.save e) e = (true, e) /\
   (exists e', E3Plus.load BANK_UNDEFINED (E3Plus.save e) et = (true, e') /\
      E3Plus.save e' = E3Plus.save e /\
      E3Plus.pages e' = E3Plus.pages e)).
Proof.
  intros m0 d0 e0 Hthumb Hundef Rm Rmt Lmt Rd Rdt Ldt Re Ret.
  assert (Im : MNetwork.Inv m0 m)
    by (eapply MNetwork.reach_inv; [apply MNetwork.installed_inv|exact Rm]).
  assert (Imt : MNetwork.Inv m0 mt)
    by (eapply MNetwork.reach_inv; [apply MNetwork.installed_inv|exact Rmt]).
  assert (Id : DPCPlus.Inv Thumb d0 d)
    by (eapply DPCPlus.dpc_reach_inv; [exact Hthumb|apply DPCPlus.dpc_installed_inv|exact Rd]).
  assert (Idt : DPCPlus.Inv Thumb d0 dt)
    by (eapply DPCPlus.dpc_reach_inv; [exact Hthumb|apply DPCPlus.dpc_installed_inv|exact Rdt]).
  assert (Ie : E3Plus.Inv BANK_UNDEFINED e0 e).
  { eapply E3Plus.e3p_reach_inv; [exact Hundef| |exact Re].
    apply E3Plus.e3p_installed_inv, Hundef. }
  assert (Iet : E3Plus.Inv BANK_UNDEFINED e0 et).
  { eapply E3Plus.e3p_reach_inv; [exact Hundef| |exact Ret].
    apply E3Plus.e3p_installed_inv, Hundef. }
  split; [|split].
  - pose proof (MNetwork.load_save_same m0 m Im) as E.
    split; [eexists; exact E|]. split.
    + intros addresses. rewrite E. cbn [snd]. apply MNetwork.peeks_ignore_changed.
    + destruct (MNetwork.load_reconstructs m0 m mt Im Imt Lmt)
        as (m' & El & _ & E1 & E2 & E3 & E4).
      exists m'. auto.
  - pose proof (DPCPlus.dpc_load_save_same Thumb d0 d Id) as E.
    split; [eexists; exact E|]. split.
    + intros accesses. rewrite E. cbn [snd]. apply DPCPlus.dpc_peeks_ignore_changed.
    + destruct (DPCPlus.dpc_load_reconstructs Thumb d0 d dt Id Idt Ldt)
        as (d' & El & _ & E1 & E2).
      exists d'. auto.
  - split.
    + exact (E3Plus.e3p_load_save_same BANK_UNDEFINED peekRAM Hundef e0 e Ie).
    + destruct (E3Plus.e3p_load_reconstructs BANK_UNDEFINED peekRAM Hundef e0 e et Ie Iet)
        as (e' & El & _ & E1 & E2).
      exists e'. auto.
Qed.

Lemma save_load_reconstructs_banks_witness :
  let hotspot := fun a => if a =? 0x0FE2 then Some (MNetwork.SwitchBank 2) else None in
  let peekRAM := fun (_ : bool) (v _ : Z) => (v, v) in
  let oscClocks := fun (_ f : Z) => (0, f) in
  let m0 := MNetwork.installed [7; 7; 7] 8192 ∅ in
  let m := snd (MNetwork.bank 1 m0) in
  let mt := MNetwork.set_myBankLocked false m0 in
  let d0 := DPCPlus.installed unit [] 0 false tt ∅ in
  let d := snd (DPCPlus.bank unit 2 d0) in
  let dt := DPCPlus.set_myBankLocked unit false d0 in
  let e0 := E3Plus.installed 0x8000 [7; 7; 7] 8192 ∅ in
  let e := snd (E3Plus.bankROM 5 e0) in
  MNetwork.pages (snd (MNetwork.load (MNetwork.save m) mt)) = MNetwork.pages m /\
  DPCPlus.pages unit (snd (DPCPlus.load unit (DPCPlus.save unit d) dt))
  = DPCPlus.pages unit d /\
  E3Plus.pages (snd (E3Plus.load 0x8000 (E3Plus.save e) e0)) = E3Plus.pages e.
Proof.
  intros hotspot peekRAM oscClocks m0 m mt d0 d dt e0 e.
  destruct (save_load_reconstructs_banks hotspot peekRAM unit idle_thumb false oscClocks
              0x8000 [7; 7; 7] 8192 ∅ m mt [] 0 false tt ∅ d dt [7; 7; 7] 8192 ∅ e e0)
    as ((_ & _ & (m' & Em & _ & _ & _ & Pm)) & (_ & _ & (d' & Ed & _ & Pd))
        & (_ & (e' & Ee & _ & Pe))).
  - intros cycles image ram t. reflexivity.
  - lia.
  - apply MNetwork.reach_bank, MNetwork.reach_install.
  - apply MNetwork.reach_lock, MNetwork.reach_install.
  - reflexivity.
  - apply DPCPlus.reach_bank, DPCPlus.reach_install.
  - apply DPCPlus.reach_lock, DPCPlus.reach_install.
  - reflexivity.
  - apply E3Plus.reach_bankROM, E3Plus.reach_install.
  - apply E3Plus.reach_install.
  - split; [|split].
    + exact (eq_trans (f_equal (fun r => MNetwork.pages (snd r)) Em) Pm).
    + exact (eq_trans (f_equal (fun r => DPCPlus.pages unit (snd r)) Ed) Pd).
    + exact (eq_trans (f_equal (fun r => E3Plus.pages (snd r)) Ee) Pe).
Defined.

(** X28 (C6).  A bank switch requested while the cartridge is bank-locked
    returns false and leaves the whole cartridge state as it was: DPC+
    [bank], 3E+ [bankROM] and [bankRAM], M-Network [bank] and (returning
    nothing) [bankRAM]. *)
Theorem locked_bank_switch_is_noop
    (Thumb : Type) (d : DPCPlus.t Thumb) (e : E3Plus.t) (m : MNetwork.t) (b : Z) :
  DPCPlus.myBankLocked Thumb d = true ->
  E3Plus.myBankLocked e = true ->
  MNetwork.myBankLocked m = true ->
  DPCPlus.bank Thumb b d = (false, d) /\
  E3Plus.bankROM b e = (false, e) /\
  E3Plus.bankRAM b e = (false, e) /\
  MNetwork.bank b m = (false, m) /\
  MNetwork.bankRAM b m = m.
Proof.
  intros Hd He Hm.
  split; [apply DPCPlus.dpc_bank_locked, Hd|].
  split; [apply E3Plus.bankROM_locked, He|].
  split; [apply E3Plus.e3p_bankRAM_locked, He|].
  split; [apply MNetwork.bank_locked, Hm|apply MNetwork.bankRAM_locked, Hm].
Qed.

Lemma locked_bank_switch_is_noop_witness :
  let d := DPCPlus.set_myBankLocked unit true (DPCPlus.installed unit [] 0 false tt ∅) in
  let e := E3Plus.set_myBankLocked true (E3Plus.installed 0x8000 [7; 7; 7] 8192 ∅) in
  let m := MNetwork.set_myBankLocked true (MNetwork.installed [7; 7; 7] 8192 ∅) in
  DPCPlus.bank unit 3 d = (false, d) /\
  E3Plus.bankROM 3 e = (false, e) /\
  E3Plus.bankRAM 3 e = (false, e) /\
  MNetwork.bank 3 m = (false, m) /\
  MNetwork.bankRAM 3 m = m.
Proof.
  intros d e m.
  apply (locked_bank_switch_is_noop unit d e m 3); reflexivity.
Defined.

(** A DPC+ poke to the hot spot 0x1FF6 with bank 5 selected switches to
    bank 0 and still returns false: [poke] does not report every change
    of the device. *)
Lemma dpcplus_poke_switches_bank_reports_false :
  let d := DPCPlus.reset unit 5 (DPCPlus.installed unit [] 0 false tt ∅) in
  exists d',
    DPCPlus.poke unit idle_thumb false 0 0x1FF6 0 d = Ret (false, d') /\
    DPCPlus.getBank unit d = 5 /\ DPCPlus.getBank unit d' = 0.
Proof.
  intros d. eexists. split; [reflexivity|]. split; reflexivity.
Qed.



End Cartridges.


(** * The processor core (M6502.cxx) *)

Module M6502.

Definition u64 (x : Z) : Z := x mod 2 ^ 64.

(** Flags for disassembly types, as defined without DEBUGGER_SUPPORT. *)
Definition DISASM_CODE : Z := 0.
Definition DISASM_NONE : Z := 0.

(** Modelled from the spec: DispatchResult, what [execute] hands back to
    its caller: how the run ended, the cycles it took, and the message and
    address that describe a stop.  Every setter records the cycles;
    [setMessage] leaves everything but the message alone. *)
Inductive Status : Type := invalid | ok | debugger | fatal.

Record DispatchResult : Type := {
  myStatus : Status;
  myCycles : Z;
  myMessage : string;
  myAddress : Z
}.

Definition setOk (cycles : Z) (r : DispatchResult) : DispatchResult :=
  {| myStatus := ok; myCycles := cycles; myMessage := myMessage r;
     myAddress := myAddress r |}.

Definition setDebugger (cycles : Z) (message : string) (address : Z)
    (r : DispatchResult) : DispatchResult :=
  {| myStatus := debugger; myCycles := cycles; myMessage := message;
     myAddress := address |}.

Definition setFatal (cycles : Z) (r : DispatchResult) : DispatchResult :=
  {| myStatus := fatal; myCycles := cycles; myMessage := myMessage r;
     myAddress := myAddress r |}.

Definition setMessage (message : string) (r : DispatchResult) : DispatchResult :=
  {| myStatus := myStatus r; myCycles := myCycles r; myMessage := message;
     myAddress := myAddress r |}.

Definition isSuccess (r : DispatchResult) : bool :=
  match myStatus r with ok => true | _ => false end.

(** Modelled from the spec: the two exceptions the execution loop catches;
    [what] is the message they carry. *)
Inductive thrown : Type :=
| FatalEmulationError (what : string)
| EmulationWarning (what : string).

(** Modelled from the spec: Serializer::getByte, as the getters of
    [Serializer] above. *)
Definition getByte (st : Serializer.stream) : outcome (Z * Serializer.stream) :=
  match st with
  | Serializer.Byte v :: st' => Ret (v, st')
  | _ => Throw "Serializer::getByte"
  end.

(** ** Execution status bits *)

(** [has bits x]: every bit of [bits] is set in [x]. *)
Definition has (bits x : Z) : Prop := Z.land x bits = bits.

Lemma u8_land x : u8 x = Z.land x 255.
Proof. unfold u8. change 256 with (2 ^ 8). rewrite <- Z.land_ones by lia. reflexivity. Qed.

Lemma byte_bits bits i :
  0 <= bits < 256 -> Z.testbit bits i = Z.testbit bits i && Z.testbit 255 i.
Proof.
  intros Hb. rewrite <- Z.land_spec, <- u8_land. unfold u8.
  rewrite Z.mod_small by lia. reflexivity.
Qed.

Lemma has_raise bits x r : 0 <= bits < 256 -> has bits x -> has bits (u8 (Z.lor x r)).
Proof.
  unfold has. intros Hb Hx. rewrite u8_land. apply Z.bits_inj'. intros i _.
  pose proof (f_equal (fun z => Z.testbit z i) Hx) as Hi. cbn beta in Hi.
  pose proof (byte_bits bits i Hb) as Hbi.
  rewrite !Z.land_spec, Z.lor_spec. rewrite Z.land_spec in Hi.
  destruct (Z.testbit x i), (Z.testbit bits i), (Z.testbit r i), (Z.testbit 255 i);
    cbn in *; congruence.
Qed.

Lemma has_raise_self bits x : 0 <= bits < 256 -> has bits (u8 (Z.lor x bits)).
Proof.
  unfold has. intros Hb. rewrite u8_land. apply Z.bits_inj'. intros i _.
  pose proof (byte_bits bits i Hb) as Hbi.
  rewrite !Z.land_spec, Z.lor_spec.
  destruct (Z.testbit x i), (Z.testbit bits i), (Z.testbit 255 i); cbn in *; congruence.
Qed.

Lemma has_clear bits mask x :
  0 <= bits < 256 -> Z.land bits mask = 0 -> has bits x ->
  has bits (u8 (Z.land x (Z.lnot mask))).
Proof.
  unfold has. intros Hb Hm Hx. rewrite u8_land. apply Z.bits_inj'. intros i Hi0.
  pose proof (f_equal (fun z => Z.testbit z i) Hx) as Hi. cbn beta in Hi.
  pose proof (f_equal (fun z => Z.testbit z i) Hm) as Hmi. cbn beta in Hmi.
  pose proof (byte_bits bits i Hb) as Hbi.
  rewrite !Z.land_spec, Z.lnot_spec by assumption.
  rewrite Z.land_spec in Hi, Hmi. rewrite Z.bits_0 in Hmi.
  destruct (Z.testbit x i), (Z.testbit bits i), (Z.testbit mask i), (Z.testbit 255 i);
    cbn in *; congruence.
Qed.

Lemma cleared mask x : Z.land (u8 (Z.land x (Z.lnot mask))) mask = 0.
Proof.
  rewrite u8_land. apply Z.bits_inj'. intros i Hi0.
  rewrite !Z.land_spec, Z.lnot_spec, Z.bits_0 by assumption.
  destruct (Z.testbit x i), (Z.testbit mask i), (Z.testbit 255 i); reflexivity.
Qed.

Lemma has_nz bits x : 0 < bits -> has bits x -> nz (Z.land x bits) = true.
Proof.
  unfold has, nz. intros Hb Hx. rewrite Hx. destruct (Z.eqb_spec bits 0); [lia|reflexivity].
Qed.

Lemma has_nonzero bits x : 0 < bits -> has bits x -> (x =? 0) = false.
Proof.
  unfold has. intros Hb Hx. destruct (Z.eqb_spec x 0) as [->|]; [|reflexivity].
  rewrite Z.land_0_l in Hx. lia.
Qed.

(** ** Bytes of a 16-bit word *)

Lemma high_byte x : u8 (Z.shiftr x 8) = Z.shiftr (u16 x) 8.
Proof.
  unfold u8, u16. rewrite !Z.shiftr_div_pow2 by lia. change (2 ^ 8) with 256.
  Z.div_mod_to_equations. lia.
Qed.

Lemma low_byte x : u8 (Z.land x 0x00ff) = Z.land (u16 x) 0xFF.
Proof.
  change 0x00ff with (Z.ones 8). rewrite !Z.land_ones by lia. unfold u8, u16.
  change (2 ^ 8) with 256. Z.div_mod_to_equations. lia.
Qed.

Lemma u8_range x : 0 <= u8 x < 256.
Proof. unfold u8. apply Z.mod_pos_bound. lia. Qed.

Lemma u8_pred2 x : u8 (u8 (x - 1) - 1) = u8 (x - 2).
Proof. unfold u8. rewrite Zminus_mod_idemp_l. f_equal. lia. Qed.

Lemma u8_pred3 x : u8 (u8 (u8 (x - 1) - 1) - 1) = u8 (x - 3).
Proof. rewrite u8_pred2. unfold u8. rewrite Zminus_mod_idemp_l. f_equal. lia. Qed.

Lemma word_of_bytes lo hi :
  u16 (Z.lor (u8 lo) (Z.shiftl (u8 hi) 8)) = Z.lor (u8 lo) (Z.shiftl (u8 hi) 8).
Proof.
  pose proof (u8_range lo) as Hlo. pose proof (u8_range hi) as Hhi.
  unfold u16. change 65536 with (2 ^ 16). rewrite <- Z.land_ones by lia.
  rewrite Z.land_lor_distr_l. rewrite !Z.land_ones by lia. change (2 ^ 16) with 65536.
  rewrite Z.shiftl_mul_pow2 by lia. change (2 ^ 8) with 256.
  rewrite !Z.mod_small by lia. reflexivity.
Qed.

Section Core.

Local Set Default Proof Using "Type".

(** The System the processor is installed in (System.hxx).  A device
    reached by an access may call back into the processor (stop(), irq(),
    nmi()); the execution status bits set that way are returned next to
    the result of the access. *)
Variable Sys : Type.
Variable sys_cycles : Sys -> Z.
Variable sys_incrementCycles : Z -> Sys -> Sys.
Variable sys_peek : Z -> Z -> Sys -> Z * Z * Sys.
Variable sys_poke : Z -> Z -> Z -> Sys -> Z * Sys.

(** tia().updateEmulation() followed by m6532().updateEmulation(). *)
Variable sys_updateEmulation : Sys -> Sys.

(** The callback installed for the end of a halt. *)
Variable myOnHaltCallback : Sys -> Sys.

(** Constants of M6502.hxx and System.hxx. *)
Variable StopExecutionBit FatalErrorBit : Z.
Variable MaskableInterruptBit NonmaskableInterruptBit : Z.
Variable SYSTEM_CYCLES_PER_CPU : Z.

(** M6502::PS (M6502.hxx): the status byte packed from the flags N, V, B,
    D, I, notZ and C. *)
Variable PS : bool -> bool -> bool -> bool -> bool -> bool -> bool -> Z.

(** The registers, the flags and the bookkeeping of the accesses, with
    the system the processor is installed in; the trap and breakpoint
    tables of the debugger build are left out. *)
Record t : Type := {
  myExecutionStatus : Z;
  A : Z;
  X : Z;
  Y : Z;
  SP : Z;
  IR : Z;
  PC : Z;
  N : bool;
  V : bool;
  B : bool;
  D : bool;
  I : bool;
  notZ : bool;
  C : bool;
  icycles : Z;
  myNumberOfDistinctAccesses : Z;
  myLastAddress : Z;
  myLastPeekAddress : Z;
  myLastPokeAddress : Z;
  myDataAddressForPoke : Z;
  myLastSrcAddressS : Z;
  myLastSrcAddressA : Z;
  myLastSrcAddressX : Z;
  myLastSrcAddressY : Z;
  myFlags : Z;
  myHaltRequested : bool;
  myLastBreakCycle : Z;
  sys : Sys
}.

Definition set_myExecutionStatus (v : Z) (s : t) : t :=
  {| myExecutionStatus := v; A := A s; X := X s; Y := Y s; SP := SP s; IR := IR s;
     PC := PC s; N := N s; V := V s; B := B s; D := D s; I := I s; notZ := notZ s;
     C := C s; icycles := icycles s;
     myNumberOfDistinctAccesses := myNumberOfDistinctAccesses s;
     myLastAddress := myLastAddress s; myLastPeekAddress := myLastPeekAddress s;
     myLastPokeAddress := myLastPokeAddress s;
     myDataAddressForPoke := myDataAddressForPoke s;
     myLastSrcAddressS := myLastSrcAddressS s;
     myLastSrcAddressA := myLastSrcAddressA s;
     myLastSrcAddressX := myLastSrcAddressX s;
     myLastSrcAddressY := myLastSrcAddressY s; myFlags := myFlags s;
     myHaltRequested := myHaltRequested s; myLastBreakCycle := myLastBreakCycle s;
     sys := sys s |}.

Definition set_A (v : Z) (s : t) : t :=
  {| myExecutionStatus := myExecutionStatus s; A := v; X := X s; Y := Y s; SP := SP s;
     IR := IR s; PC := PC s; N := N s; V := V s; B := B s; D := D s; I := I s;
     notZ := notZ s; C := C s; icycles := icycles s;
     myNumberOfDistinctAccesses := myNumberOfDistinctAccesses s;
     myLastAddress := myLastAddress s; myLastPeekAddress := myLastPeekAddress s;
     myLastPokeAddress := myLastPokeAddress s;
     myDataAddressForPoke := myDataAddressForPoke s;
     myLastSrcAddressS := myLastSrcAddressS s;
     myLastSrcAddressA := myLastSrcAddressA s;
     myLastSrcAddressX := myLastSrcAddressX s;
     myLastSrcAddressY := myLastSrcAddressY s; myFlags := myFlags s;
     myHaltRequested := myHaltRequested s; myLastBreakCycle := myLastBreakCycle s;
     sys := sys s |}.

Definition set_X (v : Z) (s : t) : t :=
  {| myExecutionStatus := myExecutionStatus s; A := A s; X := v; Y := Y s; SP := SP s;
     IR := IR s; PC := PC s; N := N s; V := V s; B := B s; D := D s; I := I s;
     notZ := notZ s; C := C s; icycles := icycles s;
     myNumberOfDistinctAccesses := myNumberOfDistinctAccesses s;
     myLastAddress := myLastAddress s; myLastPeekAddress := myLastPeekAddress s;
     myLastPokeAddress := myLastPokeAddress s;
     myDataAddressForPoke := myDataAddressForPoke s;
     myLastSrcAddressS := myLastSrcAddressS s;
     myLastSrcAddressA := myLastSrcAddressA s;
     myLastSrcAddressX := myLastSrcAddressX s;
     myLastSrcAddressY := myLastSrcAddressY s; myFlags := myFlags s;
     myHaltRequested := myHaltRequested s; myLastBreakCycle := myLastBreakCycle s;
     sys := sys s |}.

Definition set_Y (v : Z) (s : t) : t :=
  {| myExecutionStatus := myExecutionStatus s; A := A s; X := X s; Y := v; SP := SP s;
     IR := IR s; PC := PC s; N := N s; V := V s; B := B s; D := D s; I := I s;
     notZ := notZ s; C := C s; icycles := icycles s;
     myNumberOfDistinctAccesses := myNumberOfDistinctAccesses s;
     myLastAddress := myLastAddress s; myLastPeekAddress := myLastPeekAddress s;
     myLastPokeAddress := myLastPokeAddress s;
     myDataAddressForPoke := myDataAddressForPoke s;
     myLastSrcAddressS := myLastSrcAddressS s;
     myLastSrcAddressA := myLastSrcAddressA s;
     myLastSrcAddressX := myLastSrcAddressX s;
     myLastSrcAddressY := myLastSrcAddressY s; myFlags := myFlags s;
     myHaltRequested := myHaltRequested s; myLastBreakCycle := myLastBreakCycle s;
     sys := sys s |}.

Definition set_SP (v : Z) (s : t) : t :=
  {| myExecutionStatus := myExecutionStatus s; A := A s; X := X s; Y := Y s; SP := v;
     IR := IR s; PC := PC s; N := N s; V := V s; B := B s; D := D s; I := I s;
     notZ := notZ s; C := C s; icycles := icycles s;
     myNumberOfDistinctAccesses := myNumberOfDistinctAccesses s;
     myLastAddress := myLastAddress s; myLastPeekAddress := myLastPeekAddress s;
     myLastPokeAddress := myLastPokeAddress s;
     myDataAddressForPoke := myDataAddressForPoke s;
     myLastSrcAddressS := myLastSrcAddressS s;
     myLastSrcAddressA := myLastSrcAddressA s;
     myLastSrcAddressX := myLastSrcAddressX s;
     myLastSrcAddressY := myLastSrcAddressY s; myFlags := myFlags s;
     myHaltRequested := myHaltRequested s; myLastBreakCycle := myLastBreakCycle s;
     sys := sys s |}.

Definition set_IR (v : Z) (s : t) : t :=
  {| myExecutionStatus := myExecutionStatus s; A := A s; X := X s; Y := Y s;
     SP := SP s; IR := v; PC := PC s; N := N s; V := V s; B := B s; D := D s; I := I s;
     notZ := notZ s; C := C s; icycles := icycles s;
     myNumberOfDistinctAccesses := myNumberOfDistinctAccesses s;
     myLastAddress := myLastAddress s; myLastPeekAddress := myLastPeekAddress s;
     myLastPokeAddress := myLastPokeAddress s;
     myDataAddressForPoke := myDataAddressForPoke s;
     myLastSrcAddressS := myLastSrcAddressS s;
     myLastSrcAddressA := myLastSrcAddressA s;
     myLastSrcAddressX := myLastSrcAddressX s;
     myLastSrcAddressY := myLastSrcAddressY s; myFlags := myFlags s;
     myHaltRequested := myHaltRequested s; myLastBreakCycle := myLastBreakCycle s;
     sys := sys s |}.

Definition set_PC (v : Z) (s : t) : t :=
  {| myExecutionStatus := myExecutionStatus s; A := A s; X := X s; Y := Y s;
     SP := SP s; IR := IR s; PC := v; N := N s; V := V s; B := B s; D := D s; I := I s;
     notZ := notZ s; C := C s; icycles := icycles s;
     myNumberOfDistinctAccesses := myNumberOfDistinctAccesses s;
     myLastAddress := myLastAddress s; myLastPeekAddress := myLastPeekAddress s;
     myLastPokeAddress := myLastPokeAddress s;
     myDataAddressForPoke := myDataAddressForPoke s;
     myLastSrcAddressS := myLastSrcAddressS s;
     myLastSrcAddressA := myLastSrcAddressA s;
     myLastSrcAddressX := myLastSrcAddressX s;
     myLastSrcAddressY := myLastSrcAddressY s; myFlags := myFlags s;
     myHaltRequested := myHaltRequested s; myLastBreakCycle := myLastBreakCycle s;
     sys := sys s |}.

Definition set_N (v : bool) (s : t) : t :=
  {| myExecutionStatus := myExecutionStatus s; A := A s; X := X s; Y := Y s;
     SP := SP s; IR := IR s; PC := PC s; N := v; V := V s; B := B s; D := D s;
     I := I s; notZ := notZ s; C := C s; icycles := icycles s;
     myNumberOfDistinctAccesses := myNumberOfDistinctAccesses s;
     myLastAddress := myLastAddress s; myLastPeekAddress := myLastPeekAddress s;
     myLastPokeAddress := myLastPokeAddress s;
     myDataAddressForPoke := myDataAddressForPoke s;
     myLastSrcAddressS := myLastSrcAddressS s;
     myLastSrcAddressA := myLastSrcAddressA s;
     myLastSrcAddressX := myLastSrcAddressX s;
     myLastSrcAddressY := myLastSrcAddressY s; myFlags := myFlags s;
     myHaltRequested := myHaltRequested s; myLastBreakCycle := myLastBreakCycle s;
     sys := sys s |}.

Definition set_V (v : bool) (s : t) : t :=
  {| myExecutionStatus := myExecutionStatus s; A := A s; X := X s; Y := Y s;
     SP := SP s; IR := IR s; PC := PC s; N := N s; V := v; B := B s; D := D s;
     I := I s; notZ := notZ s; C := C s; icycles := icycles s;
     myNumberOfDistinctAccesses := myNumberOfDistinctAccesses s;
     myLastAddress := myLastAddress s; myLastPeekAddress := myLastPeekAddress s;
     myLastPokeAddress := myLastPokeAddress s;
     myDataAddressForPoke := myDataAddressForPoke s;
     myLastSrcAddressS := myLastSrcAddressS s;
     myLastSrcAddressA := myLastSrcAddressA s;
     myLastSrcAddressX := myLastSrcAddressX s;
     myLastSrcAddressY := myLastSrcAddressY s; myFlags := myFlags s;
     myHaltRequested := myHaltRequested s; myLastBreakCycle := myLastBreakCycle s;
     sys := sys s |}.

Definition set_B (v : bool) (s : t) : t :=
  {| myExecutionStatus := myExecutionStatus s; A := A s; X := X s; Y := Y s;
     SP := SP s; IR := IR s; PC := PC s; N := N s; V := V s; B := v; D := D s;
     I := I s; notZ := notZ s; C := C s; icycles := icycles s;
     myNumberOfDistinctAccesses := myNumberOfDistinctAccesses s;
     myLastAddress := myLastAddress s; myLastPeekAddress := myLastPeekAddress s;
     myLastPokeAddress := myLastPokeAddress s;
     myDataAddressForPoke := myDataAddressForPoke s;
     myLastSrcAddressS := myLastSrcAddressS s;
     myLastSrcAddressA := myLastSrcAddressA s;
     myLastSrcAddressX := myLastSrcAddressX s;
     myLastSrcAddressY := myLastSrcAddressY s; myFlags := myFlags s;
     myHaltRequested := myHaltRequested s; myLastBreakCycle := myLastBreakCycle s;
     sys := sys s |}.

Definition set_D (v : bool) (s : t) : t :=
  {| myExecutionStatus := myExecutionStatus s; A := A s; X := X s; Y := Y s;
     SP := SP s; IR := IR s; PC := PC s; N := N s; V := V s; B := B s; D := v;
     I := I s; notZ := notZ s; C := C s; icycles := icycles s;
     myNumberOfDistinctAccesses := myNumberOfDistinctAccesses s;
     myLastAddress := myLastAddress s; myLastPeekAddress := myLastPeekAddress s;
     myLastPokeAddress := myLastPokeAddress s;
     myDataAddressForPoke := myDataAddressForPoke s;
     myLastSrcAddressS := myLastSrcAddressS s;
     myLastSrcAddressA := myLastSrcAddressA s;
     myLastSrcAddressX := myLastSrcAddressX s;
     myLastSrcAddressY := myLastSrcAddressY s; myFlags := myFlags s;
     myHaltRequested := myHaltRequested s; myLastBreakCycle := myLastBreakCycle s;
     sys := sys s |}.

Definition set_I (v : bool) (s : t) : t :=
  {| myExecutionStatus := myExecutionStatus s; A := A s; X := X s; Y := Y s;
     SP := SP s; IR := IR s; PC := PC s; N := N s; V := V s; B := B s; D := D s;
     I := v; notZ := notZ s; C := C s; icycles := icycles s;
     myNumberOfDistinctAccesses := myNumberOfDistinctAccesses s;
     myLastAddress := myLastAddress s; myLastPeekAddress := myLastPeekAddress s;
     myLastPokeAddress := myLastPokeAddress s;
     myDataAddressForPoke := myDataAddressForPoke s;
     myLastSrcAddressS := myLastSrcAddressS s;
     myLastSrcAddressA := myLastSrcAddressA s;
     myLastSrcAddressX := myLastSrcAddressX s;
     myLastSrcAddressY := myLastSrcAddressY s; myFlags := myFlags s;
     myHaltRequested := myHaltRequested s; myLastBreakCycle := myLastBreakCycle s;
     sys := sys s |}.

Definition set_notZ (v : bool) (s : t) : t :=
  {| myExecutionStatus := myExecutionStatus s; A := A s; X := X s; Y := Y s;
     SP := SP s; IR := IR s; PC := PC s; N := N s; V := V s; B := B s; D := D s;
     I := I s; notZ := v; C := C s; icycles := icycles s;
     myNumberOfDistinctAccesses := myNumberOfDistinctAccesses s;
     myLastAddress := myLastAddress s; myLastPeekAddress := myLastPeekAddress s;
     myLastPokeAddress := myLastPokeAddress s;
     myDataAddressForPoke := myDataAddressForPoke s;
     myLastSrcAddressS := myLastSrcAddressS s;
     myLastSrcAddressA := myLastSrcAddressA s;
     myLastSrcAddressX := myLastSrcAddressX s;
     myLastSrcAddressY := myLastSrcAddressY s; myFlags := myFlags s;
     myHaltRequested := myHaltRequested s; myLastBreakCycle := myLastBreakCycle s;
     sys := sys s |}.

Definition set_C (v : bool) (s : t) : t :=
  {| myExecutionStatus := myExecutionStatus s; A := A s; X := X s; Y := Y s;
     SP := SP s; IR := IR s; PC := PC s; N := N s; V := V s; B := B s; D := D s;
     I := I s; notZ := notZ s; C := v; icycles := icycles s;
     myNumberOfDistinctAccesses := myNumberOfDistinctAccesses s;
     myLastAddress := myLastAddress s; myLastPeekAddress := myLastPeekAddress s;
     myLastPokeAddress := myLastPokeAddress s;
     myDataAddressForPoke := myDataAddressForPoke s;
     myLastSrcAddressS := myLastSrcAddressS s;
     myLastSrcAddressA := myLastSrcAddressA s;
     myLastSrcAddressX := myLastSrcAddressX s;
     myLastSrcAddressY := myLastSrcAddressY s; myFlags := myFlags s;
     myHaltRequested := myHaltRequested s; myLastBreakCycle := myLastBreakCycle s;
     sys := sys s |}.

Definition set_icycles (v : Z) (s : t) : t :=
  {| myExecutionStatus := myExecutionStatus s; A := A s; X := X s; Y := Y s;
     SP := SP s; IR := IR s; PC := PC s; N := N s; V := V s; B := B s; D := D s;
     I := I s; notZ := notZ s; C := C s; icycles := v;
     myNumberOfDistinctAccesses := myNumberOfDistinctAccesses s;
     myLastAddress := myLastAddress s; myLastPeekAddress := myLastPeekAddress s;
     myLastPokeAddress := myLastPokeAddress s;
     myDataAddressForPoke := myDataAddressForPoke s;
     myLastSrcAddressS := myLastSrcAddressS s;
     myLastSrcAddressA := myLastSrcAddressA s;
     myLastSrcAddressX := myLastSrcAddressX s;
     myLastSrcAddressY := myLastSrcAddressY s; myFlags := myFlags s;
     myHaltRequested := myHaltRequested s; myLastBreakCycle := myLastBreakCycle s;
     sys := sys s |}.

Definition set_myNumberOfDistinctAccesses (v : Z) (s : t) : t :=
  {| myExecutionStatus := myExecutionStatus s; A := A s; X := X s; Y := Y s;
     SP := SP s; IR := IR s; PC := PC s; N := N s; V := V s; B := B s; D := D s;
     I := I s; notZ := notZ s; C := C s; icycles := icycles s;
     myNumberOfDistinctAccesses := v; myLastAddress := myLastAddress s;
     myLastPeekAddress := myLastPeekAddress s;
     myLastPokeAddress := myLastPokeAddress s;
     myDataAddressForPoke := myDataAddressForPoke s;
     myLastSrcAddressS := myLastSrcAddressS s;
     myLastSrcAddressA := myLastSrcAddressA s;
     myLastSrcAddressX := myLastSrcAddressX s;
     myLastSrcAddressY := myLastSrcAddressY s; myFlags := myFlags s;
     myHaltRequested := myHaltRequested s; myLastBreakCycle := myLastBreakCycle s;
     sys := sys s |}.

Definition set_myLastAddress (v : Z) (s : t) : t :=
  {| myExecutionStatus := myExecutionStatus s; A := A s; X := X s; Y := Y s;
     SP := SP s; IR := IR s; PC := PC s; N := N s; V := V s; B := B s; D := D s;
     I := I s; notZ := notZ s; C := C s; icycles := icycles s;
     myNumberOfDistinctAccesses := myNumberOfDistinctAccesses s; myLastAddress := v;
     myLastPeekAddress := myLastPeekAddress s;
     myLastPokeAddress := myLastPokeAddress s;
     myDataAddressForPoke := myDataAddressForPoke s;
     myLastSrcAddressS := myLastSrcAddressS s;
     myLastSrcAddressA := myLastSrcAddressA s;
     myLastSrcAddressX := myLastSrcAddressX s;
     myLastSrcAddressY := myLastSrcAddressY s; myFlags := myFlags s;
     myHaltRequested := myHaltRequested s; myLastBreakCycle := myLastBreakCycle s;
     sys := sys s |}.

Definition set_myLastPeekAddress (v : Z) (s : t) : t :=
  {| myExecutionStatus := myExecutionStatus s; A := A s; X := X s; Y := Y s;
     SP := SP s; IR := IR s; PC := PC s; N := N s; V := V s; B := B s; D := D s;
     I := I s; notZ := notZ s; C := C s; icycles := icycles s;
     myNumberOfDistinctAccesses := myNumberOfDistinctAccesses s;
     myLastAddress := myLastAddress s; myLastPeekAddress := v;
     myLastPokeAddress := myLastPokeAddress s;
     myDataAddressForPoke := myDataAddressForPoke s;
     myLastSrcAddressS := myLastSrcAddressS s;
     myLastSrcAddressA := myLastSrcAddressA s;
     myLastSrcAddressX := myLastSrcAddressX s;
     myLastSrcAddressY := myLastSrcAddressY s; myFlags := myFlags s;
     myHaltRequested := myHaltRequested s; myLastBreakCycle := myLastBreakCycle s;
     sys := sys s |}.

Definition set_myLastPokeAddress (v : Z) (s : t) : t :=
  {| myExecutionStatus := myExecutionStatus s; A := A s; X := X s; Y := Y s;
     SP := SP s; IR := IR s; PC := PC s; N := N s; V := V s; B := B s; D := D s;
     I := I s; notZ := notZ s; C := C s; icycles := icycles s;
     myNumberOfDistinctAccesses := myNumberOfDistinctAccesses s;
     myLastAddress := myLastAddress s; myLastPeekAddress := myLastPeekAddress s;
     myLastPokeAddress := v; myDataAddressForPoke := myDataAddressForPoke s;
     myLastSrcAddressS := myLastSrcAddressS s;
     myLastSrcAddressA := myLastSrcAddressA s;
     myLastSrcAddressX := myLastSrcAddressX s;
     myLastSrcAddressY := myLastSrcAddressY s; myFlags := myFlags s;
     myHaltRequested := myHaltRequested s; myLastBreakCycle := myLastBreakCycle s;
     sys := sys s |}.

Definition set_myDataAddressForPoke (v : Z) (s : t) : t :=
  {| myExecutionStatus := myExecutionStatus s; A := A s; X := X s; Y := Y s;
     SP := SP s; IR := IR s; PC := PC s; N := N s; V := V s; B := B s; D := D s;
     I := I s; notZ := notZ s; C := C s; icycles := icycles s;
     myNumberOfDistinctAccesses := myNumberOfDistinctAccesses s;
     myLastAddress := myLastAddress s; myLastPeekAddress := myLastPeekAddress s;
     myLastPokeAddress := myLastPokeAddress s; myDataAddressForPoke := v;
     myLastSrcAddressS := myLastSrcAddressS s;
     myLastSrcAddressA := myLastSrcAddressA s;
     myLastSrcAddressX := myLastSrcAddressX s;
     myLastSrcAddressY := myLastSrcAddressY s; myFlags := myFlags s;
     myHaltRequested := myHaltRequested s; myLastBreakCycle := myLastBreakCycle s;
     sys := sys s |}.

Definition set_myLastSrcAddressS (v : Z) (s : t) : t :=
  {| myExecutionStatus := myExecutionStatus s; A := A s; X := X s; Y := Y s;
     SP := SP s; IR := IR s; PC := PC s; N := N s; V := V s; B := B s; D := D s;
     I := I s; notZ := notZ s; C := C s; icycles := icycles s;
     myNumberOfDistinctAccesses := myNumberOfDistinctAccesses s;
     myLastAddress := myLastAddress s; myLastPeekAddress := myLastPeekAddress s;
     myLastPokeAddress := myLastPokeAddress s;
     myDataAddressForPoke := myDataAddressForPoke s; myLastSrcAddressS := v;
     myLastSrcAddressA := myLastSrcAddressA s;
     myLastSrcAddressX := myLastSrcAddressX s;
     myLastSrcAddressY := myLastSrcAddressY s; myFlags := myFlags s;
     myHaltRequested := myHaltRequested s; myLastBreakCycle := myLastBreakCycle s;
     sys := sys s |}.

Definition set_myLastSrcAddressA (v : Z) (s : t) : t :=
  {| myExecutionStatus := myExecutionStatus s; A := A s; X := X s; Y := Y s;
     SP := SP s; IR := IR s; PC := PC s; N := N s; V := V s; B := B s; D := D s;
     I := I s; notZ := notZ s; C := C s; icycles := icycles s;
     myNumberOfDistinctAccesses := myNumberOfDistinctAccesses s;
     myLastAddress := myLastAddress s; myLastPeekAddress := myLastPeekAddress s;
     myLastPokeAddress := myLastPokeAddress s;
     myDataAddressForPoke := myDataAddressForPoke s;
     myLastSrcAddressS := myLastSrcAddressS s; myLastSrcAddressA := v;
     myLastSrcAddressX := myLastSrcAddressX s;
     myLastSrcAddressY := myLastSrcAddressY s; myFlags := myFlags s;
     myHaltRequested := myHaltRequested s; myLastBreakCycle := myLastBreakCycle s;
     sys := sys s |}.

Definition set_myLastSrcAddressX (v : Z) (s : t) : t :=
  {| myExecutionStatus := myExecutionStatus s; A := A s; X := X s; Y := Y s;
     SP := SP s; IR := IR s; PC := PC s; N := N s; V := V s; B := B s; D := D s;
     I := I s; notZ := notZ s; C := C s; icycles := icycles s;
     myNumberOfDistinctAccesses := myNumberOfDistinctAccesses s;
     myLastAddress := myLastAddress s; myLastPeekAddress := myLastPeekAddress s;
     myLastPokeAddress := myLastPokeAddress s;
     myDataAddressForPoke := myDataAddressForPoke s;
     myLastSrcAddressS := myLastSrcAddressS s;
     myLastSrcAddressA := myLastSrcAddressA s; myLastSrcAddressX := v;
     myLastSrcAddressY := myLastSrcAddressY s; myFlags := myFlags s;
     myHaltRequested := myHaltRequested s; myLastBreakCycle := myLastBreakCycle s;
     sys := sys s |}.

Definition set_myLastSrcAddressY (v : Z) (s : t) : t :=
  {| myExecutionStatus := myExecutionStatus s; A := A s; X := X s; Y := Y s;
     SP := SP s; IR := IR s; PC := PC s; N := N s; V := V s; B := B s; D := D s;
     I := I s; notZ := notZ s; C := C s; icycles := icycles s;
     myNumberOfDistinctAccesses := myNumberOfDistinctAccesses s;
     myLastAddress := myLastAddress s; myLastPeekAddress := myLastPeekAddress s;
     myLastPokeAddress := myLastPokeAddress s;
     myDataAddressForPoke := myDataAddressForPoke s;
     myLastSrcAddressS := myLastSrcAddressS s;
     myLastSrcAddressA := myLastSrcAddressA s;
     myLastSrcAddressX := myLastSrcAddressX s; myLastSrcAddressY := v;
     myFlags := myFlags s; myHaltRequested := myHaltRequested s;
     myLastBreakCycle := myLastBreakCycle s; sys := sys s |}.

Definition set_myFlags (v : Z) (s : t) : t :=
  {| myExecutionStatus := myExecutionStatus s; A := A s; X := X s; Y := Y s;
     SP := SP s; IR := IR s; PC := PC s; N := N s; V := V s; B := B s; D := D s;
     I := I s; notZ := notZ s; C := C s; icycles := icycles s;
     myNumberOfDistinctAccesses := myNumberOfDistinctAccesses s;
     myLastAddress := myLastAddress s; myLastPeekAddress := myLastPeekAddress s;
     myLastPokeAddress := myLastPokeAddress s;
     myDataAddressForPoke := myDataAddressForPoke s;
     myLastSrcAddressS := myLastSrcAddressS s;
     myLastSrcAddressA := myLastSrcAddressA s;
     myLastSrcAddressX := myLastSrcAddressX s;
     myLastSrcAddressY := myLastSrcAddressY s; myFlags := v;
     myHaltRequested := myHaltRequested s; myLastBreakCycle := myLastBreakCycle s;
     sys := sys s |}.

Definition set_myHaltRequested (v : bool) (s : t) : t :=
  {| myExecutionStatus := myExecutionStatus s; A := A s; X := X s; Y := Y s;
     SP := SP s; IR := IR s; PC := PC s; N := N s; V := V s; B := B s; D := D s;
     I := I s; notZ := notZ s; C := C s; icycles := icycles s;
     myNumberOfDistinctAccesses := myNumberOfDistinctAccesses s;
     myLastAddress := myLastAddress s; myLastPeekAddress := myLastPeekAddress s;
     myLastPokeAddress := myLastPokeAddress s;
     myDataAddressForPoke := myDataAddressForPoke s;
     myLastSrcAddressS := myLastSrcAddressS s;
     myLastSrcAddressA := myLastSrcAddressA s;
     myLastSrcAddressX := myLastSrcAddressX s;
     myLastSrcAddressY := myLastSrcAddressY s; myFlags := myFlags s;
     myHaltRequested := v; myLastBreakCycle := myLastBreakCycle s; sys := sys s |}.

Definition set_myLastBreakCycle (v : Z) (s : t) : t :=
  {| myExecutionStatus := myExecutionStatus s; A := A s; X := X s; Y := Y s;
     SP := SP s; IR := IR s; PC := PC s; N := N s; V := V s; B := B s; D := D s;
     I := I s; notZ := notZ s; C := C s; icycles := icycles s;
     myNumberOfDistinctAccesses := myNumberOfDistinctAccesses s;
     myLastAddress := myLastAddress s; myLastPeekAddress := myLastPeekAddress s;
     myLastPokeAddress := myLastPokeAddress s;
     myDataAddressForPoke := myDataAddressForPoke s;
     myLastSrcAddressS := myLastSrcAddressS s;
     myLastSrcAddressA := myLastSrcAddressA s;
     myLastSrcAddressX := myLastSrcAddressX s;
     myLastSrcAddressY := myLastSrcAddressY s; myFlags := myFlags s;
     myHaltRequested := myHaltRequested s; myLastBreakCycle := v; sys := sys s |}.

Definition set_sys (v : Sys) (s : t) : t :=
  {| myExecutionStatus := myExecutionStatus s; A := A s; X := X s; Y := Y s;
     SP := SP s; IR := IR s; PC := PC s; N := N s; V := V s; B := B s; D := D s;
     I := I s; notZ := notZ s; C := C s; icycles := icycles s;
     myNumberOfDistinctAccesses := myNumberOfDistinctAccesses s;
     myLastAddress := myLastAddress s; myLastPeekAddress := myLastPeekAddress s;
     myLastPokeAddress := myLastPokeAddress s;
     myDataAddressForPoke := myDataAddressForPoke s;
     myLastSrcAddressS := myLastSrcAddressS s;
     myLastSrcAddressA := myLastSrcAddressA s;
     myLastSrcAddressX := myLastSrcAddressX s;
     myLastSrcAddressY := myLastSrcAddressY s; myFlags := myFlags s;
     myHaltRequested := myHaltRequested s; myLastBreakCycle := myLastBreakCycle s;
     sys := v |}.

Definition PS_of (s : t) : Z := PS (N s) (V s) (B s) (D s) (I s) (notZ s) (C s).

(** [myExecutionStatus |= bits] *)
Definition raise (bits : Z) (s : t) : t :=
  set_myExecutionStatus (u8 (Z.lor (myExecutionStatus s) bits)) s.

(** mySystem->incrementCycles, mySystem->peek and mySystem->poke *)
Definition bus_incrementCycles (amount : Z) (s : t) : t :=
  set_sys (sys_incrementCycles amount (sys s)) s.

Definition bus_peek (address flags : Z) (s : t) : Z * t :=
  let r := sys_peek (u16 address) (u8 flags) (sys s) in
  (u8 (fst (fst r)), raise (snd (fst r)) (set_sys (snd r) s)).

Definition bus_poke (address value flags : Z) (s : t) : t :=
  let r := sys_poke (u16 address) (u8 value) (u8 flags) (sys s) in
  raise (fst r) (set_sys (snd r) s).

(** M6502::handleHalt *)
Definition handleHalt (s : t) : t :=
  if myHaltRequested s
  then set_myHaltRequested false (set_sys (myOnHaltCallback (sys s)) s)
  else s.

(** M6502::peek *)
Definition peek (address flags : Z) (s : t) : Z * t :=
  let s := handleHalt s in
  let s :=
    if negb (address =? myLastAddress s)
    then set_myLastAddress address
           (set_myNumberOfDistinctAccesses (u32 (myNumberOfDistinctAccesses s + 1)) s)
    else s in
  let s := bus_incrementCycles SYSTEM_CYCLES_PER_CPU s in
  let s := set_icycles (u32 (icycles s + SYSTEM_CYCLES_PER_CPU)) s in
  let s := set_myFlags flags s in
  let r := bus_peek address flags s in
  (fst r, set_myLastPeekAddress address (snd r)).

(** M6502::poke *)
Definition poke (address value flags : Z) (s : t) : t :=
  let s :=
    if negb (address =? myLastAddress s)
    then set_myLastAddress address
           (set_myNumberOfDistinctAccesses (u32 (myNumberOfDistinctAccesses s + 1)) s)
    else s in
  let s := bus_incrementCycles SYSTEM_CYCLES_PER_CPU s in
  let s := set_icycles (u32 (icycles s + SYSTEM_CYCLES_PER_CPU)) s in
  let s := bus_poke address value flags s in
  set_myLastPokeAddress address s.

(** [mySystem->poke(0x0100 + SP--, value)] *)
Definition push (value : Z) (s : t) : t :=
  let address := 0x0100 + SP s in
  let s := set_SP (u8 (SP s - 1)) s in
  bus_poke address value 0 s.

(** [PC = uInt16(mySystem->peek(lo)) | (uInt16(mySystem->peek(hi)) << 8)],
    the two reads taken from left to right. *)
Definition loadVector (lo hi : Z) (s : t) : t :=
  let r1 := bus_peek lo 0 s in
  let r2 := bus_peek hi 0 (snd r1) in
  set_PC (u16 (Z.lor (fst r1) (Z.shiftl (fst r2) 8))) (snd r2).

(** M6502::interruptHandler *)
Definition interruptHandler (s : t) : t :=
  let s :=
    if nz (Z.land (myExecutionStatus s) MaskableInterruptBit) && negb (I s) then
      let s := bus_incrementCycles (7 * SYSTEM_CYCLES_PER_CPU) s in
      let s := push (Z.shiftr (PC s - 1) 8) s in
      let s := push (Z.land (PC s - 1) 0x00ff) s in
      let s := push (Z.land (PS_of s) (Z.lnot 0x10)) s in
      let s := set_D false s in
      let s := set_I true s in
      loadVector 0xFFFE 0xFFFF s
    else if nz (Z.land (myExecutionStatus s) NonmaskableInterruptBit) then
      let s := bus_incrementCycles (7 * SYSTEM_CYCLES_PER_CPU) s in
      let s := push (Z.shiftr (PC s - 1) 8) s in
      let s := push (Z.land (PC s - 1) 0x00ff) s in
      let s := push (Z.land (PS_of s) (Z.lnot 0x10)) s in
      let s := set_D false s in
      loadVector 0xFFFA 0xFFFB s
    else s in
  set_myExecutionStatus
    (u8 (Z.land (myExecutionStatus s)
                (Z.lnot (Z.lor MaskableInterruptBit NonmaskableInterruptBit)))) s.

(** How the body of one [case] of M6502.ins ends. *)
Inductive completion : Type :=
| Completed (s : t)
| Threw (e : thrown) (s : t).

(** The instruction bodies generated into M6502.ins, by opcode; [None]
    is an opcode without a [case], which reaches [default]. *)
Variable ins : Z -> option (t -> completion).

(** [IR = peek(PC++, DISASM_CODE)] *)
Definition fetch (s : t) : t :=
  let pc := PC s in
  let s := set_PC (u16 (pc + 1)) s in
  let r := peek pc DISASM_CODE s in
  set_IR (fst r) (snd r).

(** The [try] block of the execution loop. *)
Definition instruction (s : t) : completion :=
  let s := set_icycles 0 s in
  let s := fetch s in
  match ins (IR s) with
  | Some body => body s
  | None => Threw (FatalEmulationError "invalid instruction") s
  end.

Definition interruptPending (s : t) : bool :=
  nz (Z.land (myExecutionStatus s) MaskableInterruptBit)
  || nz (Z.land (myExecutionStatus s) NonmaskableInterruptBit).

(** The loops of M6502::_execute, without DEBUGGER_SUPPORT.  Each turn of
    [loop] is one test of the inner [while]: when it holds an instruction
    is executed, when it fails the rest of the body of the outer [for]
    runs and either returns or comes back to the test.  [fuel] bounds the
    number of turns. *)
Fixpoint loop (fuel : nat) (cycles previousCycles currentCycles : Z)
    (result : DispatchResult) (s : t) : option (DispatchResult * t) :=
  match fuel with
  | O => None
  | S fuel =>
      if (myExecutionStatus s =? 0)
         && (currentCycles <? u64 (cycles * SYSTEM_CYCLES_PER_CPU)) then
        let s := set_myDataAddressForPoke 0 s in
        let s := set_myLastPokeAddress 0 s in
        let s := set_myLastPeekAddress 0 s in
        match instruction s with
        | Completed s =>
            loop fuel cycles previousCycles
                 (u64 (sys_cycles (sys s) - previousCycles)) result s
        | Threw (FatalEmulationError what) s =>
            let s := raise FatalErrorBit s in
            let result := setMessage what result in
            loop fuel cycles previousCycles
                 (u64 (sys_cycles (sys s) - previousCycles)) result s
        | Threw (EmulationWarning what) s =>
            Some (setDebugger currentCycles what (PC s) result, s)
        end
      else
        let s := if interruptPending s then interruptHandler s else s in
        if nz (Z.land (myExecutionStatus s) FatalErrorBit) then
          Some (setFatal currentCycles result, s)
        else if nz (Z.land (myExecutionStatus s) StopExecutionBit) then
          Some (setOk currentCycles result, s)
        else if u64 (cycles * SYSTEM_CYCLES_PER_CPU) <=? currentCycles then
          Some (setOk currentCycles result, s)
        else loop fuel cycles previousCycles currentCycles result s
  end.



(** M6502::save *)
Definition save (s : t) : Serializer.stream :=
  [Serializer.Byte (A s); Serializer.Byte (X s); Serializer.Byte (Y s);
   Serializer.Byte (SP s); Serializer.Byte (IR s); Serializer.Short (PC s);
   Serializer.Bool (N s); Serializer.Bool (V s); Serializer.Bool (B s);
   Serializer.Bool (D s); Serializer.Bool (I s); Serializer.Bool (notZ s);
   Serializer.Bool (C s);
   Serializer.Byte (myExecutionStatus s);
   Serializer.Int (myNumberOfDistinctAccesses s);
   Serializer.Short (myLastAddress s); Serializer.Short (myLastPeekAddress s);
   Serializer.Short (myLastPokeAddress s); Serializer.Short (myDataAddressForPoke s);
   Serializer.Int (myLastSrcAddressS s); Serializer.Int (myLastSrcAddressA s);
   Serializer.Int (myLastSrcAddressX s); Serializer.Int (myLastSrcAddressY s);
   Serializer.Byte (myFlags s);
   Serializer.Bool (myHaltRequested s);
   Serializer.Long (myLastBreakCycle s)].

(** M6502::load, without DEBUGGER_SUPPORT: the members are assigned in
    order inside the [try] block; an exception keeps those assigned so
    far and makes the result false. *)
Definition load (st : Serializer.stream) (s : t) : bool * t :=
  let step {T} (get : Serializer.stream -> outcome (T * Serializer.stream))
           (set : T -> t -> t) (k : Serializer.stream -> t -> bool * t)
           (st : Serializer.stream) (s : t) : bool * t :=
    match get st with
    | Ret (v, st') => k st' (set v s)
    | _ => (false, s)
    end in
  step getByte set_A
  (step getByte set_X
  (step getByte set_Y
  (step getByte set_SP
  (step getByte set_IR
  (step Serializer.getShort set_PC
  (step Serializer.getBool set_N
  (step Serializer.getBool set_V
  (step Serializer.getBool set_B
  (step Serializer.getBool set_D
  (step Serializer.getBool set_I
  (step Serializer.getBool set_notZ
  (step Serializer.getBool set_C
  (step getByte set_myExecutionStatus
  (step Serializer.getInt set_myNumberOfDistinctAccesses
  (step Serializer.getShort set_myLastAddress
  (step Serializer.getShort set_myLastPeekAddress
  (step Serializer.getShort set_myLastPokeAddress
  (step Serializer.getShort set_myDataAddressForPoke
  (step Serializer.getInt set_myLastSrcAddressS
  (step Serializer.getInt set_myLastSrcAddressA
  (step Serializer.getInt set_myLastSrcAddressX
  (step Serializer.getInt set_myLastSrcAddressY
  (step getByte set_myFlags
  (step Serializer.getBool set_myHaltRequested
  (step Serializer.getLong set_myLastBreakCycle
  (fun _ s => (true, s))))))))))))))))))))))))))) st s.

(** ** The interrupt handler *)

Lemma has_push bits v s :
  0 <= bits < 256 -> has bits (myExecutionStatus s) ->
  has bits (myExecutionStatus (push v s)).
Proof.
  intros Hb H. unfold push, bus_poke, raise.
  cbn [myExecutionStatus set_myExecutionStatus set_sys set_SP].
  apply has_raise; assumption.
Qed.

Lemma has_loadVector bits lo hi s :
  0 <= bits < 256 -> has bits (myExecutionStatus s) ->
  has bits (myExecutionStatus (loadVector lo hi s)).
Proof.
  intros Hb H. unfold loadVector, bus_peek, raise.
  cbn [myExecutionStatus set_myExecutionStatus set_sys set_PC fst snd].
  apply has_raise; [assumption|]. apply has_raise; assumption.
Qed.

(** A status bit that is not an interrupt bit survives the handler. *)
Lemma interruptHandler_keeps bits s :
  0 <= bits < 256 ->
  Z.land bits (Z.lor MaskableInterruptBit NonmaskableInterruptBit) = 0 ->
  has bits (myExecutionStatus s) ->
  has bits (myExecutionStatus (interruptHandler s)).
Proof.
  intros Hb Hm H. unfold interruptHandler. cbv zeta.
  cbn [myExecutionStatus set_myExecutionStatus].
  apply has_clear; [assumption|assumption|].
  assert (HD : forall v x, myExecutionStatus (set_D v x) = myExecutionStatus x)
    by reflexivity.
  assert (HI : forall v x, myExecutionStatus (set_I v x) = myExecutionStatus x)
    by reflexivity.
  destruct (_ && _).
  - apply has_loadVector; [assumption|]. rewrite HI, HD.
    do 3 (apply has_push; [assumption|]). exact H.
  - destruct (nz _); [|exact H].
    apply has_loadVector; [assumption|]. rewrite HD.
    do 3 (apply has_push; [assumption|]). exact H.
Qed.

(** The processor after the clock step and the three pushes that both
    kinds of interrupt start with. *)
Definition pushed (s : t) : t :=
  let s := bus_incrementCycles (7 * SYSTEM_CYCLES_PER_CPU) s in
  let s := push (Z.shiftr (PC s - 1) 8) s in
  let s := push (Z.land (PC s - 1) 0x00ff) s in
  push (Z.land (PS_of s) (Z.lnot 0x10)) s.

Definition clearInterrupts (s : t) : t :=
  set_myExecutionStatus
    (u8 (Z.land (myExecutionStatus s)
                (Z.lnot (Z.lor MaskableInterruptBit NonmaskableInterruptBit)))) s.

Lemma interruptHandler_cases s :
  interruptHandler s
  = clearInterrupts
      (if nz (Z.land (myExecutionStatus s) MaskableInterruptBit) && negb (I s)
       then loadVector 0xFFFE 0xFFFF (set_I true (set_D false (pushed s)))
       else if nz (Z.land (myExecutionStatus s) NonmaskableInterruptBit)
            then loadVector 0xFFFA 0xFFFB (set_D false (pushed s))
            else s).
Proof. reflexivity. Qed.

Lemma pushed_system s :
  0 <= SP s < 256 ->
  let ret := u16 (PC s - 1) in
  let sys0 := sys_incrementCycles (7 * SYSTEM_CYCLES_PER_CPU) (sys s) in
  let w1 := sys_poke (0x0100 + SP s) (Z.shiftr ret 8) 0 sys0 in
  let w2 := sys_poke (0x0100 + u8 (SP s - 1)) (Z.land ret 0xFF) 0 (snd w1) in
  let w3 := sys_poke (0x0100 + u8 (SP s - 2))
                     (u8 (Z.land (PS_of s) (Z.lnot 0x10))) 0 (snd w2) in
  sys (pushed s) = snd w3 /\ SP (pushed s) = u8 (SP s - 3) /\
  D (pushed s) = D s /\ I (pushed s) = I s.
Proof.
  intros Hsp ret sys0 w1 w2 w3.
  assert (A1 : u16 (0x0100 + SP s) = 0x0100 + SP s) by (unfold u16; apply Z.mod_small; lia).
  assert (A2 : forall x, u16 (0x0100 + u8 x) = 0x0100 + u8 x).
  { intros x. pose proof (u8_range x). unfold u16. apply Z.mod_small. lia. }
  assert (Hpush : forall v x,
            sys (push v x) = snd (sys_poke (u16 (0x0100 + SP x)) (u8 v) 0 (sys x))
            /\ SP (push v x) = u8 (SP x - 1) /\ PC (push v x) = PC x
            /\ PS_of (push v x) = PS_of x /\ D (push v x) = D x /\ I (push v x) = I x).
  { intros v x. repeat split; reflexivity. }
  set (s0 := bus_incrementCycles (7 * SYSTEM_CYCLES_PER_CPU) s).
  assert (H0 : sys s0 = sys0 /\ SP s0 = SP s /\ PC s0 = PC s /\ PS_of s0 = PS_of s
               /\ D s0 = D s /\ I s0 = I s) by (repeat split; reflexivity).
  destruct H0 as (S0 & P0 & C0 & F0 & D0 & I0).
  set (s1 := push (Z.shiftr (PC s0 - 1) 8) s0).
  destruct (Hpush (Z.shiftr (PC s0 - 1) 8) s0) as (S1 & P1 & C1 & F1 & D1 & I1).
  fold s1 in S1, P1, C1, F1, D1, I1.
  set (s2 := push (Z.land (PC s1 - 1) 0x00ff) s1).
  destruct (Hpush (Z.land (PC s1 - 1) 0x00ff) s1) as (S2 & P2 & C2 & F2 & D2 & I2).
  fold s2 in S2, P2, C2, F2, D2, I2.
  set (s3 := push (Z.land (PS_of s2) (Z.lnot 0x10)) s2).
  destruct (Hpush (Z.land (PS_of s2) (Z.lnot 0x10)) s2) as (S3 & P3 & C3 & F3 & D3 & I3).
  fold s3 in S3, P3, C3, F3, D3, I3.
  change (pushed s) with s3.
  rewrite C0, S0, P0, A1, high_byte in S1. rewrite P0 in P1.
  rewrite C1, C0, S1, P1, A2, low_byte in S2. rewrite P1, u8_pred2 in P2.
  rewrite F2, F1, F0, S2, P2, A2 in S3. rewrite P2 in P3.
  split; [exact S3|]. split.
  - rewrite P3. unfold u8. rewrite Zminus_mod_idemp_l. f_equal. lia.
  - split; congruence.
Qed.

Lemma loadVector_system lo hi x :
  0 <= lo < 65536 -> 0 <= hi < 65536 ->
  let r1 := sys_peek lo 0 (sys x) in
  let r2 := sys_peek hi 0 (snd r1) in
  sys (loadVector lo hi x) = snd r2 /\
  PC (loadVector lo hi x) = Z.lor (u8 (fst (fst r1))) (Z.shiftl (u8 (fst (fst r2))) 8) /\
  SP (loadVector lo hi x) = SP x /\ D (loadVector lo hi x) = D x /\
  I (loadVector lo hi x) = I x.
Proof.
  intros Hlo Hhi r1 r2.
  assert (L1 : u16 lo = lo) by (unfold u16; apply Z.mod_small; lia).
  assert (L2 : u16 hi = hi) by (unfold u16; apply Z.mod_small; lia).
  unfold loadVector, bus_peek, raise.
  cbn [sys PC SP D I set_sys set_myExecutionStatus set_PC fst snd].
  rewrite L1, L2. change (u8 0) with 0. fold r1. fold r2.
  split; [reflexivity|]. split; [apply word_of_bytes|]. repeat split.
Qed.

(** X1.  What M6502::interruptHandler does with the pending
    interrupt bits.  A maskable interrupt is taken when it is pending and
    I is clear; otherwise a pending non-maskable one is taken.  Taking an
    interrupt advances the clock by seven processor cycles and pushes
    three bytes at 0x0100 + SP, the stack pointer stepping down (modulo
    256) after each: the high byte and the low byte of PC - 1 (modulo
    65536) and the status byte with bit 4 cleared.  D is cleared, I is set
    for the maskable interrupt only, and PC is loaded from 0xFFFE/0xFFFF
    (maskable) or 0xFFFA/0xFFFB (non-maskable).  When none is taken
    nothing is pushed.  Both pending bits are cleared in every case. *)
Theorem interruptHandler_pushes_return_address (s : t) :
  0 <= SP s < 256 ->
  let irq := nz (Z.land (myExecutionStatus s) MaskableInterruptBit) && negb (I s) in
  let nmi := negb irq && nz (Z.land (myExecutionStatus s) NonmaskableInterruptBit) in
  let s' := interruptHandler s in
  Z.land (myExecutionStatus s')
         (Z.lor MaskableInterruptBit NonmaskableInterruptBit) = 0 /\
  if irq || nmi then
    let ret := u16 (PC s - 1) in
    let sys0 := sys_incrementCycles (7 * SYSTEM_CYCLES_PER_CPU) (sys s) in
    let w1 := sys_poke (0x0100 + SP s) (Z.shiftr ret 8) 0 sys0 in
    let w2 := sys_poke (0x0100 + u8 (SP s - 1)) (Z.land ret 0xFF) 0 (snd w1) in
    let w3 := sys_poke (0x0100 + u8 (SP s - 2))
                       (u8 (Z.land (PS_of s) (Z.lnot 0x10))) 0 (snd w2) in
    let r1 := sys_peek (if irq then 0xFFFE else 0xFFFA) 0 (snd w3) in
    let r2 := sys_peek (if irq then 0xFFFF else 0xFFFB) 0 (snd r1) in
    sys s' = snd r2 /\
    PC s' = Z.lor (u8 (fst (fst r1))) (Z.shiftl (u8 (fst (fst r2))) 8) /\
    SP s' = u8 (SP s - 3) /\
    D s' = false /\ I s' = (irq || I s)
  else
    s' = set_myExecutionStatus
           (u8 (Z.land (myExecutionStatus s)
                       (Z.lnot (Z.lor MaskableInterruptBit NonmaskableInterruptBit)))) s.
Proof.
  intros Hsp irq nmi s'.
  split; [apply cleared|].
  destruct (pushed_system s Hsp) as (S3 & P3 & D3 & I3).
  assert (Hset : forall v x, sys (set_I v x) = sys x /\ SP (set_I v x) = SP x
                             /\ sys (set_D v x) = sys x /\ SP (set_D v x) = SP x
                             /\ D (set_D v x) = v /\ D (set_I v x) = D x
                             /\ I (set_I v x) = v /\ I (set_D v x) = I x)
    by (intros v x; repeat split; reflexivity).
  assert (Hclr : forall x, sys (clearInterrupts x) = sys x /\ PC (clearInterrupts x) = PC x
                           /\ SP (clearInterrupts x) = SP x /\ D (clearInterrupts x) = D x
                           /\ I (clearInterrupts x) = I x)
    by (intros x; repeat split; reflexivity).
  unfold s', nmi. rewrite interruptHandler_cases. fold irq.
  destruct irq eqn:Eirq; cbn [orb negb andb].
  - set (x := set_I true (set_D false (pushed s))).
    destruct (loadVector_system 0xFFFE 0xFFFF x ltac:(lia) ltac:(lia))
      as (E1 & E2 & E3 & E4 & E5).
    destruct (Hclr (loadVector 0xFFFE 0xFFFF x)) as (C1 & C2 & C3 & C4 & C5).
    rewrite C1, C2, C3, C4, C5, E1, E2, E3, E4, E5.
    destruct (Hset true (set_D false (pushed s))) as (H1 & H2 & _ & _ & _ & H6 & H7 & _).
    destruct (Hset false (pushed s)) as (_ & _ & H3 & H4 & H5 & _ & _ & _).
    unfold x. rewrite H1, H2, H6, H7, H3, H4, H5, S3, P3.
    repeat split.
  - destruct (nz (Z.land (myExecutionStatus s) NonmaskableInterruptBit)); [|reflexivity].
    set (x := set_D false (pushed s)).
    destruct (loadVector_system 0xFFFA 0xFFFB x ltac:(lia) ltac:(lia))
      as (E1 & E2 & E3 & E4 & E5).
    destruct (Hclr (loadVector 0xFFFA 0xFFFB x)) as (C1 & C2 & C3 & C4 & C5).
    rewrite C1, C2, C3, C4, C5, E1, E2, E3, E4, E5.
    destruct (Hset false (pushed s)) as (_ & _ & H3 & H4 & H5 & _ & _ & H8).
    unfold x. rewrite H3, H4, H5, H8, S3, P3, I3.
    repeat split.
Qed.

(** X2.  The handler clears the two interrupt bits only: status bits
    outside them that are set when it starts (a stop request, a fatal
    error) are still set when it returns, whichever branch it takes and
    whatever the accessed devices flag meanwhile. *)
Theorem interruptHandler_keeps_other_status_bits (bits : Z) (s : t) :
  0 <= bits < 256 ->
  Z.land bits (Z.lor MaskableInterruptBit NonmaskableInterruptBit) = 0 ->
  Z.land (myExecutionStatus s) bits = bits ->
  Z.land (myExecutionStatus (interruptHandler s)) bits = bits /\
  Z.land (myExecutionStatus (interruptHandler s))
         (Z.lor MaskableInterruptBit NonmaskableInterruptBit) = 0.
Proof.
  intros Hb Hm H. split.
  - apply (interruptHandler_keeps bits s Hb Hm H).
  - apply cleared.
Qed.

(** ** The execution loop *)

(** One turn of the loop. *)
Lemma loop_turn fuel cycles previousCycles currentCycles result s :
  loop (S fuel) cycles previousCycles currentCycles result s
  = if (myExecutionStatus s =? 0)
       && (currentCycles <? u64 (cycles * SYSTEM_CYCLES_PER_CPU))
    then
      match instruction (set_myLastPeekAddress 0 (set_myLastPokeAddress 0
                           (set_myDataAddressForPoke 0 s))) with
      | Completed s' =>
          loop fuel cycles previousCycles
               (u64 (sys_cycles (sys s') - previousCycles)) result s'
      | Threw (FatalEmulationError what) s' =>
          loop fuel cycles previousCycles
               (u64 (sys_cycles (sys (raise FatalErrorBit s')) - previousCycles))
               (setMessage what result) (raise FatalErrorBit s')
      | Threw (EmulationWarning what) s' =>
          Some (setDebugger currentCycles what (PC s') result, s')
      end
    else
      let s' := if interruptPending s then interruptHandler s else s in
      if nz (Z.land (myExecutionStatus s') FatalErrorBit) then
        Some (setFatal currentCycles result, s')
      else if nz (Z.land (myExecutionStatus s') StopExecutionBit) then
        Some (setOk currentCycles result, s')
      else if u64 (cycles * SYSTEM_CYCLES_PER_CPU) <=? currentCycles then
        Some (setOk currentCycles result, s')
      else loop fuel cycles previousCycles currentCycles result s'.
Proof. reflexivity. Qed.

(** X3.  An opcode without an entry in the dispatch table halts the run.
    At any test of the inner loop of M6502::_execute that lets another
    instruction start (no status bit set, budget not used up), if the
    opcode then fetched has no [case] in M6502.ins, the call returns: the
    result is marked fatal, carries the message of the error and the
    cycles used up to the fetch, and the processor is left as the fetch
    left it with the fatal bit set (and a pending interrupt handled), no
    instruction body having run. *)
Theorem invalid_opcode_halts_fatal
    (n : nat) (cycles previousCycles currentCycles : Z) (result : DispatchResult) (s : t) :
  0 < FatalErrorBit < 256 ->
  Z.land FatalErrorBit (Z.lor MaskableInterruptBit NonmaskableInterruptBit) = 0 ->
  myExecutionStatus s = 0 ->
  currentCycles < u64 (cycles * SYSTEM_CYCLES_PER_CPU) ->
  let s1 := fetch (set_icycles 0 (set_myLastPeekAddress 0 (set_myLastPokeAddress 0
                     (set_myDataAddressForPoke 0 s)))) in
  ins (IR s1) = None ->
  let s2 := raise FatalErrorBit s1 in
  let s3 := if interruptPending s2 then interruptHandler s2 else s2 in
  let r := setFatal (u64 (sys_cycles (sys s2) - previousCycles))
                    (setMessage "invalid instruction" result) in
  loop (S (S n)) cycles previousCycles currentCycles result s = Some (r, s3) /\
  myStatus r = fatal /\ myMessage r = "invalid instruction"%string /\
  isSuccess r = false.
Proof.
  intros Hf Hmask Hs Hc s1 Hins s2 s3 r.
  split; [|repeat split].
  assert (H2 : has FatalErrorBit (myExecutionStatus s2)).
  { unfold s2, raise. cbn [myExecutionStatus set_myExecutionStatus].
    apply has_raise_self. lia. }
  assert (H3 : has FatalErrorBit (myExecutionStatus s3)).
  { unfold s3. destruct (interruptPending s2); [|exact H2].
    apply interruptHandler_keeps; [lia|exact Hmask|exact H2]. }
  rewrite loop_turn.
  rewrite Hs. destruct (Z.ltb_spec currentCycles (u64 (cycles * SYSTEM_CYCLES_PER_CPU)));
    [|lia].
  cbn [Z.eqb andb]. unfold instruction. cbv zeta. fold s1. rewrite Hins. fold s2.
  rewrite loop_turn. rewrite (has_nonzero _ _ (proj1 Hf) H2). cbn [andb]. cbv zeta.
  fold s3. rewrite (has_nz _ _ (proj1 Hf) H3). reflexivity.
Qed.

(** X4.  A stop request ends the run.  At a test of the inner loop with
    the stop bit set, the call returns without fetching another
    instruction, after handling a pending interrupt: with an ok result,
    or with a fatal one when the fatal bit is set as well. *)
Theorem stop_request_ends_run
    (n : nat) (cycles previousCycles currentCycles : Z) (result : DispatchResult) (s : t) :
  0 < StopExecutionBit < 256 ->
  Z.land StopExecutionBit (Z.lor MaskableInterruptBit NonmaskableInterruptBit) = 0 ->
  Z.land (myExecutionStatus s) StopExecutionBit = StopExecutionBit ->
  let s' := if interruptPending s then interruptHandler s else s in
  loop (S n) cycles previousCycles currentCycles result s
  = Some (if nz (Z.land (myExecutionStatus s') FatalErrorBit)
          then setFatal currentCycles result
          else setOk currentCycles result, s').
Proof.
  intros Hb Hmask Hs s'.
  assert (H' : has StopExecutionBit (myExecutionStatus s')).
  { unfold s'. destruct (interruptPending s); [|exact Hs].
    apply interruptHandler_keeps; [lia|exact Hmask|exact Hs]. }
  rewrite loop_turn. rewrite (has_nonzero _ _ (proj1 Hb) Hs). cbn [andb]. cbv zeta.
  fold s'. destruct (nz (Z.land (myExecutionStatus s') FatalErrorBit)); [reflexivity|].
  rewrite (has_nz _ _ (proj1 Hb) H'). reflexivity.
Qed.


(** ** Save and load *)


(** X7.  [load] fails on every stream that stops short: given only the
    first [k] of the 26 items of a saved state it returns false. *)
Theorem load_truncated_fails (k : nat) (s u : t) :
  (k < 26)%nat -> fst (load (take k (save s)) u) = false.
Proof.
  intros Hk.
  do 26 (destruct k as [|k]; [reflexivity|]). lia.
Qed.

End Core.

(** ** A small system for the examples

    The system is the list of the writes it has received, latest last;
    every read returns the low byte of its address; the clock stands
    still.  The status byte is packed as on the 6502. *)
Definition log_peek (address flags : Z) (log : list (Z * Z)) : Z * Z * list (Z * Z) :=
  (Z.land address 0xFF, 0, log).

Definition log_poke (address value flags : Z) (log : list (Z * Z)) : Z * list (Z * Z) :=
  (0, log ++ [(address, value)]).

Definition packed_PS (n v b d i notz c : bool) : Z :=
  (if n then 0x80 else 0) + (if v then 0x40 else 0) + 0x20 + (if b then 0x10 else 0)
  + (if d then 0x08 else 0) + (if i then 0x04 else 0) + (if notz then 0 else 0x02)
  + (if c then 0x01 else 0).

Definition example_state (status pc : Z) : t (list (Z * Z)) :=
  {| myExecutionStatus := status; A := 0; X := 0; Y := 0; SP := 0xFD; IR := 0; PC := pc;
     N := false; V := false; B := true; D := true; I := false; notZ := true; C := false;
     icycles := 0; myNumberOfDistinctAccesses := 0; myLastAddress := 0;
     myLastPeekAddress := 0; myLastPokeAddress := 0; myDataAddressForPoke := 0;
     myLastSrcAddressS := -1; myLastSrcAddressA := -1; myLastSrcAddressX := -1;
     myLastSrcAddressY := -1; myFlags := 0; myHaltRequested := false;
     myLastBreakCycle := 0; sys := [] |}.

Definition example_handler : t (list (Z * Z)) -> t (list (Z * Z)) :=
  interruptHandler (list (Z * Z)) (fun _ log => log) log_peek log_poke 0x04 0x08 1 packed_PS.

(** With PC = 0x1234 the second byte pushed is 0x33, the low byte of
    PC - 1, and not 0x34, the low byte of PC. *)
Example interruptHandler_pushes_pc_minus_one :
  let s := example_state 0x04 0x1234 in
  sys _ (example_handler s) = [(0x01FD, 0x12); (0x01FC, 0x33); (0x01FB, 0x28)] /\
  Z.land (PC _ s) 0xFF = 0x34.
Proof. split; reflexivity. Qed.

Lemma interruptHandler_pushes_return_address_witness :
  let s := example_state 0x0C 0x1234 in
  let s' := example_handler s in
  sys _ s' = [(0x01FD, 0x12); (0x01FC, 0x33); (0x01FB, 0x28)] /\
  PC _ s' = 0xFFFE /\ SP _ s' = 0xFA /\ myExecutionStatus _ s' = 0.
Proof.
  intros s s'.
  assert (Hsp : 0 <= SP _ s < 256) by (cbn; lia).
  destruct (interruptHandler_pushes_return_address (list (Z * Z)) (fun _ log => log)
              log_peek log_poke 0x04 0x08 1 packed_PS s Hsp)
    as (_ & H).
  vm_compute in H. destruct H as (E1 & E2 & E3 & _).
  split; [exact E1|]. split; [exact E2|]. split; [exact E3|reflexivity].
Defined.

Lemma invalid_opcode_halts_fatal_witness :
  let s := example_state 0 0x1234 in
  exists r s',
    loop (list (Z * Z)) (fun log => Z.of_nat (length log)) (fun _ log => log)
         log_peek log_poke (fun log => log) 0x01 0x02 0x04 0x08 1 packed_PS
         (fun _ => None) 2 10 0 0
         {| myStatus := invalid; myCycles := 0; myMessage := EmptyString; myAddress := 0 |} s
    = Some (r, s') /\
    myStatus r = fatal /\ myMessage r = "invalid instruction"%string /\
    PC _ s' = 0x1235 /\ IR _ s' = 0x34.
Proof.
  intros s.
  assert (H1 : 0 < 0x02 < 256) by lia.
  assert (H2 : Z.land 0x02 (Z.lor 0x04 0x08) = 0) by reflexivity.
  assert (H3 : myExecutionStatus _ s = 0) by reflexivity.
  assert (H4 : 0 < u64 (10 * 1)) by (vm_compute; reflexivity).
  destruct (invalid_opcode_halts_fatal (list (Z * Z)) (fun log => Z.of_nat (length log))
              (fun _ log => log) log_peek log_poke (fun log => log) 0x01 0x02 0x04 0x08 1
              packed_PS (fun _ => None) 0 10 0 0
              {| myStatus := invalid; myCycles := 0; myMessage := EmptyString;
                 myAddress := 0 |} s H1 H2 H3 H4 eq_refl)
    as (E & Hst & Hmsg & _).
  eexists. eexists. split; [exact E|]. split; [exact Hst|]. split; [exact Hmsg|].
  split; reflexivity.
Defined.

Lemma interruptHandler_keeps_other_status_bits_witness :
  let s := example_state 0x0E 0x1234 in
  Z.land (myExecutionStatus _ (example_handler s)) 0x02 = 0x02 /\
  Z.land (myExecutionStatus _ (example_handler s)) (Z.lor 0x04 0x08) = 0.
Proof.
  intros s.
  apply (interruptHandler_keeps_other_status_bits (list (Z * Z)) (fun _ log => log)
           log_peek log_poke 0x04 0x08 1 packed_PS 0x02 s);
    [lia|reflexivity|reflexivity].
Defined.

Lemma stop_request_ends_run_witness :
  let s := example_state 0x01 0x1234 in
  loop (list (Z * Z)) (fun log => Z.of_nat (length log)) (fun _ log => log)
       log_peek log_poke (fun log => log) 0x01 0x02 0x04 0x08 1 packed_PS
       (fun _ => None) 1 10 0 3
       {| myStatus := invalid; myCycles := 0; myMessage := EmptyString; myAddress := 0 |} s
  = Some ({| myStatus := ok; myCycles := 3; myMessage := EmptyString; myAddress := 0 |}, s).
Proof.
  intros s.
  apply (stop_request_ends_run (list (Z * Z)) (fun log => Z.of_nat (length log))
           (fun _ log => log) log_peek log_poke (fun log => log) 0x01 0x02 0x04 0x08 1
           packed_PS (fun _ => None) 0 10 0 3
           {| myStatus := invalid; myCycles := 0; myMessage := EmptyString;
              myAddress := 0 |} s);
    [lia|reflexivity|reflexivity].
Defined.

Lemma load_truncated_fails_witness :
  let s := example_state 0 0x1234 in
  fst (load _ (take 5 (save _ s)) s) = false.
Proof.
  intros s. apply (load_truncated_fails (list (Z * Z)) 5 s s). lia.
Defined.

End M6502.

(** * A fixed-size stack (src/common/Stack.hxx) *)

Module FixedStack.

Section Stack.

(** The element type and capacity of [FixedStack<T, CAPACITY>]; [moved]
    is what a move leaves behind in the slot moved from. *)
Variable T : Type.
Variable CAPACITY : Z.
Variable moved : T -> T.

Record t : Type := {
  _stack : list T;        (* array<T, CAPACITY> *)
  _size : Z               (* uInt32 *)
}.

(** [FixedStack()]: [slots] are the default-initialised elements of the
    array. *)
Definition FixedStack (slots : list T) : t := {| _stack := slots; _size := 0 |}.

(** [_stack[i]]: [std::array::operator[]] does not check its index. *)
Definition slot_at (a : list T) (i : Z) : outcome T :=
  if (0 <=? i) && (i <? CAPACITY) then
    match a !! Z.to_nat i with Some x => Ret x | None => Undefined end
  else Undefined.

Definition empty (s : t) : bool := _size s <=? 0.
Definition full (s : t) : bool := CAPACITY <=? _size s.

Definition top (s : t) : outcome T := slot_at (_stack s) (u32 (_size s - 1)).
Definition get (pos : Z) (s : t) : outcome T := slot_at (_stack s) (u32 pos).

(** [_stack[_size++] = x] *)
Definition push (x : T) (s : t) : outcome t :=
  _ ← slot_at (_stack s) (_size s);
  Ret {| _stack := <[Z.to_nat (_size s) := x]> (_stack s); _size := u32 (_size s + 1) |}.

(** [return std::move(_stack[--_size])] *)
Definition pop (s : t) : outcome (T * t) :=
  let size := u32 (_size s - 1) in
  x ← slot_at (_stack s) size;
  Ret (x, {| _stack := <[Z.to_nat size := moved x]> (_stack s); _size := size |}).

Definition size (s : t) : Z := _size s.

(** [std::swap(_stack[i], _stack[j])] *)
Definition swap (a : list T) (i j : Z) : outcome (list T) :=
  x ← slot_at a i;
  y ← slot_at a j;
  Ret (<[Z.to_nat j := x]> (<[Z.to_nat i := y]> a)).

(** The loop of [reverse]; every turn that swaps brings [i] and [j] one
    step closer, so [fuel] turns are enough for slots [fuel] apart. *)
Fixpoint reverse_loop (fuel : nat) (i j : Z) (a : list T) : outcome (list T) :=
  if i <? j then
    match fuel with
    | O => Undefined
    | S fuel =>
        a ← swap a i j;
        reverse_loop fuel (u32 (i + 1)) (u32 (j - 1)) a
    end
  else Ret a.

(** FixedStack::reverse *)
Definition reverse (s : t) : outcome t :=
  a ← reverse_loop (length (_stack s)) 0 (u32 (_size s - 1)) (_stack s);
  Ret {| _stack := a; _size := _size s |}.



Fixpoint push_all (xs : list T) (s : t) : outcome t :=
  match xs with
  | [] => Ret s
  | x :: xs => s ← push x s; push_all xs s
  end.

Fixpoint pop_n (n : nat) (s : t) : outcome (list T * t) :=
  match n with
  | O => Ret ([], s)
  | S n => '(x, s) ← pop s; '(xs, s) ← pop_n n s; Ret (x :: xs, s)
  end.

(** The elements on the stack, bottom first. *)
Definition live (s : t) : list T := take (Z.to_nat (_size s)) (_stack s).

(** The array has [CAPACITY] slots, of which the first [_size] are in
    use. *)
Definition wf (s : t) : Prop :=
  Z.of_nat (length (_stack s)) = CAPACITY /\ CAPACITY < 4294967296 /\
  0 <= _size s <= CAPACITY.

Lemma u32_small x : 0 <= x < 4294967296 -> u32 x = x.
Proof. intros H. unfold u32. apply Z.mod_small. exact H. Qed.

Lemma slot_at_in a i :
  Z.of_nat (length a) = CAPACITY -> 0 <= i < CAPACITY ->
  exists x, a !! Z.to_nat i = Some x /\ slot_at a i = Ret x.
Proof.
  intros Hlen Hi. unfold slot_at.
  destruct (Z.leb_spec 0 i); [|lia]. destruct (Z.ltb_spec i CAPACITY); [|lia].
  cbn [andb]. destruct (a !! Z.to_nat i) as [x|] eqn:E.
  - exists x. auto.
  - apply lookup_ge_None in E. lia.
Qed.

Lemma slot_at_out a i : ~ (0 <= i < CAPACITY) -> slot_at a i = Undefined.
Proof.
  intros Hi. unfold slot_at.
  destruct (Z.leb_spec 0 i); [|reflexivity].
  destruct (Z.ltb_spec i CAPACITY); [lia|reflexivity].
Qed.

Lemma push_live x s :
  wf s -> _size s < CAPACITY ->
  exists s', push x s = Ret s' /\ wf s' /\ live s' = live s ++ [x] /\
             _size s' = _size s + 1.
Proof.
  intros (Hlen & Hcap & Hs) Hroom. unfold push.
  destruct (slot_at_in (_stack s) (_size s) Hlen ltac:(lia)) as (y & Hy & ->).
  cbn [mbind outcome_bind]. eexists. split; [reflexivity|].
  rewrite u32_small by lia.
  unfold wf, live. cbn [_stack _size]. rewrite length_insert.
  split; [lia|]. split; [|reflexivity].
  replace (Z.to_nat (_size s + 1)) with (S (Z.to_nat (_size s))) by lia.
  rewrite (take_S_r _ _ x).
  - rewrite take_insert_ge by lia. reflexivity.
  - apply list_lookup_insert_eq. lia.
Qed.

Lemma pop_live s l x :
  wf s -> live s = l ++ [x] ->
  exists s', pop s = Ret (x, s') /\ wf s' /\ live s' = l /\ _size s' = _size s - 1.
Proof.
  intros (Hlen & Hcap & Hs) Hl. unfold pop.
  assert (Hn : Z.to_nat (_size s) = S (length l)).
  { apply (f_equal length) in Hl. unfold live in Hl.
    rewrite length_take, length_app in Hl. cbn [length] in Hl. lia. }
  assert (Hpos : 0 < _size s) by lia.
  rewrite u32_small by lia.
  assert (Hx : _stack s !! Z.to_nat (_size s - 1) = Some x).
  { replace (Z.to_nat (_size s - 1)) with (length l) by lia.
    rewrite <- (lookup_take_lt (_stack s) (Z.to_nat (_size s))) by lia.
    fold (live s). rewrite Hl. rewrite lookup_app_r by lia.
    rewrite Nat.sub_diag. reflexivity. }
  destruct (slot_at_in (_stack s) (_size s - 1) Hlen ltac:(lia)) as (y & Hy & ->).
  rewrite Hx in Hy. injection Hy as <-.
  cbn [mbind outcome_bind]. eexists. split; [reflexivity|].
  unfold wf, live in *. cbn [_stack _size]. rewrite length_insert.
  split; [lia|]. split; [|reflexivity].
  rewrite take_insert_ge by lia.
  replace (Z.to_nat (_size s - 1)) with (length l) by lia.
  rewrite Hn in Hl. rewrite (take_S_r _ _ x) in Hl.
  - apply app_inj_tail in Hl. apply Hl.
  - replace (length l) with (Z.to_nat (_size s - 1)) by lia. exact Hx.
Qed.

Lemma push_all_live xs : forall s,
  wf s -> _size s + Z.of_nat (length xs) <= CAPACITY ->
  exists s', push_all xs s = Ret s' /\ wf s' /\ live s' = live s ++ xs /\
             _size s' = _size s + Z.of_nat (length xs).
Proof.
  induction xs as [|x xs IH]; intros s Hwf Hroom.
  - exists s. rewrite app_nil_r. cbn [length]. repeat split; try apply Hwf. lia.
  - cbn [length] in Hroom.
    destruct (push_live x s Hwf ltac:(lia)) as (s1 & E1 & Hwf1 & Hl1 & Hs1).
    destruct (IH s1 Hwf1 ltac:(lia)) as (s2 & E2 & Hwf2 & Hl2 & Hs2).
    exists s2. cbn [push_all]. rewrite E1. cbn [mbind outcome_bind].
    split; [exact E2|]. split; [exact Hwf2|]. split.
    + rewrite Hl2, Hl1, <- app_assoc. reflexivity.
    + cbn [length]. lia.
Qed.

Lemma pop_n_live xs : forall s l,
  wf s -> live s = l ++ xs ->
  exists s', pop_n (length xs) s = Ret (rev xs, s') /\ wf s' /\ live s' = l /\
             _size s' = _size s - Z.of_nat (length xs).
Proof.
  induction xs as [|x xs IH] using rev_ind; intros s l Hwf Hl.
  - exists s. rewrite app_nil_r in Hl. cbn [length]. repeat split; try apply Hwf; auto. lia.
  - rewrite app_assoc in Hl.
    destruct (pop_live s (l ++ xs) x Hwf Hl) as (s1 & E1 & Hwf1 & Hl1 & Hs1).
    destruct (IH s1 l Hwf1 Hl1) as (s2 & E2 & Hwf2 & Hl2 & Hs2).
    exists s2. rewrite length_app, Nat.add_comm. cbn [length Nat.add pop_n].
    rewrite E1. cbn [mbind outcome_bind]. rewrite E2. cbn [mbind outcome_bind].
    rewrite rev_unit. split; [reflexivity|]. split; [exact Hwf2|].
    split; [exact Hl2|]. lia.
Qed.

Lemma swap_ends pre x mid y post :
  Z.of_nat (length (pre ++ x :: mid ++ y :: post)) = CAPACITY ->
  swap (pre ++ x :: mid ++ y :: post)
       (Z.of_nat (length pre)) (Z.of_nat (length pre) + Z.of_nat (length mid) + 1)
  = Ret (pre ++ y :: mid ++ x :: post).
Proof.
  intros Hlen. unfold swap.
  pose proof Hlen as Hlen'. rewrite length_app in Hlen'. cbn [length] in Hlen'.
  rewrite length_app in Hlen'. cbn [length] in Hlen'.
  destruct (slot_at_in _ (Z.of_nat (length pre)) Hlen ltac:(lia)) as (x' & Hx & ->).
  destruct (slot_at_in _ (Z.of_nat (length pre) + Z.of_nat (length mid) + 1) Hlen
              ltac:(lia)) as (y' & Hy & ->).
  cbn [mbind outcome_bind].
  rewrite Nat2Z.id in Hx. rewrite list_lookup_middle in Hx by reflexivity.
  injection Hx as <-.
  replace (Z.to_nat (Z.of_nat (length pre) + Z.of_nat (length mid) + 1))
    with (length (pre ++ x :: mid)) in *
    by (rewrite length_app; cbn [length]; lia).
  replace (pre ++ x :: mid ++ y :: post) with ((pre ++ x :: mid) ++ y :: post) in Hy
    by (rewrite <- app_assoc; reflexivity).
  rewrite list_lookup_middle in Hy by reflexivity. injection Hy as <-.
  rewrite Nat2Z.id.
  rewrite insert_app_r_alt by lia. rewrite Nat.sub_diag. cbn [insert list_insert].
  replace (pre ++ y :: mid ++ y :: post) with ((pre ++ y :: mid) ++ y :: post)
    by (rewrite <- app_assoc; reflexivity).
  rewrite insert_app_r_alt by (rewrite !length_app; cbn [length]; lia).
  replace (length (pre ++ x :: mid) - length (pre ++ y :: mid))%nat with 0%nat
    by (rewrite !length_app; cbn [length]; lia).
  cbn [insert list_insert]. rewrite <- app_assoc. reflexivity.
Qed.

Lemma reverse_loop_segment fuel : forall pre mid post,
  Z.of_nat (length (pre ++ mid ++ post)) = CAPACITY -> CAPACITY < 4294967296 ->
  (length mid <= fuel)%nat ->
  reverse_loop fuel (Z.of_nat (length pre))
               (Z.of_nat (length pre) + Z.of_nat (length mid) - 1) (pre ++ mid ++ post)
  = Ret (pre ++ rev mid ++ post).
Proof.
  induction fuel as [|fuel IH]; intros pre mid post Hlen Hcap Hfuel.
  - destruct mid; [|cbn [length] in Hfuel; lia]. cbn [length reverse_loop rev app].
    match goal with |- context [?a <? ?b] => destruct (Z.ltb_spec a b) end;
      [lia|reflexivity].
  - destruct mid as [|x mid]; cbn [reverse_loop].
    { cbn [length rev app].
      match goal with |- context [?a <? ?b] => destruct (Z.ltb_spec a b) end;
        [lia|reflexivity]. }
    destruct mid as [|y mid _] using rev_ind.
    { cbn [length rev app].
      match goal with |- context [?a <? ?b] => destruct (Z.ltb_spec a b) end;
        [lia|reflexivity]. }
    cbn [length] in Hfuel |- *. rewrite length_app in Hfuel |- *.
    cbn [length] in Hfuel |- *.
    match goal with |- context [?a <? ?b] => destruct (Z.ltb_spec a b) end; [|lia].
    replace (Z.of_nat (length pre) + Z.of_nat (S (length mid + 1)) - 1)
      with (Z.of_nat (length pre) + Z.of_nat (length mid) + 1) by lia.
    replace (pre ++ (x :: mid ++ [y]) ++ post) with (pre ++ x :: mid ++ y :: post) in *
      by (cbn [app]; rewrite <- app_assoc; reflexivity).
    rewrite swap_ends by exact Hlen. cbn [mbind outcome_bind].
    assert (Hl : Z.of_nat (length pre) + Z.of_nat (length mid) + 2 <= CAPACITY).
    { rewrite length_app in Hlen. cbn [length] in Hlen.
      rewrite length_app in Hlen. cbn [length] in Hlen. lia. }
    rewrite !u32_small by lia.
    replace (pre ++ y :: mid ++ x :: post) with ((pre ++ [y]) ++ mid ++ (x :: post))
      by (rewrite <- app_assoc; reflexivity).
    replace (Z.of_nat (length pre) + 1) with (Z.of_nat (length (pre ++ [y])))
      by (rewrite length_app; cbn [length]; lia).
    replace (Z.of_nat (length pre) + Z.of_nat (length mid) + 1 - 1)
      with (Z.of_nat (length (pre ++ [y])) + Z.of_nat (length mid) - 1)
      by (rewrite length_app; cbn [length]; lia).
    rewrite IH.
    + cbn [rev]. rewrite rev_unit. cbn [app]. rewrite <- !app_assoc. reflexivity.
    + rewrite <- Hlen. rewrite !length_app. cbn [length]. rewrite !length_app.
      cbn [length]. lia.
    + exact Hcap.
    + lia.
Qed.


Lemma stack_split s : wf s -> _stack s = live s ++ drop (Z.to_nat (_size s)) (_stack s).
Proof. intros _. unfold live. symmetry. apply take_drop. Qed.

Lemma live_length s : wf s -> length (live s) = Z.to_nat (_size s).
Proof. intros (Hlen & _ & Hs). unfold live. rewrite length_take. lia. Qed.

(** X11.  Last in, first out.  Pushing elements that fit onto the stack
    and popping as many hands them back in reverse order and leaves the
    elements that were on the stack, and their number, as they were; after
    the pushes [top] is the last element pushed. *)
Theorem push_pop_lifo (s : t) (xs : list T) (x : T) :
  wf s -> _size s + Z.of_nat (length xs) + 1 <= CAPACITY ->
  exists s1 s2,
    push_all (xs ++ [x]) s = Ret s1 /\
    size s1 = size s + Z.of_nat (length xs) + 1 /\ top s1 = Ret x /\
    pop_n (length xs + 1) s1 = Ret (x :: rev xs, s2) /\
    live s2 = live s /\ size s2 = size s.
Proof.
  intros Hwf Hroom.
  destruct (push_all_live (xs ++ [x]) s Hwf) as (s1 & E1 & Hwf1 & Hl1 & Hs1).
  { rewrite length_app. cbn [length]. lia. }
  rewrite length_app in Hs1. cbn [length] in Hs1.
  destruct (pop_n_live (xs ++ [x]) s1 (live s) Hwf1 Hl1) as (s2 & E2 & Hwf2 & Hl2 & Hs2).
  rewrite length_app in E2, Hs2. cbn [length] in E2, Hs2. rewrite rev_unit in E2.
  exists s1, s2. unfold size.
  split; [exact E1|]. split; [lia|]. split; [|split; [exact E2|split; [exact Hl2|lia]]].
  unfold top. pose proof Hwf1 as (Hlen1 & Hcap1 & Hsz1). pose proof Hwf as (_ & _ & Hsz).
  rewrite u32_small by lia.
  destruct (slot_at_in (_stack s1) (_size s1 - 1) Hlen1 ltac:(lia)) as (y & Hy & ->).
  f_equal.
  rewrite <- (lookup_take_lt (_stack s1) (Z.to_nat (_size s1))) in Hy by lia.
  fold (live s1) in Hy. rewrite Hl1, app_assoc in Hy.
  rewrite lookup_app_r in Hy.
  - replace (Z.to_nat (_size s1 - 1) - length (live s ++ xs))%nat with 0%nat in Hy.
    + cbn in Hy. congruence.
    + rewrite length_app, live_length by exact Hwf. lia.
  - rewrite length_app, live_length by exact Hwf. lia.
Qed.

(** X12.  [reverse] turns a stack that holds at least one element upside
    down, leaving its size and the unused slots alone.  On an empty stack
    its first turn swaps [_stack[0]] with [_stack[4294967295]], outside
    the array: the behaviour is undefined. *)
Theorem reverse_reverses_or_undefined (s : t) :
  wf s ->
  if _size s =? 0 then reverse s = Undefined
  else exists s', reverse s = Ret s' /\ live s' = rev (live s) /\ size s' = size s /\
                  drop (Z.to_nat (_size s)) (_stack s')
                  = drop (Z.to_nat (_size s)) (_stack s).
Proof.
  intros Hwf. pose proof Hwf as (Hlen & Hcap & Hs).
  destruct (Z.eqb_spec (_size s) 0) as [Hz|Hnz].
  - unfold reverse. rewrite Hz. change (u32 (0 - 1)) with 4294967295.
    destruct (length (_stack s)) as [|n] eqn:En; [reflexivity|].
    cbn [reverse_loop]. change (0 <? 4294967295) with true. cbv iota.
    unfold swap.
    destruct (slot_at_in (_stack s) 0) as (y & _ & ->); [lia|lia|].
    cbn [mbind outcome_bind]. rewrite slot_at_out by lia. reflexivity.
  - unfold reverse. rewrite u32_small by lia.
    pose proof (live_length s Hwf) as Hll.
    set (rest := drop (Z.to_nat (_size s)) (_stack s)).
    assert (Hsplit : _stack s = [] ++ live s ++ rest) by (apply stack_split, Hwf).
    pose proof (reverse_loop_segment (length (_stack s)) [] (live s) rest) as Hrev.
    rewrite <- Hsplit in Hrev.
    cbn [length] in Hrev. change (Z.of_nat 0) with 0 in Hrev.
    replace (0 + Z.of_nat (length (live s)) - 1) with (_size s - 1) in Hrev by lia.
    rewrite Hrev; [|exact Hlen|exact Hcap|rewrite Hll; lia].
    cbn [mbind outcome_bind app]. eexists. split; [reflexivity|].
    unfold live, size. cbn [_stack _size].
    split; [|split; [reflexivity|]].
    + rewrite take_app_length'; [reflexivity|]. rewrite length_rev. symmetry. exact Hll.
    + rewrite drop_app_length'; [reflexivity|]. rewrite length_rev. symmetry. exact Hll.
Qed.

(** X13.  No operation checks a bound.  On a full stack [push] writes
    past the end of the array, and on an empty stack [pop] and [top] read
    the slot before its start at index 4294967295: the behaviour is
    undefined, so callers have to ask [full] and [empty] first. *)
Theorem unchecked_bounds (s : t) (x : T) :
  wf s ->
  (full s = true -> push x s = Undefined) /\
  (empty s = true -> pop s = Undefined /\ top s = Undefined) /\
  (full s = false -> exists s', push x s = Ret s') /\
  (empty s = false -> exists y s', pop s = Ret (y, s') /\ top s = Ret y).
Proof.
  intros Hwf. pose proof Hwf as (Hlen & Hcap & Hs). unfold full, empty.
  split; [|split; [|split]].
  - intros Hf. apply Z.leb_le in Hf. unfold push. rewrite slot_at_out by lia. reflexivity.
  - intros He. apply Z.leb_le in He. assert (Hz : _size s = 0) by lia.
    unfold pop, top. rewrite Hz. change (u32 (0 - 1)) with 4294967295.
    rewrite slot_at_out by lia. split; reflexivity.
  - intros Hf. apply Z.leb_gt in Hf.
    destruct (push_live x s Hwf Hf) as (s' & E & _). exists s'. exact E.
  - intros He. apply Z.leb_gt in He. unfold pop, top.
    rewrite u32_small by lia.
    destruct (slot_at_in (_stack s) (_size s - 1) Hlen ltac:(lia)) as (y & _ & ->).
    cbn [mbind outcome_bind]. eexists _, _. split; reflexivity.
Qed.


End Stack.


Lemma push_pop_lifo_witness :
  exists s1 s2,
    push_all Z 4 [7; 8; 9] (FixedStack Z [0; 0; 0; 0]) = Ret s1 /\
    top Z 4 s1 = Ret 9 /\
    pop_n Z 4 (fun x => x) 3 s1 = Ret ([9; 8; 7], s2) /\
    size Z s2 = 0.
Proof.
  assert (Hwf : wf Z 4 (FixedStack Z [0; 0; 0; 0])) by (unfold wf; cbn; lia).
  destruct (push_pop_lifo Z 4 (fun x => x) (FixedStack Z [0; 0; 0; 0]) [7; 8] 9 Hwf)
    as (s1 & s2 & E1 & _ & Ht & E2 & _ & Hs); [cbn; lia|].
  exists s1, s2. auto.
Defined.

Lemma reverse_reverses_or_undefined_witness :
  reverse Z 4 (FixedStack Z [0; 0; 0; 0]) = Undefined.
Proof.
  assert (Hwf : wf Z 4 (FixedStack Z [0; 0; 0; 0])) by (unfold wf; cbn; lia).
  exact (reverse_reverses_or_undefined Z 4 (FixedStack Z [0; 0; 0; 0]) Hwf).
Defined.

Lemma unchecked_bounds_witness :
  pop Z 4 (fun x => x) (FixedStack Z [0; 0; 0; 0]) = Undefined /\
  top Z 4 (FixedStack Z [0; 0; 0; 0]) = Undefined.
Proof.
  assert (Hwf : wf Z 4 (FixedStack Z [0; 0; 0; 0])) by (unfold wf; cbn; lia).
  exact (proj1 (proj2 (unchecked_bounds Z 4 (fun x => x) (FixedStack Z [0; 0; 0; 0]) 0 Hwf))
               eq_refl).
Defined.


End FixedStack.
